(** * Internal coordinates and their derivatives: [fast_internal.pyx]

    A shallow embedding of the three evaluators of
    [fast_internal.pyx] ([bond_lengths], [bond_angles],
    [dihedral_angles]) and of the length-3 kernel they share.

    The source computes on C doubles.  The embedding is written once, over
    an interface [Arith] of the arithmetic the source uses (and [Libm] for
    the functions it imports from [libc.math]), and is read at two
    instances:

    - the real numbers, where the geometry of the outputs (symmetry,
      force balance, derivatives) is stated and proved: real
      arithmetic.  There is no rounding, overflow, signed zero or nan
      there, and a division by zero, which numpy answers with inf or
      nan, is whatever [Rdiv] makes of it: what is proved at this
      instance is a property of the formulas that the code evaluates,
      not of the doubles that it returns;
    - binary64 floats ([PrimFloat]), where the arithmetic of the code
      runs bit for bit; the libm is a parameter there, and the examples
      run on [Libm64.tabulated].

    What holds in any arithmetic is proved once, for every instance.

    Python exceptions are values of [exn]; a call returns [result]. *)

From Stdlib Require Import String ZArith List Bool Lia.
From Stdlib Require Import Reals Lra Psatz RNsatz.
From Stdlib Require Import Floats.
Import ListNotations.

Set Implicit Arguments.

(* ================================================================= *)
(** ** Exceptions and results *)

Inductive exn : Type :=
| TypeError (msg : string)
| ValueError (msg : string)
| IndexError
| ZeroDivisionError.

Inductive result (A : Type) : Type :=
| Ok (a : A)
| Raise (e : exn).

Arguments Ok {A} a.
Arguments Raise {A} e.

Definition bind {A B} (r : result A) (k : A -> result B) : result B :=
  match r with
  | Ok a => k a
  | Raise e => Raise e
  end.

Notation "x <- r ;; k" := (bind r (fun x => k))
  (at level 61, r at next level, right associativity).

Definition is_ok {A} (r : result A) : bool :=
  match r with Ok _ => true | Raise _ => false end.

(* ================================================================= *)
(** ** Integers of the source *)

Module CInt.

(** [cdef int] is a 32-bit C int; storing a wider value narrows it. *)
Definition wrap (z : Z) : Z := ((z + 2 ^ 31) mod 2 ^ 32 - 2 ^ 31)%Z.

End CInt.

(** [sign3], [sign6] and [kron], on C ints. Their values are in
    [{-1, 0, 1}], so the product of [sign6] never leaves the int range. *)

Definition sign3 (i j k : Z) : Z :=
  if (i =? j)%Z then 1%Z
  else if (i =? k)%Z then (- 1)%Z
  else 0%Z.

Definition sign6 (a b c i j k : Z) : Z := (sign3 a b c * sign3 i j k)%Z.

Definition kron (i j : Z) : Z := if (i =? j)%Z then 1%Z else 0%Z.

(* ================================================================= *)
(** ** Arithmetic interface *)

(** What the source does with a [double]: the four operations, unary
    minus, [sqrt], the comparisons [<] and [==], the conversion of an
    integer, and the literal [1e-10]. *)
Class Arith (F : Type) : Type := {
  fadd : F -> F -> F;
  fsub : F -> F -> F;
  fmul : F -> F -> F;
  fdiv : F -> F -> F;
  fneg : F -> F;
  fsqrt : F -> F;
  fltb : F -> F -> bool;
  feqb : F -> F -> bool;
  of_int : Z -> F;
  f1em10 : F
}.

(** [acos], [cos], [sin], [atan2] of [libc.math]. *)
Class Libm (F : Type) : Type := {
  facos : F -> F;
  fcos : F -> F;
  fsin : F -> F;
  fatan2 : F -> F -> F
}.

Declare Scope arith_scope.
Delimit Scope arith_scope with ar.
Infix "+" := fadd : arith_scope.
Infix "-" := fsub : arith_scope.
Infix "*" := fmul : arith_scope.
Infix "/" := fdiv : arith_scope.
Notation "- x" := (fneg x) : arith_scope.

(* ================================================================= *)
(** ** Length-3 arrays and 3x3 arrays *)

Record vec3 (A : Type) : Type := V3 { c0 : A; c1 : A; c2 : A }.

Definition mat3 (A : Type) : Type := vec3 (vec3 A).

Inductive axis : Type := X0 | X1 | X2.

Definition vget {A} (v : vec3 A) (i : axis) : A :=
  match i with
  | X0 => c0 v
  | X1 => c1 v
  | X2 => c2 v
  end.

(** [M[i, j]]. *)
Definition mget {A} (M : mat3 A) (i j : axis) : A := vget (vget M i) j.

Definition vmap {A B} (f : A -> B) (v : vec3 A) : vec3 B :=
  V3 (f (c0 v)) (f (c1 v)) (f (c2 v)).

Definition vmap2 {A B} (f : A -> A -> B) (v w : vec3 A) : vec3 B :=
  V3 (f (c0 v) (c0 w)) (f (c1 v) (c1 w)) (f (c2 v) (c2 w)).

Section Kernel.

Context {F : Type} {AF : Arith F}.
Local Open Scope arith_scope.

(** numpy's elementwise operations on arrays of length 3. *)
Definition vadd (v w : vec3 F) : vec3 F := vmap2 fadd v w.
Definition vsub (v w : vec3 F) : vec3 F := vmap2 fsub v w.
Definition vneg (v : vec3 F) : vec3 F := vmap fneg v.
Definition vmuls (v : vec3 F) (s : F) : vec3 F := vmap (fun x => x * s) v.
Definition smulv (s : F) (v : vec3 F) : vec3 F := vmap (fun x => s * x) v.
Definition vdivs (v : vec3 F) (s : F) : vec3 F := vmap (fun x => x / s) v.

Definition vzero : vec3 F := V3 (of_int 0) (of_int 0) (of_int 0).

(** The same on 3x3 arrays. *)
Definition madd (M N : mat3 F) : mat3 F := vmap2 vadd M N.
Definition msub (M N : mat3 F) : mat3 F := vmap2 vsub M N.
Definition mneg (M : mat3 F) : mat3 F := vmap vneg M.
Definition mmuls (M : mat3 F) (s : F) : mat3 F := vmap (fun r => vmuls r s) M.
Definition smulm (s : F) (M : mat3 F) : mat3 F := vmap (smulv s) M.
Definition mdivs (M : mat3 F) (s : F) : mat3 F := vmap (fun r => vdivs r s) M.

(** [M.T] *)
Definition mT (M : mat3 F) : mat3 F :=
  V3 (V3 (mget M X0 X0) (mget M X1 X0) (mget M X2 X0))
     (V3 (mget M X0 X1) (mget M X1 X1) (mget M X2 X1))
     (V3 (mget M X0 X2) (mget M X1 X2) (mget M X2 X2)).

(** [np.zeros((3,3))] and [np.eye(3)] *)
Definition mzero : mat3 F := V3 vzero vzero vzero.

Definition eye : mat3 F :=
  V3 (V3 (of_int 1) (of_int 0) (of_int 0))
     (V3 (of_int 0) (of_int 1) (of_int 0))
     (V3 (of_int 0) (of_int 0) (of_int 1)).

Definition outer3_minus_eye (v1 v2 : vec3 F) : mat3 F :=
  V3 (V3 (c0 v1 * c0 v2 - of_int 1) (c0 v1 * c1 v2) (c0 v1 * c2 v2))
     (V3 (c1 v1 * c0 v2) (c1 v1 * c1 v2 - of_int 1) (c1 v1 * c2 v2))
     (V3 (c2 v1 * c0 v2) (c2 v1 * c1 v2) (c2 v1 * c2 v2 - of_int 1)).

Definition norm3 (v : vec3 F) : F :=
  fsqrt (c0 v * c0 v + c1 v * c1 v + c2 v * c2 v).

Definition dot3 (v1 v2 : vec3 F) : F :=
  c0 v1 * c0 v2 + c1 v1 * c1 v2 + c2 v1 * c2 v2.

Definition cross3 (a b : vec3 F) : vec3 F :=
  V3 (c1 a * c2 b - c2 a * c1 b)
     (c2 a * c0 b - c0 a * c2 b)
     (c0 a * c1 b - c1 a * c0 b).

Definition outer3 (v1 v2 : vec3 F) : mat3 F :=
  V3 (V3 (c0 v1 * c0 v2) (c0 v1 * c1 v2) (c0 v1 * c2 v2))
     (V3 (c1 v1 * c0 v2) (c1 v1 * c1 v2) (c1 v1 * c2 v2))
     (V3 (c2 v1 * c0 v2) (c2 v1 * c1 v2) (c2 v1 * c2 v2)).

Definition sym_outer3 (v1 v2 : vec3 F) : mat3 F :=
  V3 (V3 (of_int 2 * c0 v1 * c0 v2)
         (c0 v1 * c1 v2 + c1 v1 * c0 v2)
         (c0 v1 * c2 v2 + c2 v1 * c0 v2))
     (V3 (c0 v1 * c1 v2 + c1 v1 * c0 v2)
         (of_int 2 * c1 v1 * c1 v2)
         (c1 v1 * c2 v2 + c2 v1 * c1 v2))
     (V3 (c0 v1 * c2 v2 + c2 v1 * c0 v2)
         (c1 v1 * c2 v2 + c2 v1 * c1 v2)
         (of_int 2 * c2 v1 * c2 v2)).

Definition splay3 (v : vec3 F) : mat3 F :=
  V3 (V3 (of_int 0) (- c2 v / of_int 2) (- c1 v / of_int 4))
     (V3 (c2 v / of_int 2) (of_int 0) (- c0 v / of_int 2))
     (V3 (c1 v / of_int 4) (c0 v / of_int 2) (of_int 0)).

End Kernel.

(* ================================================================= *)
(** ** Arrays *)

(** A two-dimensional numpy array: its second dimension and its rows,
    each of [shape1] entries.  [shape[0]] is the number of rows. *)
Record ndarray2 (T : Type) : Type := NdArray2 {
  shape1 : nat;
  rows : list (list T)
}.

Definition shape0 {T} (a : ndarray2 T) : nat := length (rows a).

(** An integer index on an axis of length [n], as Python and numpy read
    it: [k] in [0, n) is itself, [k] in [-n, 0) counts from the end, and
    anything else raises [IndexError]. *)
Definition py_index (n : nat) (k : Z) : result nat :=
  if ((0 <=? k) && (k <? Z.of_nat n))%Z
  then Ok (Z.to_nat k)
  else if ((- Z.of_nat n <=? k) && (k <? 0))%Z
  then Ok (Z.to_nat (Z.of_nat n + k))
  else Raise IndexError.

(** [l[i] = x] at a position already resolved by [py_index]. *)
Fixpoint upd {A} (i : nat) (x : A) (l : list A) : list A :=
  match l, i with
  | [], _ => []
  | _ :: t, O => x :: t
  | h :: t, S i' => h :: upd i' x t
  end.

Section Tensors.

Context {F : Type} {AF : Arith F}.

(** The slice [jacobian[f]]: one length-3 row per atom. *)
Definition jslab : Type := list (vec3 F).

(** The slice [hessian[f]], of shape (n_atoms, 3, n_atoms, 3), kept as
    the 3x3 blocks [hessian[f, a, :, b, :]]. *)
Definition hslab : Type := list (list (mat3 F)).

Definition jget (J : jslab) (a : nat) : vec3 F := nth a J vzero.

Definition hget (H : hslab) (a b : nat) : mat3 F :=
  nth b (nth a H []) mzero.

(** [hessian[f, a, :, b, :] = M] *)
Definition hset (a b : nat) (M : mat3 F) (H : hslab) : hslab :=
  upd a (upd b M (nth a H [])) H.

(** [hessian[f, a, :, b, :] += M] *)
Definition hadd (a b : nat) (M : mat3 F) (H : hslab) : hslab :=
  hset a b (madd (hget H a b) M) H.

(** The three output arrays while a call runs. *)
Record tensors : Type := Tensors {
  vals : list F;
  jac : list jslab;
  hess : list hslab
}.

(** What a call returns: the values, with [deriv >= 1] the Jacobian,
    with [deriv == 2] the Hessian. *)
Inductive output : Type :=
| Values (v : list F)
| WithJacobian (v : list F) (j : list jslab)
| WithHessian (v : list F) (j : list jslab) (h : list hslab).

Definition values_of (out : output) : list F :=
  match out with
  | Values v | WithJacobian v _ | WithHessian v _ _ => v
  end.

(** The block [hessian[f, a, :, b, :]]. *)
Definition hessian_block (h : list hslab) (f a b : nat) : mat3 F :=
  hget (nth f h []) a b.

(** The entry [hessian[f, a, i, b, j]]. *)
Definition hessian_at (h : list hslab) (f a : nat) (i : axis)
           (b : nat) (j : axis) : F :=
  mget (hessian_block h f a b) i j.

(** The row [jacobian[f, a, :]]. *)
Definition jacobian_row (j : list jslab) (f a : nat) : vec3 F :=
  jget (nth f j []) a.

(** [np.empty(n_feat)] (modelled as zeros: every entry is written
    before the array is returned), [np.zeros((n_feat, n_atoms, 3))] when
    [deriv >= 1], [np.zeros((n_feat, n_atoms, 3, n_atoms, 3))] when
    [deriv == 2]. *)
Definition allocate (n_feat n_atoms : nat) (deriv : Z) : tensors :=
  {| vals := repeat (of_int 0) n_feat;
     jac := if (1 <=? deriv)%Z
            then repeat (repeat vzero n_atoms) n_feat else [];
     hess := if (deriv =? 2)%Z
             then repeat (repeat (repeat mzero n_atoms) n_atoms) n_feat
             else [] |}.

Definition returned (deriv : Z) (st : tensors) : output :=
  if (deriv =? 0)%Z then Values (vals st)
  else if (deriv =? 1)%Z then WithJacobian (vals st) (jac st)
  else WithHessian (vals st) (jac st) (hess st).

(** One pass of a [for i in range(n_feat)] loop.  Every write of the
    loop bodies has the form [out[i, ...] = ...]: the body is given the
    slices [jacobian[i]] and [hessian[i]] and hands back the value and
    the slices as it leaves them. *)
Definition feature : Type :=
  list Z -> jslab -> hslab -> result (F * jslab * hslab).

Definition step (feat : feature) (i : nat) (row : list Z) (st : tensors)
  : result tensors :=
  r <- feat row (nth i (jac st) []) (nth i (hess st) []) ;;
  let '(v, J, H) := r in
  Ok {| vals := upd i v (vals st);
        jac := upd i J (jac st);
        hess := upd i H (hess st) |}.

Fixpoint for_features (feat : feature) (i : nat) (rws : list (list Z))
         (st : tensors) : result tensors :=
  match rws with
  | [] => Ok st
  | row :: rest =>
      st' <- step feat i row st ;;
      for_features feat (S i) rest st'
  end.

(** [for a in atoms: for b in atoms: body]; an atom is carried with
    the position its index designates. *)
Definition for_pairs {S} (atoms : list (Z * nat))
           (body : Z * nat -> Z * nat -> S -> S) (s : S) : S :=
  fold_left (fun s a => fold_left (fun s b => body a b s) atoms s) atoms s.

(** The row [xyz[a]], an array of length 3 once the shape is checked. *)
Definition xyz_row (xyz : ndarray2 F) (a : nat) : vec3 F :=
  let r := nth a (rows xyz) [] in
  V3 (nth 0 r (of_int 0)) (nth 1 r (of_int 0)) (nth 2 r (of_int 0)).

(** A division of two C doubles. The module does not set [cdivision],
    so Cython tests the divisor and raises. *)
Definition cdiv (x y : F) : result F :=
  if feqb y (of_int 0) then Raise ZeroDivisionError else Ok (fdiv x y).

(** The three tests that open each evaluator, in their order.  [deriv]
    is the C int that the argument became when the call was set up: a
    Python integer outside the range of a C int raises [OverflowError]
    there, before any of these tests, and is no input of this
    function. *)
Definition check_args {T} (what : string) (arity : nat)
           (xyz : ndarray2 F) (idx : ndarray2 T) (deriv : Z) : result unit :=
  if negb (shape1 xyz =? 3)%nat
  then Raise (TypeError "xyz must be of length 3 in the last dimension.")
  else if negb (shape1 idx =? arity)%nat
  then Raise (TypeError what)
  else if negb ((deriv =? 0) || (deriv =? 1) || (deriv =? 2))%Z
  then Raise (ValueError "deriv must be 0, 1, 2")
  else Ok tt.

End Tensors.

Arguments jslab F : clear implicits.
Arguments hslab F : clear implicits.
Arguments tensors F : clear implicits.
Arguments output F : clear implicits.
Arguments feature F : clear implicits.

(* ================================================================= *)
(** ** The evaluators *)

Section Evaluators.

Context {F : Type} {AF : Arith F} {LF : Libm F}.
Local Open Scope arith_scope.

(** *** [bond_lengths] *)

(** The body of the loop of [bond_lengths] for one row of [ibonds].
    [xyz[m]] resolves the index [m] (or raises); the later accesses
    [jacobian[i, m, :]] and [hessian[i, m, :, n, :]] are on axes of the
    same length [n_atoms] and reach the same position. *)
Definition bond_feature (xyz : ndarray2 F) (deriv : Z) : feature F :=
  fun row J H =>
    let n_atoms := shape0 xyz in
    let m := CInt.wrap (nth 0 row 0%Z) in
    let n := CInt.wrap (nth 1 row 0%Z) in
    am <- py_index n_atoms m ;;
    an <- py_index n_atoms n ;;
    let u := vsub (xyz_row xyz am) (xyz_row xyz an) in
    let norm := norm3 u in
    let u := if (1 <=? deriv)%Z then vdivs u norm else u in
    let J := if (1 <=? deriv)%Z
             then upd an (vneg u) (upd am u J)
             else J in
    let H := if (deriv =? 2)%Z
             then
               let hessian_term0 := mdivs (outer3_minus_eye u u) norm in
               hset an an (mneg hessian_term0)
                 (hset an am hessian_term0
                    (hset am am (mneg hessian_term0)
                       (hset am an hessian_term0 H)))
             else H in
    Ok (norm, J, H).

Definition bond_lengths (xyz : ndarray2 F) (ibonds : ndarray2 Z)
           (deriv : Z) : result (output F) :=
  _ <- check_args "ibonds must have 2 columns." 2 xyz ibonds deriv ;;
  let n_atoms := shape0 xyz in
  let n_bonds := shape0 ibonds in
  st <- for_features (bond_feature xyz deriv) 0 (rows ibonds)
          (allocate n_bonds n_atoms deriv) ;;
  Ok (returned deriv st).

(** *** [bond_angles] *)

(** The four conditional [+=] of the inner loop of [bond_angles]. *)
Definition angle_block (m o n : Z) (term1 term2 term3 term4 : mat3 F)
           (a b : Z * nat) (H : hslab F) : hslab F :=
  let '(a, aa) := a in
  let '(b, ab) := b in
  let H := if negb (sign6 a m o b m o =? 0)%Z
           then hadd aa ab (smulm (of_int (sign6 a m o b m o)) term1) H
           else H in
  let H := if negb (sign6 a n o b n o =? 0)%Z
           then hadd aa ab (smulm (of_int (sign6 a n o b n o)) term2) H
           else H in
  let H := if negb (sign6 a m o b n o =? 0)%Z
           then hadd aa ab (smulm (of_int (sign6 a m o b n o)) term3) H
           else H in
  let H := if negb (sign6 a n o b m o =? 0)%Z
           then hadd aa ab (smulm (of_int (sign6 a n o b m o)) term4) H
           else H in
  H.

(** [c * np.outer(J, J).reshape(n_atoms, 3, n_atoms, 3)]: the entry
    [a, i, b, j] is [c * (J[a, i] * J[b, j])]. *)
Definition scaled_outer (c : F) (J : jslab F) : hslab F :=
  map (fun ja => map (fun jb => smulm c (outer3 ja jb)) J) J.

(** The body of the loop of [bond_angles] for one row of [iangles].
    The two quotients of C doubles, [dot3(...) / (u_norm*v_norm)] and
    [cos_angle / sin_angle], are [cdiv]; a quotient of an array by a
    double is numpy's and raises nothing.  [u_norm**2] is the product
    [u_norm * u_norm]. *)
Definition angle_feature (xyz : ndarray2 F) (deriv : Z) : feature F :=
  fun row J H =>
    let n_atoms := shape0 xyz in
    let m := CInt.wrap (nth 0 row 0%Z) in
    let o := CInt.wrap (nth 1 row 0%Z) in
    let n := CInt.wrap (nth 2 row 0%Z) in
    am <- py_index n_atoms m ;;
    ao <- py_index n_atoms o ;;
    an <- py_index n_atoms n ;;
    let u_prime := vsub (xyz_row xyz am) (xyz_row xyz ao) in
    let v_prime := vsub (xyz_row xyz an) (xyz_row xyz ao) in
    let u_norm := norm3 u_prime in
    let v_norm := norm3 v_prime in
    let u := vdivs u_prime u_norm in
    let v := vdivs v_prime v_norm in
    q <- cdiv (dot3 u_prime v_prime) (u_norm * v_norm) ;;
    let angle := facos q in
    J <- (if (1 <=? deriv)%Z
          then
            if fltb (norm3 (vadd u v)) f1em10
               || fltb (norm3 (vsub u v)) f1em10
            then Raise (ValueError "Sorry. I'll get back to this")
            else
              let w_prime := cross3 u v in
              let w := vdivs w_prime (norm3 w_prime) in
              let jacobian_term0 := vdivs (cross3 u w) u_norm in
              let jacobian_term1 := vdivs (cross3 w v) v_norm in
              Ok (upd ao (vneg (vadd jacobian_term0 jacobian_term1))
                    (upd an jacobian_term1
                       (upd am jacobian_term0 J)))
          else Ok J) ;;
    H <- (if (deriv =? 2)%Z
          then
            let cos_angle := fcos angle in
            let sin_angle := fsin angle in
            let uv := outer3 u v in
            let uu := outer3 u u in
            let vv := outer3 v v in
            let term1 :=
              mdivs (madd (madd uv (mT uv))
                          (mmuls (madd (smulm (of_int (-3)) uu) eye)
                                 cos_angle))
                    (u_norm * u_norm * sin_angle) in
            let term2 :=
              mdivs (madd (madd uv (mT uv))
                          (mmuls (madd (smulm (of_int (-3)) vv) eye)
                                 cos_angle))
                    (v_norm * v_norm * sin_angle) in
            let term3 :=
              mdivs (msub (msub (madd uu vv) (mmuls uv cos_angle)) eye)
                    (u_norm * v_norm * sin_angle) in
            let term4 :=
              mdivs (msub (msub (madd uu vv) (mmuls (mT uv) cos_angle)) eye)
                    (u_norm * v_norm * sin_angle) in
            c <- cdiv cos_angle sin_angle ;;
            let H := scaled_outer (- c) J in
            Ok (for_pairs [(m, am); (n, an); (o, ao)]
                  (angle_block m o n term1 term2 term3 term4) H)
          else Ok H) ;;
    Ok (angle, J, H).

Definition bond_angles (xyz : ndarray2 F) (iangles : ndarray2 Z)
           (deriv : Z) : result (output F) :=
  _ <- check_args "iangles must have 3 columns." 3 xyz iangles deriv ;;
  let n_atoms := shape0 xyz in
  let n_angles := shape0 iangles in
  st <- for_features (angle_feature xyz deriv) 0 (rows iangles)
          (allocate n_angles n_atoms deriv) ;;
  Ok (returned deriv st).

(** *** [dihedral_angles] *)

(** The body of the inner loop of [dihedral_angles]: the coefficients
    [m1] .. [m8], the sum [factor], and the assignment of the block.
    [ht8] is computed by the source and never used. *)
Definition dihedral_factor (m o p n : Z)
           (ht1 ht2 ht3 ht4 ht5 ht6 ht7 : mat3 F) (a b : Z) : mat3 F :=
  let factor := mzero in
  let m1 := sign6 a m o b m o in
  let m2 := sign6 a n p b n p in
  let m3 := (sign6 a m o b o p + sign6 a p o b o p)%Z in
  let m4 := (sign6 a n p b p o + sign6 a p o b n o)%Z in
  let m5 := sign6 a o p b p o in
  let m6 := sign6 a o p b o p in
  let m7 := ((1 - kron a b) * (sign6 a m o b o p + sign6 a p o b o m))%Z in
  let m8 := ((1 - kron a b) * (sign6 a n o b o p + sign6 a p o b o m))%Z in
  let factor := if negb (m1 =? 0)%Z
                then madd factor (smulm (of_int m1) ht1) else factor in
  let factor := if negb (m2 =? 0)%Z
                then madd factor (smulm (of_int m2) ht2) else factor in
  let factor := if negb (m3 =? 0)%Z
                then madd factor (smulm (of_int m3) ht3) else factor in
  let factor := if negb (m4 =? 0)%Z
                then madd factor (smulm (of_int m4) ht4) else factor in
  let factor := if negb (m5 =? 0)%Z
                then madd factor (smulm (of_int m5) ht5) else factor in
  let factor := if negb (m6 =? 0)%Z
                then madd factor (smulm (of_int m6) ht6) else factor in
  let factor := if negb (m7 =? 0)%Z
                then madd factor (smulm (of_int m7) ht7) else factor in
  let factor := if negb (m8 =? 0)%Z
                then madd factor (smulm (of_int m8) ht7) else factor in
  factor.

Definition dihedral_block (m o p n : Z)
           (ht1 ht2 ht3 ht4 ht5 ht6 ht7 : mat3 F)
           (a b : Z * nat) (H : hslab F) : hslab F :=
  hset (snd a) (snd b)
       (dihedral_factor m o p n ht1 ht2 ht3 ht4 ht5 ht6 ht7 (fst a) (fst b))
       H.

(** The body of the loop of [dihedral_angles] for one row of
    [idihedrals].  Every quotient is of an array by a double. *)
Definition dihedral_feature (xyz : ndarray2 F) (deriv : Z) : feature F :=
  fun row J H =>
    let n_atoms := shape0 xyz in
    let m := CInt.wrap (nth 0 row 0%Z) in
    let o := CInt.wrap (nth 1 row 0%Z) in
    let p := CInt.wrap (nth 2 row 0%Z) in
    let n := CInt.wrap (nth 3 row 0%Z) in
    am <- py_index n_atoms m ;;
    ao <- py_index n_atoms o ;;
    an <- py_index n_atoms n ;;
    ap <- py_index n_atoms p ;;
    let u_prime := vsub (xyz_row xyz am) (xyz_row xyz ao) in
    let v_prime := vsub (xyz_row xyz an) (xyz_row xyz ap) in
    let w_prime := vsub (xyz_row xyz ap) (xyz_row xyz ao) in
    let u_norm := norm3 u_prime in
    let v_norm := norm3 v_prime in
    let w_norm := norm3 w_prime in
    let u := vdivs u_prime u_norm in
    let v := vdivs v_prime v_norm in
    let w := vdivs w_prime w_norm in
    let dot_uw := dot3 u w in
    let dot_vw := dot3 v w in
    let dot_uw2 := dot_uw * dot_uw in
    let dot_vw2 := dot_vw * dot_vw in
    let cross_vw := cross3 v_prime w_prime in
    let cross_uw := cross3 u_prime w_prime in
    let value :=
      fatan2 (dot3 u_prime cross_vw * w_norm) (dot3 cross_vw cross_uw) in
    (* [cross_vw /= ...], [cross_uw /= ...]: in place, when deriv >= 1 *)
    let cross_vw := if (1 <=? deriv)%Z
                    then vdivs cross_vw (v_norm * w_norm) else cross_vw in
    let cross_uw := if (1 <=? deriv)%Z
                    then vdivs cross_uw (u_norm * w_norm) else cross_uw in
    let J :=
      if (1 <=? deriv)%Z
      then
        let term1 := vdivs cross_uw (u_norm * (of_int 1 - dot_uw2)) in
        let term2 := vdivs cross_vw (v_norm * (of_int 1 - dot_vw2)) in
        let term3 := vdivs (vmuls cross_uw dot_uw)
                           (w_norm * (of_int 1 - dot_uw2)) in
        let term4 := vdivs (vmuls (vneg cross_vw) dot_vw)
                           (w_norm * (of_int 1 - dot_vw2)) in
        upd ap (vadd (vsub term2 term3) term4)
          (upd ao (vsub (vadd (vneg term1) term3) term4)
             (upd an (vneg term2)
                (upd am term1 J)))
      else J in
    let H :=
      if (deriv =? 2)%Z
      then
        let sin4_u := (of_int 1 - dot_uw2) * (of_int 1 - dot_uw2) in
        let sin4_v := (of_int 1 - dot_vw2) * (of_int 1 - dot_vw2) in
        let ht1 := mdivs (sym_outer3 cross_uw (vsub (vmuls w dot_uw) u))
                         (u_norm * u_norm * sin4_u) in
        let ht2 := mdivs (sym_outer3 cross_vw (vsub (vmuls w dot_vw) v))
                         (v_norm * v_norm * sin4_v) in
        let ht3 :=
          mdivs (sym_outer3 cross_uw
                   (vadd (vsub w (vmuls (smulv (of_int 2) u) dot_uw))
                         (vmuls w dot_uw2)))
                (of_int 2 * u_norm * w_norm * sin4_u) in
        let ht4 :=
          mdivs (sym_outer3 cross_vw
                   (vadd (vsub w (vmuls (smulv (of_int 2) u) dot_vw))
                         (vmuls w dot_vw2)))
                (of_int 2 * v_norm * w_norm * sin4_v) in
        let ht5 :=
          mdivs (sym_outer3 cross_uw
                   (vsub (vadd u (vmuls u dot_uw2))
                         (vmuls w (of_int 3 * dot_uw + dot_uw2))))
                (of_int 2 * w_norm * w_norm * sin4_u) in
        let ht6 :=
          mdivs (sym_outer3 cross_vw
                   (vsub (vadd v (vmuls v dot_vw2))
                         (vmuls w (of_int 3 * dot_vw + dot_uw2))))
                (of_int 2 * w_norm * w_norm * sin4_v) in
        let ht7 :=
          splay3 (vdivs (vsub (vmuls w dot_uw) u)
                        (u_norm * w_norm * (of_int 1 - dot_uw2))) in
        let ht8 :=
          splay3 (vdivs (vsub (vmuls (vneg w) dot_vw) v)
                        (v_norm * w_norm * (of_int 1 - dot_vw2))) in
        for_pairs [(m, am); (n, an); (o, ao); (p, ap)]
          (dihedral_block m o p n ht1 ht2 ht3 ht4 ht5 ht6 ht7) H
      else H in
    Ok (value, J, H).

Definition dihedral_angles (xyz : ndarray2 F) (idihedrals : ndarray2 Z)
           (deriv : Z) : result (output F) :=
  _ <- check_args "idihedrals must have 4 columns." 4 xyz idihedrals deriv ;;
  let n_atoms := shape0 xyz in
  let n_dihedrals := shape0 idihedrals in
  st <- for_features (dihedral_feature xyz deriv) 0 (rows idihedrals)
          (allocate n_dihedrals n_atoms deriv) ;;
  Ok (returned deriv st).

End Evaluators.

(* ================================================================= *)
(** ** The three families at once *)

Inductive family : Type := Bonds | Angles | Dihedrals.

Definition arity (fam : family) : nat :=
  match fam with
  | Bonds => 2
  | Angles => 3
  | Dihedrals => 4
  end.

Definition feature_of {F} {AF : Arith F} {LF : Libm F} (fam : family)
  : ndarray2 F -> Z -> feature F :=
  match fam with
  | Bonds => bond_feature
  | Angles => angle_feature
  | Dihedrals => dihedral_feature
  end.

Definition evaluate {F} {AF : Arith F} {LF : Libm F} (fam : family)
  : ndarray2 F -> ndarray2 Z -> Z -> result (output F) :=
  match fam with
  | Bonds => bond_lengths
  | Angles => bond_angles
  | Dihedrals => dihedral_angles
  end.

Definition jacobian_of {F} (out : output F) : option (list (jslab F)) :=
  match out with
  | Values _ => None
  | WithJacobian _ j | WithHessian _ j _ => Some j
  end.

Definition hessian_of {F} (out : output F) : option (list (hslab F)) :=
  match out with
  | WithHessian _ _ h => Some h
  | _ => None
  end.

Definition columns_message (fam : family) : string :=
  match fam with
  | Bonds => "ibonds must have 2 columns."
  | Angles => "iangles must have 3 columns."
  | Dihedrals => "idihedrals must have 4 columns."
  end.

(** The slices a loop body starts from. *)
Definition zero_jslab {F} {AF : Arith F} (n_atoms : nat) (deriv : Z)
  : jslab F :=
  if (1 <=? deriv)%Z then repeat vzero n_atoms else [].

Definition zero_hslab {F} {AF : Arith F} (n_atoms : nat) (deriv : Z)
  : hslab F :=
  if (deriv =? 2)%Z then repeat (repeat mzero n_atoms) n_atoms else [].

(** The atom an entry [z] of an index array designates in a frame of
    [n_atoms] atoms: the entry is stored in a C int and used as a Python
    index. *)
Definition atom_of (n_atoms : nat) (z : Z) : result nat :=
  py_index n_atoms (CInt.wrap z).

(* ================================================================= *)
(** ** Instances *)

(** The real numbers, exact: no rounding, no overflow, no nan.
    [atan2] is the angle of the point [(x, y)] in (-PI, PI], as C
    defines it away from signed zeros; the reals have one zero, so C's
    [atan2 (-0.0, x)], which is [-pi] for [x < 0], has no counterpart
    here. *)
Module RealArith.

Definition ltb (x y : R) : bool := if Rlt_dec x y then true else false.
Definition eqb (x y : R) : bool := if Req_dec_T x y then true else false.

Definition atan2 (y x : R) : R :=
  if Rlt_dec 0 x then atan (y / x)
  else if Rlt_dec x 0
       then if Rle_dec 0 y then atan (y / x) + PI else atan (y / x) - PI
       else if Rlt_dec 0 y then PI / 2
            else if Rlt_dec y 0 then - (PI / 2)
                 else 0.

#[export] Instance R_arith : Arith R := {|
  fadd := Rplus;
  fsub := Rminus;
  fmul := Rmult;
  fdiv := Rdiv;
  fneg := Ropp;
  fsqrt := R_sqrt.sqrt;
  fltb := ltb;
  feqb := eqb;
  of_int := IZR;
  f1em10 := 1e-10%R
|}.

#[export] Instance R_libm : Libm R := {|
  facos := acos;
  fcos := cos;
  fsin := sin;
  fatan2 := atan2
|}.

End RealArith.

(** IEEE binary64, the C double itself. An [int] converts exactly. *)
Module Binary64.

Definition of_Z (z : Z) : float :=
  match z with
  | Z0 => PrimFloat.of_uint63 (Uint63.of_Z 0)
  | Zpos _ => PrimFloat.of_uint63 (Uint63.of_Z z)
  | Zneg p => PrimFloat.opp (PrimFloat.of_uint63 (Uint63.of_Z (Zpos p)))
  end.

#[export] Instance float_arith : Arith float := {|
  fadd := PrimFloat.add;
  fsub := PrimFloat.sub;
  fmul := PrimFloat.mul;
  fdiv := PrimFloat.div;
  fneg := PrimFloat.opp;
  fsqrt := PrimFloat.sqrt;
  fltb := PrimFloat.ltb;
  feqb := PrimFloat.eqb;
  of_int := of_Z;
  f1em10 := 0x1.b7cdfd9d7bdbbp-34%float
|}.

End Binary64.

(* ================================================================= *)
(** ** Frames used as test inputs *)

Import RealArith Binary64.

Module Frames.

Local Open Scope R_scope.

(** Four atoms with unit bonds at right angles: [m = 0], [o = 1],
    [p = 2], [n = 3] make a dihedral of a quarter turn. *)
Definition square4 : ndarray2 R :=
  NdArray2 3 [[1; 0; 0]; [0; 0; 0]; [0; 0; 1]; [0; 1; 1]].

Definition bonds_01_12 : ndarray2 Z := NdArray2 2 [[0; 1]; [1; 2]]%Z.
Definition angle_012 : ndarray2 Z := NdArray2 3 [[0; 1; 2]]%Z.
Definition dihedral_0123 : ndarray2 Z := NdArray2 4 [[0; 1; 2; 3]]%Z.

(** Three atoms on a line, the vertex in the middle. *)
Definition collinear3 : ndarray2 R :=
  NdArray2 3 [[-1; 0; 0]; [0; 0; 0]; [2; 0; 0]].

(** Two atoms at the same place, and the bond between them; in
    binary64. *)
Definition coincident2 : ndarray2 float :=
  NdArray2 3 [[1; 2; 3]; [1; 2; 3]]%float.

Definition bond_01 : ndarray2 Z := NdArray2 2 [[0; 1]]%Z.



(** A bond to an atom that the frame [square4] does not have. *)
Definition bond_0_7 : ndarray2 Z := NdArray2 2 [[0; 7]]%Z.

End Frames.

(* ================================================================= *)
(** ** The functions of [libc.math] on binary64 *)

(** The source takes [acos], [cos], [sin] and [atan2] from [libc.math].
    C fixes their results at special operands (C99 7.12.4 and Annex
    F.9.1: a NaN for [acos] outside [-1, 1], [+0] for [acos(1)], [+-pi]
    for [atan2(+-0, x)] with [x < 0] or [x = -0], [+-0] for
    [atan2(+-0, x)] with [x > 0] or [x = +0], [+-pi/2] for
    [atan2(y, +-0)] with [y] not zero, [1] for [cos(+-0)], [+-0] for
    [sin(+-0)]) and leaves the rounding elsewhere to the platform.

    [tabulated] holds these results and, for the ordinary operands that
    the examples of this file reach, the correctly rounded ones:
    [acos(0)] and [acos(-1)], and [cos] and [sin] of the double nearest
    to [pi/2].  It answers every other operand with nan: it is the libm
    of the examples, not a model of the platform's.  What is proved on
    it about an example is proved as well for every [Libm float] that
    agrees with it at the operands the example reaches. *)
Module Libm64.

(** [M_PI] and [M_PI_2], the doubles nearest to [pi] and to [pi/2]. *)
Definition pi : float := 0x1.921fb54442d18p+1.
Definition half_pi : float := 0x1.921fb54442d18p+0.

(** [copysign(x, y)] for a positive [x]. *)
Definition with_sign_of (y x : float) : float :=
  if PrimFloat.get_sign y then PrimFloat.opp x else x.

Definition acos (x : float) : float :=
  if PrimFloat.ltb 1 (PrimFloat.abs x) then nan
  else if PrimFloat.eqb x 1 then 0%float
  else if PrimFloat.eqb x 0 then half_pi
  else if PrimFloat.eqb x (-1) then pi
  else nan.

Definition cos (x : float) : float :=
  if PrimFloat.is_zero x then 1%float
  else if PrimFloat.eqb x half_pi then 0x1.1a62633145c07p-54%float
  else nan.

Definition sin (x : float) : float :=
  if PrimFloat.is_zero x then x
  else if PrimFloat.eqb x half_pi then 1%float
  else nan.

Definition atan2 (y x : float) : float :=
  if PrimFloat.is_nan y || PrimFloat.is_nan x then nan
  else if PrimFloat.is_zero y
       then if PrimFloat.get_sign x then with_sign_of y pi
            else with_sign_of y 0%float
       else if PrimFloat.is_zero x then with_sign_of y half_pi
            else nan.

#[global] Instance tabulated : Libm float := {|
  facos := acos;
  fcos := cos;
  fsin := sin;
  fatan2 := atan2
|}.

End Libm64.

(* ================================================================= *)
(** ** The formula of the specification for a dihedral *)

(** The difference, the dot product, the cross product and the
    Euclidean norm as the textbooks define them on coordinates, and the
    dihedral of four positions that the specification writes with
    them.  Nothing here is taken from the kernel of the source. *)
Module Textbook.

Section Formula.

Context {F : Type} {AF : Arith F} {LF : Libm F}.
Local Open Scope arith_scope.

Definition sub (a b : vec3 F) : vec3 F :=
  V3 (c0 a - c0 b) (c1 a - c1 b) (c2 a - c2 b).

Definition dot (a b : vec3 F) : F :=
  c0 a * c0 b + c1 a * c1 b + c2 a * c2 b.

Definition cross (a b : vec3 F) : vec3 F :=
  V3 (c1 a * c2 b - c2 a * c1 b)
     (c2 a * c0 b - c0 a * c2 b)
     (c0 a * c1 b - c1 a * c0 b).

Definition norm (a : vec3 F) : F := fsqrt (dot a a).

Definition dihedral (xm xo xp xn : vec3 F) : F :=
  let u := sub xm xo in
  let v := sub xn xp in
  let w := sub xp xo in
  fatan2 (dot u (cross v w) * norm w) (dot (cross v w) (cross u w)).

End Formula.

End Textbook.

(* ================================================================= *)
(** ** Frames in binary64 *)

Module Frames64.

Import Binary64.

(** A chain of four atoms whose last bond leans over the middle one. *)
Definition leaning4 : ndarray2 float :=
  NdArray2 3 [[1; 0; 0]; [0; 0; 0]; [0; 0; 1]; [0; 3; 5]]%float.

(** Three atoms in general position. *)
Definition scalene3 : ndarray2 float :=
  NdArray2 3 [[1; 2; 3]; [0; 0; 0]; [4; -1; 2]]%float.

(** A planar chain of four atoms, the two ends on opposite sides of the
    middle bond (trans). *)
Definition trans4 : ndarray2 float :=
  NdArray2 3 [[-1; -1; 0]; [0; 0; 0]; [1; 0; 0]; [2; 1; 0]]%float.

(** Three atoms on a line, the vertex in the middle. *)
Definition collinear3 : ndarray2 float :=
  NdArray2 3 [[1; 1; 1]; [0; 0; 0]; [-1; -1; -1]]%float.

(** An angle with an arm whose squared length overflows, and a fourth
    atom that the angle does not use. *)
Definition overflow4 : ndarray2 float :=
  NdArray2 3 [[0x1p700; 0; 0]; [0; 0; 0]; [0; 1; 0]; [0; 0; 7]]%float.

(** All three coordinates are finite doubles. *)
Definition finite3 (v : vec3 float) : Prop :=
  PrimFloat.is_finite (c0 v) = true /\
  PrimFloat.is_finite (c1 v) = true /\
  PrimFloat.is_finite (c2 v) = true.

End Frames64.


(* ================================================================= *)
(** ** Notions used in the statements *)

(** A slice [hessian[f]] over [n] atoms: [n] rows of [n] blocks. *)
Definition square {F : Type} (n : nat) (H : hslab F) : Prop :=
  length H = n /\ forall a, a < n -> length (nth a H []) = n.


(** The value of a dihedral over the reals, from the four positions
    and on the kernel of the source: atan2(dot3(u, cross3(v, w)) * |w|,
    dot3(cross3(v, w), cross3(u, w))) with u = xm - xo, v = xn - xp,
    w = xp - xo.  ([Textbook.dihedral] is the formula of the
    specification.) *)
Definition spec_dihedral_value (xm xo xp xn : vec3 R) : R :=
  let u := vsub xm xo in
  let v := vsub xn xp in
  let w := vsub xp xo in
  atan2 (dot3 u (cross3 v w) * norm3 w)%R
        (dot3 (cross3 v w) (cross3 u w)).

(** An atom that no entry of the row designates. *)
Definition unreferenced (fam : family) (n_atoms : nat) (row : list Z)
           (a : nat) : Prop :=
  forall c, c < arity fam -> atom_of n_atoms (nth c row 0%Z) <> Ok a.

(** Rows of the Jacobian that sum to the zero vector. *)
Definition balanced (rows : list (vec3 R)) : Prop :=
  fold_left vadd rows vzero = vzero.

(** The unit vector along [w]. *)
Definition unit (w : vec3 R) : vec3 R := vdivs w (norm3 w).

(** The cosine the source hands to [acos]. *)
Definition cosine (u v : vec3 R) : R :=
  (dot3 u v / (norm3 u * norm3 v))%R.

(** The test of the source: the two unit vectors are parallel or
    anti-parallel up to [1e-10]. *)
Definition degenerate (u v : vec3 R) : Prop :=
  (norm3 (vadd (unit u) (unit v)) < 1e-10)%R \/
  (norm3 (vsub (unit u) (unit v)) < 1e-10)%R.

(** The two bond vectors of an angle with vertex [ao]. *)
Definition bond_u (xyz : ndarray2 R) (am ao : nat) : vec3 R :=
  vsub (xyz_row xyz am) (xyz_row xyz ao).

(** A row of [iangles] that designates three atoms, the vertex apart
    from the two others. *)
Definition angle_defined (xyz : ndarray2 R) (row : list Z) : Prop :=
  exists am ao an,
    atom_of (shape0 xyz) (nth 0 row 0%Z) = Ok am /\
    atom_of (shape0 xyz) (nth 1 row 0%Z) = Ok ao /\
    atom_of (shape0 xyz) (nth 2 row 0%Z) = Ok an /\
    norm3 (bond_u xyz am ao) <> 0%R /\
    norm3 (bond_u xyz an ao) <> 0%R.

(** Such a row whose angle is not degenerate. *)
Definition angle_regular (xyz : ndarray2 R) (row : list Z) : Prop :=
  exists am ao an,
    atom_of (shape0 xyz) (nth 0 row 0%Z) = Ok am /\
    atom_of (shape0 xyz) (nth 1 row 0%Z) = Ok ao /\
    atom_of (shape0 xyz) (nth 2 row 0%Z) = Ok an /\
    norm3 (bond_u xyz am ao) <> 0%R /\
    norm3 (bond_u xyz an ao) <> 0%R /\
    ~ degenerate (bond_u xyz am ao) (bond_u xyz an ao).

(** Every entry of the first [arity] columns of [row] designates an
    atom. *)
Definition resolvable (arity n_atoms : nat) (row : list Z) : Prop :=
  forall c, (c < arity)%nat -> exists a, atom_of n_atoms (nth c row 0%Z) = Ok a.

(** The index an atom position carries in the list of a double loop. *)
Fixpoint raw_at (atoms : list (Z * nat)) (a : nat) : option Z :=
  match atoms with
  | [] => None
  | (z, x) :: rest => if (a =? x)%nat then Some z else raw_at rest a
  end.

(** What the four conditional [+=] of [bond_angles] add to one block. *)
Definition angle_sum (m o n : Z) (t1 t2 t3 t4 : mat3 R) (a b : Z)
           (M : mat3 R) : mat3 R :=
  let M := if negb (sign6 a m o b m o =? 0)%Z
           then madd M (smulm (IZR (sign6 a m o b m o)) t1) else M in
  let M := if negb (sign6 a n o b n o =? 0)%Z
           then madd M (smulm (IZR (sign6 a n o b n o)) t2) else M in
  let M := if negb (sign6 a m o b n o =? 0)%Z
           then madd M (smulm (IZR (sign6 a m o b n o)) t3) else M in
  let M := if negb (sign6 a n o b m o =? 0)%Z
           then madd M (smulm (IZR (sign6 a n o b m o)) t4) else M in
  M.

(** [np.vstack((a, b))] of two index arrays with the same number of
    columns. *)
Definition stack {T} (a b : ndarray2 T) : ndarray2 T :=
  NdArray2 (shape1 a) (rows a ++ rows b).

(** The outputs of two calls of the same order, one after the other
    along the first axis. *)
Definition join {F} (out1 out2 : output F) : output F :=
  match out1, out2 with
  | Values v1, Values v2 => Values (v1 ++ v2)
  | WithJacobian v1 j1, WithJacobian v2 j2 =>
      WithJacobian (v1 ++ v2) (j1 ++ j2)
  | WithHessian v1 j1 h1, WithHessian v2 j2 h2 =>
      WithHessian (v1 ++ v2) (j1 ++ j2) (h1 ++ h2)
  | _, _ => out1
  end.


(** Two results that are both returned, or both the same exception. *)
Definition same_status {A B} (r : result A) (r' : result B) : Prop :=
  match r, r' with
  | Ok _, Ok _ => True
  | Raise e, Raise e' => e = e'
  | _, _ => False
  end.

(** A frame whose atoms are all moved by the same map of the space. *)
Definition move (g : vec3 R -> vec3 R) (xyz : ndarray2 R) : ndarray2 R :=
  NdArray2 (shape1 xyz)
    (map (fun r => let x := g (V3 (nth 0 r 0%R) (nth 1 r 0%R) (nth 2 r 0%R)) in
                   [c0 x; c1 x; c2 x])
         (rows xyz)).

(** The frame [xyz + t]: every atom moved by the same vector. *)
Definition translate (t : vec3 R) : ndarray2 R -> ndarray2 R :=
  move (fun x => vadd x t).

(** The product of a 3x3 matrix and a vector, and the frame
    [xyz @ Q.T]: every position [x] replaced by [Q x]. *)
Definition mvmul (Q : mat3 R) (x : vec3 R) : vec3 R :=
  V3 (dot3 (c0 Q) x) (dot3 (c1 Q) x) (dot3 (c2 Q) x).

Definition transform (Q : mat3 R) : ndarray2 R -> ndarray2 R :=
  move (mvmul Q).

(** [Q] is orthogonal: its columns are unit vectors at right angles. *)
Definition column (Q : mat3 R) (j : axis) : vec3 R :=
  V3 (mget Q X0 j) (mget Q X1 j) (mget Q X2 j).

Definition orthogonal (Q : mat3 R) : Prop :=
  dot3 (column Q X0) (column Q X0) = 1%R /\
  dot3 (column Q X1) (column Q X1) = 1%R /\
  dot3 (column Q X2) (column Q X2) = 1%R /\
  dot3 (column Q X0) (column Q X1) = 0%R /\
  dot3 (column Q X0) (column Q X2) = 0%R /\
  dot3 (column Q X1) (column Q X2) = 0%R.

(** The determinant of [Q]: 1 for a rotation, -1 for a mirror image. *)
Definition det3 (Q : mat3 R) : R := dot3 (c0 Q) (cross3 (c1 Q) (c2 Q)).

(** The frame [s * xyz]. *)
Definition scale (s : R) : ndarray2 R -> ndarray2 R := move (smulv s).

(** A C-contiguous index array that holds every tuple of [idx] read
    backwards, as [np.ascontiguousarray(idx[:, ::-1])] builds it.  (The
    view [idx[:, ::-1]] has a negative stride: the evaluators declare
    their index array [mode='c'] and refuse it with a [ValueError]
    before their body runs.) *)
Definition backwards (idx : ndarray2 Z) : ndarray2 Z :=
  NdArray2 (shape1 idx)
    (map (fun row => map (fun c => nth (shape1 idx - 1 - c) row 0%Z)
                         (seq 0 (shape1 idx)))
         (rows idx)).

(** What a call of order 0 returns, with [g] applied to every value. *)
Definition with_values (g : R -> R) (r : result (output R))
  : result (output R) :=
  match r with
  | Ok out => Ok (Values (map g (values_of out)))
  | Raise e => Raise e
  end.

(** The opposite angle in (-PI, PI]. *)
Definition opposite (v : R) : R :=
  if Req_dec_T v PI then PI else (- v)%R.

(** What a loop body of order 0 answers when its value is then changed
    by [g]. *)
Definition body_with (g : R -> R) (r : result (R * jslab R * hslab R))
           (J : jslab R) (H : hslab R) : result (R * jslab R * hslab R) :=
  match r with
  | Ok (v, _, _) => Ok (g v, J, H)
  | Raise e => Raise e
  end.

(** Two orthogonal matrices: a quarter turn about the third axis, and
    the mirror image through the plane of the first two. *)
Module Motions.

Local Open Scope R_scope.

Definition quarter_turn : mat3 R :=
  V3 (V3 0 (-1) 0) (V3 1 0 0) (V3 0 0 1).

Definition mirror : mat3 R :=
  V3 (V3 1 0 0) (V3 0 1 0) (V3 0 0 (-1)).

End Motions.

Module Chains.

Local Open Scope R_scope.

(** A chain of four atoms, [m = 0], [o = 1], [p = 2], [n = 3], whose
    last bond leans over the middle one: [v . w = 4]. *)
Definition leaning4 : ndarray2 R :=
  NdArray2 3 [[1; 0; 0]; [0; 0; 0]; [0; 0; 1]; [0; 3; 5]].

End Chains.

(** The unit vector along an axis, and the frame [xyz] after
    [xyz[a, i] += t]. *)
Definition axis_unit (i : axis) : vec3 R :=
  match i with
  | X0 => V3 1 0 0
  | X1 => V3 0 1 0
  | X2 => V3 0 0 1
  end%R.

Definition nudge (a : nat) (i : axis) (t : R) (xyz : ndarray2 R)
  : ndarray2 R :=
  let x := vadd (xyz_row xyz a) (smulv t (axis_unit i)) in
  NdArray2 (shape1 xyz) (upd a [c0 x; c1 x; c2 x] (rows xyz)).

(** The value that a call of order 0 on the one tuple [row] returns on
    the frame [xyz], and the entry [jacobian[0, a, i]] that a call of
    order 1 on it returns (0 when the call raises). *)
Definition value_alone (fam : family) (xyz : ndarray2 R) (row : list Z) : R :=
  match evaluate fam xyz (NdArray2 (arity fam) [row]) 0 with
  | Ok out => nth 0 (values_of out) 0%R
  | Raise _ => 0%R
  end.

Definition jacobian_alone (fam : family) (xyz : ndarray2 R) (row : list Z)
           (a : nat) (i : axis) : R :=
  match evaluate fam xyz (NdArray2 (arity fam) [row]) 1 with
  | Ok (WithJacobian _ j) => vget (jacobian_row j 0 a) i
  | _ => 0%R
  end.

(** What [xyz[a, i] += t] adds, per unit of [t], to the vector from
    atom [y] to atom [x]. *)
Definition pull (a x y : nat) (i : axis) : vec3 R :=
  vsub (if (x =? a)%nat then axis_unit i else vzero)
       (if (y =? a)%nat then axis_unit i else vzero).

(** A path in space that has the derivative [P'] at 0, coordinate by
    coordinate. *)
Definition vderiv (P : R -> vec3 R) (P' : vec3 R) : Prop :=
  forall i, derivable_pt_lim (fun t => vget (P t) i) 0 (vget P' i).

(* ================================================================= *)
(** * Properties *)

Unset Implicit Arguments.

(** ** Extensionality and narrowing to a C int *)

Lemma vec3_ext {A} (v w : vec3 A) :
  (forall i, vget v i = vget w i) -> v = w.
Proof.
  intros H. destruct v, w.
  pose proof (H X0); pose proof (H X1); pose proof (H X2).
  simpl in *. congruence.
Qed.

Lemma mat3_ext {A} (M N : mat3 A) :
  (forall i j, mget M i j = mget N i j) -> M = N.
Proof.
  intros H. apply vec3_ext. intros i. apply vec3_ext. intros j. apply H.
Qed.

Lemma wrap_small z : (- 2 ^ 31 <= z < 2 ^ 31)%Z -> CInt.wrap z = z.
Proof.
  intros Hz. unfold CInt.wrap.
  rewrite Z.mod_small by lia. lia.
Qed.

(** ** Indexing and updates *)

Lemma length_upd {A} (i : nat) (x : A) (l : list A) :
  length (upd i x l) = length l.
Proof.
  revert i. induction l as [|h t IH]; intros [|i]; simpl; auto.
Qed.

Lemma nth_upd_same {A} (i : nat) (x d : A) (l : list A) :
  i < length l -> nth i (upd i x l) d = x.
Proof.
  revert i. induction l as [|h t IH]; intros [|i] Hi; simpl in *;
    try lia; auto.
  apply IH. lia.
Qed.

Lemma nth_upd_other {A} (i j : nat) (x d : A) (l : list A) :
  i <> j -> nth j (upd i x l) d = nth j l d.
Proof.
  revert i j. induction l as [|h t IH]; intros [|i] [|j] Hij; simpl;
    try congruence; auto.
Qed.

Lemma nth_upd {A} (i j : nat) (x d : A) (l : list A) :
  nth j (upd i x l) d =
  if (j =? i)%nat && (i <? length l)%nat then x else nth j l d.
Proof.
  destruct (Nat.eqb_spec j i) as [->|Hne]; simpl.
  - destruct (Nat.ltb_spec i (length l)) as [Hlt|Hge].
    + now apply nth_upd_same.
    + rewrite !nth_overflow; auto. now rewrite length_upd.
  - apply nth_upd_other. congruence.
Qed.

Lemma nth_repeat_any {A} (x : A) (n k : nat) : nth k (repeat x n) x = x.
Proof.
  revert k. induction n as [|n IH]; intros [|k]; simpl; auto.
Qed.

(** Case analysis on the test of the first conditional of the goal. *)
Ltac case_if :=
  match goal with
  | |- context [if ?c then _ else _] => destruct c eqn:?
  end.

Ltac bool_to_Z :=
  repeat match goal with
  | H : (_ && _)%bool = true |- _ => apply andb_true_iff in H as [? ?]
  | H : (_ && _)%bool = false |- _ => apply andb_false_iff in H
  | H : (_ <=? _)%Z = true |- _ => apply Z.leb_le in H
  | H : (_ <=? _)%Z = false |- _ => apply Z.leb_gt in H
  | H : (_ <? _)%Z = true |- _ => apply Z.ltb_lt in H
  | H : (_ <? _)%Z = false |- _ => apply Z.ltb_ge in H
  | H : (_ =? _)%Z = true |- _ => apply Z.eqb_eq in H
  | H : (_ =? _)%Z = false |- _ => apply Z.eqb_neq in H
  end.

Lemma py_index_lt (n : nat) (k : Z) (a : nat) :
  py_index n k = Ok a -> a < n.
Proof.
  unfold py_index. repeat case_if; intros E; inversion E; subst;
    bool_to_Z; lia.
Qed.

Lemma py_index_in_range (n : nat) (k : Z) :
  (0 <= k < Z.of_nat n)%Z -> py_index n k = Ok (Z.to_nat k).
Proof.
  intros Hk. unfold py_index. repeat case_if; auto; bool_to_Z; lia.
Qed.



Lemma py_index_error (n : nat) (k : Z) (e : exn) :
  py_index n k = Raise e -> e = IndexError.
Proof.
  unfold py_index. repeat case_if; congruence.
Qed.

(** An index in range of a frame that a C int can count designates
    itself. *)
Lemma atom_of_in_range (n : nat) (z : Z) :
  (Z.of_nat n <= 2 ^ 31)%Z -> (0 <= z < Z.of_nat n)%Z ->
  atom_of n z = Ok (Z.to_nat z).
Proof.
  intros Hn Hz. unfold atom_of.
  rewrite wrap_small by lia. now apply py_index_in_range.
Qed.

(* ================================================================= *)
(** ** The loop over the features *)

Section Loop.

Context {F : Type} {AF : Arith F}.

Variable feat : feature F.

Lemma step_inv i row st st' :
  step feat i row st = Ok st' ->
  exists v J H,
    feat row (nth i (jac st) []) (nth i (hess st) []) = Ok (v, J, H) /\
    vals st' = upd i v (vals st) /\
    jac st' = upd i J (jac st) /\
    hess st' = upd i H (hess st).
Proof.
  unfold step, bind.
  destruct (feat row _ _) as [[[v J] H]|e]; [|discriminate].
  intros [= <-]. exists v, J, H. simpl. auto.
Qed.

(** The pass for row [i] leaves the other slices alone, and what it
    leaves in slice [i] comes from that row and from what the slice
    held when the loop started. *)
Lemma for_features_inv rws : forall i st st',
  for_features feat i rws st = Ok st' ->
  (length (vals st') = length (vals st) /\
   length (jac st') = length (jac st) /\
   length (hess st') = length (hess st)) /\
  (forall k, k < i ->
     nth k (vals st') (of_int 0) = nth k (vals st) (of_int 0) /\
     nth k (jac st') [] = nth k (jac st) [] /\
     nth k (hess st') [] = nth k (hess st) []) /\
  (forall f row, nth_error rws f = Some row ->
     exists v J H,
       feat row (nth (i + f) (jac st) []) (nth (i + f) (hess st) [])
       = Ok (v, J, H) /\
       (i + f < length (vals st) ->
        nth (i + f) (vals st') (of_int 0) = v) /\
       (i + f < length (jac st) -> nth (i + f) (jac st') [] = J) /\
       (i + f < length (hess st) -> nth (i + f) (hess st') [] = H)).
Proof.
  induction rws as [|row rest IH]; intros i st st' Hrun; simpl in Hrun.
  - injection Hrun as <-. repeat split; auto.
    intros [|f] r; discriminate.
  - unfold bind in Hrun.
    destruct (step feat i row st) as [st1|e] eqn:Hstep; [|discriminate].
    apply step_inv in Hstep as (v & J & H & Hfeat & Hv & Hj & Hh).
    apply IH in Hrun as ((Lv & Lj & Lh) & Hbefore & Hat).
    rewrite Hv, Hj, Hh in *. rewrite !length_upd in *.
    split; [auto|]. split.
    + intros k Hk. destruct (Hbefore k ltac:(lia)) as (E1 & E2 & E3).
      rewrite E1, E2, E3.
      rewrite !nth_upd_other by lia. auto.
    + intros [|f] r Hr; simpl in Hr.
      * injection Hr as <-. rewrite Nat.add_0_r.
        exists v, J, H. split; [exact Hfeat|].
        destruct (Hbefore i ltac:(lia)) as (E1 & E2 & E3).
        rewrite E1, E2, E3.
        repeat split; intros; now apply nth_upd_same.
      * destruct (Hat f r Hr) as (v' & J' & H' & Hf & P1 & P2 & P3).
        rewrite !nth_upd_other in Hf by lia.
        replace (i + S f) with (S i + f) by lia.
        exists v', J', H'. repeat split; auto.
Qed.



(** When no body raises, neither does the loop. *)
Lemma for_features_ok rws :
  (forall row, In row rws -> forall J H, is_ok (feat row J H) = true) ->
  forall i st, is_ok (for_features feat i rws st) = true.
Proof.
  induction rws as [|r rest IH]; intros Hall i st; simpl; auto.
  unfold bind at 1, step, bind.
  pose proof (Hall r (or_introl eq_refl)
                (nth i (jac st) []) (nth i (hess st) [])) as Hr.
  destruct (feat r _ _) as [[[v J] H]|e]; [|discriminate].
  apply IH. intros row Hin. apply Hall. now right.
Qed.

End Loop.

(* ================================================================= *)
(** ** The shape of a call *)

Section Calls.

Context {F : Type} {AF : Arith F} {LF : Libm F}.

Lemma evaluate_unfold fam (xyz : ndarray2 F) idx deriv :
  evaluate fam xyz idx deriv =
  (_ <- check_args (columns_message fam) (arity fam) xyz idx deriv ;;
   st <- for_features (feature_of fam xyz deriv) 0 (rows idx)
           (allocate (shape0 idx) (shape0 xyz) deriv) ;;
   Ok (returned deriv st)).
Proof. destruct fam; reflexivity. Qed.

Lemma check_args_ok {T} msg n (xyz : ndarray2 F) (idx : ndarray2 T) deriv :
  check_args msg n xyz idx deriv = Ok tt <->
  shape1 xyz = 3 /\ shape1 idx = n /\
  (deriv = 0 \/ deriv = 1 \/ deriv = 2)%Z.
Proof.
  unfold check_args.
  destruct (Nat.eqb_spec (shape1 xyz) 3) as [E1|E1]; simpl;
    [|split; [discriminate|tauto]].
  destruct (Nat.eqb_spec (shape1 idx) n) as [E2|E2]; simpl;
    [|split; [discriminate|tauto]].
  destruct (Z.eqb_spec deriv 0); simpl; [tauto|].
  destruct (Z.eqb_spec deriv 1); simpl; [tauto|].
  destruct (Z.eqb_spec deriv 2); simpl; [tauto|].
  split; [discriminate|]. intros (_ & _ & [?|[?|?]]); contradiction.
Qed.

Lemma check_args_unit {T} msg n (xyz : ndarray2 F) (idx : ndarray2 T)
      deriv u :
  check_args msg n xyz idx deriv = Ok u ->
  check_args msg n xyz idx deriv = Ok tt.
Proof. now destruct u. Qed.

Lemma evaluate_inv fam (xyz : ndarray2 F) idx deriv out :
  evaluate fam xyz idx deriv = Ok out ->
  (shape1 xyz = 3 /\ shape1 idx = arity fam /\
   (deriv = 0 \/ deriv = 1 \/ deriv = 2)%Z) /\
  exists st,
    for_features (feature_of fam xyz deriv) 0 (rows idx)
      (allocate (shape0 idx) (shape0 xyz) deriv) = Ok st /\
    out = returned deriv st.
Proof.
  rewrite evaluate_unfold. unfold bind.
  destruct (check_args _ _ _ _ _) as [u|e] eqn:Hc; [|discriminate].
  apply check_args_unit, check_args_ok in Hc.
  destruct (for_features _ _ _ _) as [st|e]; [|discriminate].
  intros [= <-]. split; [exact Hc|]. now exists st.
Qed.

Lemma nth_repeat_lt {A} (x d : A) (n k : nat) :
  k < n -> nth k (repeat x n) d = x.
Proof.
  revert k. induction n as [|n IH]; intros [|k] Hk; simpl; try lia; auto.
  apply IH. lia.
Qed.

Lemma allocate_slabs n_feat n_atoms deriv f :
  f < n_feat ->
  nth f (jac (allocate n_feat n_atoms deriv)) [] = zero_jslab n_atoms deriv /\
  nth f (hess (allocate n_feat n_atoms deriv)) [] = zero_hslab n_atoms deriv.
Proof.
  intros Hf. unfold allocate, zero_jslab, zero_hslab; simpl.
  split; case_if; try now apply nth_repeat_lt.
  all: now destruct f.
Qed.

Lemma allocate_lengths n_feat n_atoms deriv :
  length (vals (allocate n_feat n_atoms deriv)) = n_feat /\
  ((1 <=? deriv)%Z = true ->
   length (jac (allocate n_feat n_atoms deriv)) = n_feat) /\
  ((deriv =? 2)%Z = true ->
   length (hess (allocate n_feat n_atoms deriv)) = n_feat).
Proof.
  unfold allocate; simpl. repeat split.
  - apply repeat_length.
  - intros ->. apply repeat_length.
  - intros ->. apply repeat_length.
Qed.

(** What a successful call holds for feature [f]: the result of the
    loop body on row [f], started from zeros. *)
Lemma evaluate_feature fam (xyz : ndarray2 F) idx deriv out f row :
  evaluate fam xyz idx deriv = Ok out ->
  nth_error (rows idx) f = Some row ->
  exists v J H,
    feature_of fam xyz deriv row
      (zero_jslab (shape0 xyz) deriv) (zero_hslab (shape0 xyz) deriv)
    = Ok (v, J, H) /\
    nth f (values_of out) (of_int 0) = v /\
    (forall j, jacobian_of out = Some j -> nth f j [] = J) /\
    (forall h, hessian_of out = Some h -> nth f h [] = H).
Proof.
  intros Hcall Hrow.
  apply evaluate_inv in Hcall as ((_ & _ & Hd) & st & Hrun & ->).
  assert (Hf : f < shape0 idx).
  { apply nth_error_Some. unfold shape0. congruence. }
  apply for_features_inv in Hrun as (_ & _ & Hat).
  destruct (Hat f row Hrow) as (v & J & H & Hfeat & Hv & Hj & Hh).
  change (0 + f) with f in *.
  destruct (@allocate_slabs (shape0 idx) (shape0 xyz) deriv f Hf) as [E1 E2].
  rewrite E1, E2 in Hfeat.
  destruct (@allocate_lengths (shape0 idx) (shape0 xyz) deriv)
    as (Lv & Lj & Lh).
  exists v, J, H. split; [exact Hfeat|].
  split; [|split].
  - rewrite Lv in Hv.
    destruct Hd as [-> | [-> | ->]]; simpl; auto.
  - intros j. destruct Hd as [-> | [-> | ->]]; simpl;
      intros [= <-]; apply Hj; rewrite Lj; auto.
  - intros h. destruct Hd as [-> | [-> | ->]]; simpl;
      intros [= <-]; apply Hh; rewrite Lh; auto.
Qed.

Lemma values_of_returned deriv (st : tensors F) :
  values_of (returned deriv st) = vals st.
Proof. unfold returned. repeat case_if; reflexivity. Qed.

End Calls.

(* ================================================================= *)
(** ** Slices of the Jacobian and of the Hessian *)

Section Slabs.

Context {F : Type} {AF : Arith F}.

Lemma jget_zeros n a : jget (repeat vzero n) a = (vzero : vec3 F).
Proof. apply nth_repeat_any. Qed.

Lemma jget_upd (J : jslab F) x v a :
  jget (upd x v J) a =
  if (a =? x)%nat && (x <? length J)%nat then v else jget J a.
Proof. apply nth_upd. Qed.

Lemma jget_upd_other (J : jslab F) x v a :
  a <> x -> jget (upd x v J) a = jget J a.
Proof. intros Hne. apply nth_upd_other. congruence. Qed.

Lemma hget_zeros n a b :
  hget (repeat (repeat mzero n) n) a b = (mzero : mat3 F).
Proof.
  unfold hget.
  destruct (Nat.lt_ge_cases a n) as [Ha|Ha].
  - rewrite nth_repeat_lt by exact Ha. apply nth_repeat_any.
  - rewrite (nth_overflow (repeat (repeat mzero n) n))
      by now rewrite repeat_length.
    now destruct b.
Qed.

Lemma square_zeros n : square n (repeat (repeat (mzero : mat3 F) n) n).
Proof.
  split; [apply repeat_length|].
  intros a Ha. rewrite nth_repeat_lt by exact Ha. apply repeat_length.
Qed.

Lemma hget_hset_other (H : hslab F) x y M a b :
  a <> x \/ b <> y -> hget (hset x y M H) a b = hget H a b.
Proof.
  intros Hne. unfold hget, hset.
  destruct (Nat.eq_dec a x) as [->|Hax].
  - destruct Hne as [Hne|Hne]; [congruence|].
    rewrite nth_upd. case_if; [|reflexivity].
    apply nth_upd_other. congruence.
  - rewrite nth_upd_other by congruence. reflexivity.
Qed.

Lemma hget_hset_same n (H : hslab F) x y M :
  square n H -> x < n -> y < n -> hget (hset x y M H) x y = M.
Proof.
  intros [HL HR] Hx Hy. unfold hget, hset.
  rewrite nth_upd_same by lia.
  apply nth_upd_same. rewrite HR by exact Hx. exact Hy.
Qed.

Lemma square_hset n (H : hslab F) x y M :
  square n H -> square n (hset x y M H).
Proof.
  intros [HL HR]. unfold hset. split.
  - now rewrite length_upd.
  - intros a Ha. rewrite nth_upd. case_if.
    + rewrite length_upd. apply andb_true_iff in Heqb as [Hax _].
      apply Nat.eqb_eq in Hax. subst. now apply HR.
    + now apply HR.
Qed.

Lemma hget_hset n (H : hslab F) x y M a b :
  square n H -> x < n -> y < n ->
  hget (hset x y M H) a b =
  if (a =? x)%nat && (b =? y)%nat then M else hget H a b.
Proof.
  intros Hsq Hx Hy.
  destruct (Nat.eqb_spec a x) as [->|Hax]; simpl.
  - destruct (Nat.eqb_spec b y) as [->|Hby].
    + eapply hget_hset_same; eauto.
    + apply hget_hset_other. now right.
  - apply hget_hset_other. now left.
Qed.

Lemma hget_hadd_other (H : hslab F) x y M a b :
  a <> x \/ b <> y -> hget (hadd x y M H) a b = hget H a b.
Proof. apply hget_hset_other. Qed.

Lemma square_hadd n (H : hslab F) x y M :
  square n H -> square n (hadd x y M H).
Proof. apply square_hset. Qed.

Lemma hget_hadd n (H : hslab F) x y M a b :
  square n H -> x < n -> y < n ->
  hget (hadd x y M H) a b =
  if (a =? x)%nat && (b =? y)%nat then madd (hget H a b) M else hget H a b.
Proof.
  intros Hsq Hx Hy. unfold hadd.
  rewrite (hget_hset n H x y _ a b Hsq Hx Hy).
  case_if; [|reflexivity].
  apply andb_true_iff in Heqb0 as [Ea Eb].
  apply Nat.eqb_eq in Ea, Eb. now subst.
Qed.

Lemma square_scaled_outer c (J : jslab F) :
  square (length J) (scaled_outer c J).
Proof.
  unfold scaled_outer. split; [apply length_map|].
  intros a Ha.
  rewrite nth_indep with (d' := map (fun jb => smulm c (outer3 vzero jb)) J)
    by now rewrite length_map.
  rewrite (map_nth (fun ja => map (fun jb => smulm c (outer3 ja jb)) J)).
  apply length_map.
Qed.

Lemma hget_scaled_outer c (J : jslab F) a b :
  a < length J -> b < length J ->
  hget (scaled_outer c J) a b = smulm c (outer3 (jget J a) (jget J b)).
Proof.
  intros Ha Hb. unfold hget, scaled_outer, jget.
  rewrite nth_indep with (d' := map (fun jb => smulm c (outer3 vzero jb)) J)
    by now rewrite length_map.
  rewrite (map_nth (fun ja => map (fun jb => smulm c (outer3 ja jb)) J)).
  rewrite nth_indep with (d' := smulm c (outer3 (nth a J vzero) vzero))
    by now rewrite length_map.
  now rewrite (map_nth (fun jb => smulm c (outer3 (nth a J vzero) jb))).
Qed.

Lemma hget_scaled_outer_out c (J : jslab F) a b :
  length J <= a \/ length J <= b -> hget (scaled_outer c J) a b = mzero.
Proof.
  intros Hout. unfold hget, scaled_outer.
  destruct (Nat.lt_ge_cases a (length J)) as [Ha|Ha].
  - destruct Hout as [Hout|Hout]; [lia|].
    apply nth_overflow.
    rewrite nth_indep with (d' := map (fun jb => smulm c (outer3 vzero jb)) J)
      by now rewrite length_map.
    rewrite (map_nth (fun ja => map (fun jb => smulm c (outer3 ja jb)) J)).
    now rewrite length_map.
  - rewrite (nth_overflow (map _ J)) by now rewrite length_map.
    now destruct b.
Qed.

End Slabs.

(* ================================================================= *)
(** ** The double loop over the atoms of a feature *)

Lemma raw_at_none atoms a : ~ In a (map snd atoms) -> raw_at atoms a = None.
Proof.
  induction atoms as [|[z x] rest IH]; simpl; intros Hnot; auto.
  destruct (Nat.eqb_spec a x) as [->|Hne]; [tauto|].
  apply IH. tauto.
Qed.

Section DoubleLoop.

Context {F : Type} {AF : Arith F}.

Local Open Scope nat_scope.

Variable n : nat.
Variable body : Z * nat -> Z * nat -> hslab F -> hslab F.
Variable g : Z -> Z -> mat3 F -> mat3 F.

Hypothesis body_square : forall p q H, square n H -> square n (body p q H).

Hypothesis body_get : forall za x zb y H a b,
  square n H -> x < n -> y < n ->
  hget (body (za, x) (zb, y) H) a b
  = if (a =? x)%nat && (b =? y)%nat then g za zb (hget H a b)
    else hget H a b.

Lemma inner_loop_get p : forall bs H a b,
  square n H -> snd p < n ->
  Forall (fun q => snd q < n) bs -> NoDup (map snd bs) ->
  square n (fold_left (fun s q => body p q s) bs H) /\
  hget (fold_left (fun s q => body p q s) bs H) a b
  = if (a =? snd p)%nat
    then match raw_at bs b with
         | Some zb => g (fst p) zb (hget H a b)
         | None => hget H a b
         end
    else hget H a b.
Proof.
  destruct p as [za x]. simpl snd. simpl fst.
  induction bs as [|[zq y] bs IH]; intros H a b Hsq Hx Hall Hnd; simpl.
  - split; [exact Hsq|]. now destruct (a =? x)%nat.
  - inversion Hall as [|? ? Hy Hall']; subst. simpl in Hy.
    inversion Hnd as [|? ? Hnotin Hnd']; subst.
    destruct (IH (body (za, x) (zq, y) H) a b
                (body_square _ _ _ Hsq) Hx Hall' Hnd') as [Hsq' Hget].
    split; [exact Hsq'|]. rewrite Hget.
    rewrite (body_get za x zq y H a b Hsq Hx Hy).
    destruct (Nat.eqb_spec a x) as [->|Hax]; simpl; [|reflexivity].
    destruct (Nat.eqb_spec b y) as [->|Hby]; [|reflexivity].
    now rewrite (raw_at_none bs y Hnotin).
Qed.

Lemma outer_loop_get atoms : forall ps H a b,
  square n H ->
  Forall (fun q => snd q < n) atoms -> NoDup (map snd atoms) ->
  Forall (fun q => snd q < n) ps -> NoDup (map snd ps) ->
  square n (fold_left
              (fun s p => fold_left (fun s q => body p q s) atoms s) ps H) /\
  hget (fold_left
          (fun s p => fold_left (fun s q => body p q s) atoms s) ps H) a b
  = match raw_at ps a, raw_at atoms b with
    | Some za, Some zb => g za zb (hget H a b)
    | _, _ => hget H a b
    end.
Proof.
  induction ps as [|[zp x] ps IH]; intros H a b Hsq Hall Hnd Hps Hndps;
    simpl.
  - split; [exact Hsq|reflexivity].
  - inversion Hps as [|? ? Hx Hps']; subst. simpl in Hx.
    inversion Hndps as [|? ? Hnotin Hndps']; subst.
    destruct (inner_loop_get (zp, x) atoms H a b Hsq Hx Hall Hnd)
      as [Hsq1 Hget1].
    destruct (IH _ a b Hsq1 Hall Hnd Hps' Hndps') as [Hsq2 Hget2].
    split; [exact Hsq2|]. rewrite Hget2, Hget1. simpl snd. simpl fst.
    destruct (Nat.eqb_spec a x) as [->|Hax].
    + now rewrite (raw_at_none ps x Hnotin).
    + reflexivity.
Qed.

(** After the double loop, the block at [(a, b)] is the block the loop
    started from, changed once by [g] when both [a] and [b] are atoms of
    the feature. *)
Lemma for_pairs_get atoms H a b :
  square n H ->
  Forall (fun q => snd q < n) atoms -> NoDup (map snd atoms) ->
  hget (for_pairs atoms body H) a b
  = match raw_at atoms a, raw_at atoms b with
    | Some za, Some zb => g za zb (hget H a b)
    | _, _ => hget H a b
    end.
Proof.
  intros Hsq Hall Hnd. unfold for_pairs.
  now apply outer_loop_get.
Qed.

End DoubleLoop.

(* ================================================================= *)
(** ** The combinatorial selector *)

(** C10: [sign6] is unchanged when its two index triples are exchanged,
    and [sign3 i j k] is 1 whenever [i = j] (also when [i = k]), -1 when
    [i = k] and [i <> j], and 0 otherwise. *)
Theorem sign6_exchange_sign3_cases (a b c i j k : Z) :
  sign6 a b c i j k = sign6 i j k a b c /\
  (i = j -> sign3 i j k = 1%Z) /\
  (i = k -> i <> j -> sign3 i j k = (- 1)%Z) /\
  (i <> j -> i <> k -> sign3 i j k = 0%Z).
Proof.
  unfold sign6. split; [apply Z.mul_comm|].
  unfold sign3.
  destruct (Z.eqb_spec i j), (Z.eqb_spec i k); repeat split;
    intros; congruence.
Qed.

(* ================================================================= *)
(** ** The value does not depend on the order *)

Section OrderConsistency.

Context {F : Type} {AF : Arith F} {LF : Libm F}.

(** Two loops whose bodies agree on the value write the same values. *)
Lemma for_features_vals (feat feat' : feature F) rws :
  (forall row J H J' H' r r',
      feat row J H = Ok r -> feat' row J' H' = Ok r' ->
      fst (fst r) = fst (fst r')) ->
  forall i st st' s s',
    vals st = vals st' ->
    for_features feat i rws st = Ok s ->
    for_features feat' i rws st' = Ok s' ->
    vals s = vals s'.
Proof.
  intros Hagree.
  induction rws as [|row rest IH]; intros i st st' s s' Hv; simpl.
  - intros [= <-] [= <-]. exact Hv.
  - intros Hs Hs'. unfold bind in Hs, Hs'.
    destruct (step feat i row st) as [st1|] eqn:H1; [|discriminate].
    destruct (step feat' i row st') as [st1'|] eqn:H2; [|discriminate].
    refine (IH _ _ _ _ _ _ Hs Hs').
    apply step_inv in H1 as (v & J & H & Hf & Ev & _).
    apply step_inv in H2 as (v' & J' & H' & Hf' & Ev' & _).
    rewrite Ev, Ev', Hv.
    pose proof (Hagree _ _ _ _ _ _ _ Hf Hf') as Hvv. simpl in Hvv.
    now rewrite Hvv.
Qed.

Ltac feature_cases :=
  repeat match goal with
  | H : bind ?r _ = Ok _ |- _ =>
      let E := fresh "E" in
      destruct r eqn:E; simpl in H; [|discriminate H]
  | H : (if ?c then _ else _) = Ok _ |- _ => destruct c eqn:?
  | H : Ok _ = Ok _ |- _ => injection H as <-
  | H : Raise _ = Ok _ |- _ => discriminate H
  end.

Lemma feature_value_any_order fam (xyz : ndarray2 F) d d' row J H J' H' r r' :
  feature_of fam xyz d row J H = Ok r ->
  feature_of fam xyz d' row J' H' = Ok r' ->
  fst (fst r) = fst (fst r').
Proof.
  destruct fam; simpl;
    unfold bond_feature, angle_feature, dihedral_feature;
    intros H1 H2; feature_cases; simpl; congruence.
Qed.

End OrderConsistency.

(* ================================================================= *)
(** ** Order consistency *)

(** C9: when a call at order 0 and a call at order 1 or 2 on the same
    frame and index list both succeed, they return the same values, for
    each of the three families and for whatever arithmetic the doubles
    obey: the value of a feature is computed by the same operations on
    the same operands at every order. *)
Theorem values_same_at_every_order {F} {AF : Arith F} {LF : Libm F} fam
        (xyz : ndarray2 F) idx (d : Z) out0 outd :
  evaluate fam xyz idx 0 = Ok out0 ->
  evaluate fam xyz idx d = Ok outd ->
  values_of out0 = values_of outd.
Proof.
  intros H0 Hd.
  apply evaluate_inv in H0 as (_ & st & Hrun & ->).
  apply evaluate_inv in Hd as (_ & st' & Hrun' & ->).
  rewrite !values_of_returned.
  eapply for_features_vals; [| |exact Hrun|exact Hrun'].
  - intros row J H J' H' r r'. apply feature_value_any_order.
  - reflexivity.
Qed.

Lemma values_same_at_every_order_witness :
  exists out0 out2,
    evaluate Dihedrals Frames.square4 Frames.dihedral_0123 0 = Ok out0 /\
    evaluate Dihedrals Frames.square4 Frames.dihedral_0123 2 = Ok out2 /\
    values_of out0 = values_of out2.
Proof.
  eexists. eexists. split; [reflexivity|]. split; [reflexivity|].
  apply (@values_same_at_every_order R _ _ Dihedrals
           Frames.square4 Frames.dihedral_0123 2); reflexivity.
Defined.

(* ================================================================= *)
(** ** Over the real numbers *)

(** Unfolds the operations on vectors and matrices down to the reals. *)
Ltac unfold_kernel :=
  cbv [mget vget mT madd msub mneg mmuls smulm mdivs mzero eye
       vadd vsub vneg vmuls smulv vdivs vzero vmap vmap2
       outer3 outer3_minus_eye sym_outer3 splay3 cross3 dot3
       c0 c1 c2
       fadd fsub fmul fdiv fneg of_int R_arith].


Lemma atom_of_lt n z a : atom_of n z = Ok a -> a < n.
Proof. apply py_index_lt. Qed.


Lemma bond_feature_inv (xyz : ndarray2 R) deriv zm zn am an J0 H0 v J H :
  atom_of (shape0 xyz) zm = Ok am ->
  atom_of (shape0 xyz) zn = Ok an ->
  bond_feature xyz deriv [zm; zn] J0 H0 = Ok (v, J, H) ->
  let norm := norm3 (vsub (xyz_row xyz am) (xyz_row xyz an)) in
  let u := vdivs (vsub (xyz_row xyz am) (xyz_row xyz an)) norm in
  let T := mdivs (outer3_minus_eye u u) norm in
  v = norm /\
  ((1 <=? deriv)%Z = true -> J = upd an (vneg u) (upd am u J0)) /\
  (deriv = 2%Z ->
   H = hset an an (mneg T) (hset an am T (hset am am (mneg T)
         (hset am an T H0)))).
Proof.
  intros Hm Hn. unfold bond_feature. simpl nth.
  unfold atom_of in Hm, Hn. rewrite Hm, Hn. unfold bind.
  intros [= <- <- <-]. repeat split; intros ->; reflexivity.
Qed.

Ltac solve_square :=
  repeat first [apply square_hset | apply square_hadd];
  first [apply square_zeros | apply square_scaled_outer | assumption].

Ltac nat_eqb :=
  repeat match goal with
  | |- context [(?x =? ?x)%nat] => rewrite (Nat.eqb_refl x)
  | H : ?x <> ?y |- context [(?x =? ?y)%nat] =>
      rewrite (proj2 (Nat.eqb_neq x y) H)
  | H : ?y <> ?x |- context [(?x =? ?y)%nat] =>
      rewrite (proj2 (Nat.eqb_neq x y) (not_eq_sym H))
  end; simpl andb; cbv iota.


Ltac real_eval :=
  cbv - [Rplus Rminus Rmult Rdiv Ropp Rinv R_sqrt.sqrt IZR acos cos sin atan PI
         RealArith.ltb RealArith.eqb RealArith.atan2 Rlt_dec Rle_dec Req_dec_T
         Rlt Rle Rgt Rge not].


(* ================================================================= *)
(** ** What a loop body leaves behind *)

(** Forgets how the vectors and scalars of a goal were computed, then
    proves an equation of 3x3 matrices entry by entry. *)
Ltac abstract_terms :=
  repeat match goal with
  | |- context [vdivs ?a ?b] => generalize (vdivs a b); intro
  | |- context [cross3 ?a ?b] => generalize (cross3 a b); intro
  | |- context [norm3 ?a] => generalize (norm3 a); intro
  | |- context [dot3 ?a ?b] => generalize (dot3 a b); intro
  | |- context [fcos ?a] => generalize (fcos a); intro
  | |- context [fsin ?a] => generalize (fsin a); intro
  | |- context [mdivs _ ?d] => is_var d; fail 1
  | |- context [mdivs _ ?d] => generalize d; intro
  end.

Ltac mat_ring :=
  repeat match goal with v : vec3 R |- _ => destruct v end;
  apply mat3_ext; intros [] []; unfold_kernel; unfold Rdiv; ring.

(** The body of [bond_angles]: the positions it resolves, the three
    rows it writes, and the slice of the Hessian it builds from four
    matrices, two symmetric and two transposes of one another. *)
Lemma angle_feature_shape (xyz : ndarray2 R) deriv row J0 H0 v J H :
  angle_feature xyz deriv row J0 H0 = Ok (v, J, H) ->
  exists am ao an,
    atom_of (shape0 xyz) (nth 0 row 0%Z) = Ok am /\
    atom_of (shape0 xyz) (nth 1 row 0%Z) = Ok ao /\
    atom_of (shape0 xyz) (nth 2 row 0%Z) = Ok an /\
    (((1 <=? deriv)%Z = false /\ J = J0) \/
     ((1 <=? deriv)%Z = true /\
      exists t0 t1,
        J = upd ao (vneg (vadd t0 t1)) (upd an t1 (upd am t0 J0)))) /\
    (((deriv =? 2)%Z = false /\ H = H0) \/
     ((deriv =? 2)%Z = true /\
      exists c t1 t2 t3 t4,
        mT t1 = t1 /\ mT t2 = t2 /\ mT t3 = t4 /\
        H = for_pairs
              [(CInt.wrap (nth 0 row 0%Z), am);
               (CInt.wrap (nth 2 row 0%Z), an);
               (CInt.wrap (nth 1 row 0%Z), ao)]
              (angle_block (CInt.wrap (nth 0 row 0%Z))
                 (CInt.wrap (nth 1 row 0%Z)) (CInt.wrap (nth 2 row 0%Z))
                 t1 t2 t3 t4)
              (scaled_outer c J))).
Proof.
  unfold angle_feature, atom_of.
  destruct (py_index _ (CInt.wrap (nth 0 row 0%Z))) as [am|] eqn:Em;
    [|discriminate].
  destruct (py_index _ (CInt.wrap (nth 1 row 0%Z))) as [ao|] eqn:Eo;
    [|discriminate].
  destruct (py_index _ (CInt.wrap (nth 2 row 0%Z))) as [an|] eqn:En;
    [|discriminate].
  cbv beta iota zeta delta [bind].
  destruct (cdiv _ _) as [q|]; [|discriminate].
  intros Hfeat. exists am, ao, an.
  split; [reflexivity|]. split; [reflexivity|]. split; [reflexivity|].
  destruct (1 <=? deriv)%Z eqn:E1.
  - destruct (_ || _)%bool; [discriminate|].
    destruct (deriv =? 2)%Z eqn:E2.
    + destruct (cdiv _ _) as [c|]; [|discriminate].
      injection Hfeat as <- <- <-. split.
      * right. split; [reflexivity|]. eexists. eexists. reflexivity.
      * right. split; [reflexivity|].
        do 5 eexists. refine (conj _ (conj _ (conj _ eq_refl)));
          abstract_terms; mat_ring.
    + injection Hfeat as <- <- <-. split.
      * right. split; [reflexivity|]. eexists. eexists. reflexivity.
      * left. auto.
  - destruct (deriv =? 2)%Z eqn:E2.
    + bool_to_Z. lia.
    + injection Hfeat as <- <- <-. split; left; auto.
Qed.

(** The body of [dihedral_angles]. *)
Lemma dihedral_feature_shape (xyz : ndarray2 R) deriv row J0 H0 v J H :
  dihedral_feature xyz deriv row J0 H0 = Ok (v, J, H) ->
  exists am ao ap an,
    atom_of (shape0 xyz) (nth 0 row 0%Z) = Ok am /\
    atom_of (shape0 xyz) (nth 1 row 0%Z) = Ok ao /\
    atom_of (shape0 xyz) (nth 2 row 0%Z) = Ok ap /\
    atom_of (shape0 xyz) (nth 3 row 0%Z) = Ok an /\
    v = spec_dihedral_value (xyz_row xyz am) (xyz_row xyz ao)
          (xyz_row xyz ap) (xyz_row xyz an) /\
    (((1 <=? deriv)%Z = false /\ J = J0) \/
     ((1 <=? deriv)%Z = true /\
      exists t1 t2 t3 t4,
        J = upd ap (vadd (vsub t2 t3) t4)
              (upd ao (vsub (vadd (vneg t1) t3) t4)
                 (upd an (vneg t2) (upd am t1 J0))))) /\
    (((deriv =? 2)%Z = false /\ H = H0) \/
     ((deriv =? 2)%Z = true /\
      exists ht1 ht2 ht3 ht4 ht5 ht6 ht7,
        H = for_pairs
              [(CInt.wrap (nth 0 row 0%Z), am);
               (CInt.wrap (nth 3 row 0%Z), an);
               (CInt.wrap (nth 1 row 0%Z), ao);
               (CInt.wrap (nth 2 row 0%Z), ap)]
              (dihedral_block (CInt.wrap (nth 0 row 0%Z))
                 (CInt.wrap (nth 1 row 0%Z)) (CInt.wrap (nth 2 row 0%Z))
                 (CInt.wrap (nth 3 row 0%Z))
                 ht1 ht2 ht3 ht4 ht5 ht6 ht7)
              H0)).
Proof.
  unfold dihedral_feature, atom_of.
  destruct (py_index _ (CInt.wrap (nth 0 row 0%Z))) as [am|] eqn:Em;
    [|discriminate].
  destruct (py_index _ (CInt.wrap (nth 1 row 0%Z))) as [ao|] eqn:Eo;
    [|discriminate].
  destruct (py_index _ (CInt.wrap (nth 3 row 0%Z))) as [an|] eqn:En;
    [|discriminate].
  destruct (py_index _ (CInt.wrap (nth 2 row 0%Z))) as [ap|] eqn:Ep;
    [|discriminate].
  cbv beta iota zeta delta [bind].
  intros [= <- <- <-]. exists am, ao, ap, an.
  do 5 (split; [reflexivity|]).
  split.
  - destruct (1 <=? deriv)%Z; [right|left]; split; try reflexivity.
    do 4 eexists. reflexivity.
  - destruct (deriv =? 2)%Z; [right|left]; split; try reflexivity.
    do 7 eexists. reflexivity.
Qed.

(** The body of [bond_lengths]. *)
Lemma bond_feature_shape (xyz : ndarray2 R) deriv row J0 H0 v J H :
  bond_feature xyz deriv row J0 H0 = Ok (v, J, H) ->
  exists am an,
    atom_of (shape0 xyz) (nth 0 row 0%Z) = Ok am /\
    atom_of (shape0 xyz) (nth 1 row 0%Z) = Ok an /\
    v = norm3 (vsub (xyz_row xyz am) (xyz_row xyz an)) /\
    (((1 <=? deriv)%Z = false /\ J = J0) \/
     ((1 <=? deriv)%Z = true /\
      exists u, J = upd an (vneg u) (upd am u J0))) /\
    (((deriv =? 2)%Z = false /\ H = H0) \/
     ((deriv =? 2)%Z = true /\
      exists T,
        mT T = T /\
        H = hset an an (mneg T) (hset an am T (hset am am (mneg T)
              (hset am an T H0))))).
Proof.
  unfold bond_feature, atom_of.
  destruct (py_index _ (CInt.wrap (nth 0 row 0%Z))) as [am|] eqn:Em;
    [|discriminate].
  destruct (py_index _ (CInt.wrap (nth 1 row 0%Z))) as [an|] eqn:En;
    [|discriminate].
  cbv beta iota zeta delta [bind].
  intros [= <- <- <-]. exists am, an.
  do 3 (split; [reflexivity|]).
  split.
  - destruct (1 <=? deriv)%Z; [right|left]; split; try reflexivity.
    eexists. reflexivity.
  - destruct (deriv =? 2)%Z; [right|left]; split; try reflexivity.
    eexists. refine (conj _ eq_refl).
    abstract_terms. mat_ring.
Qed.

(* ================================================================= *)
(** ** Sparsity *)

(** *** In any arithmetic *)

Section Written.

Context {F : Type} {AF : Arith F} {LF : Libm F}.

Lemma jget_zero_slab n deriv a :
  jget (zero_jslab n deriv) a = (vzero : vec3 F).
Proof.
  unfold zero_jslab. case_if; [apply jget_zeros|]. now destruct a.
Qed.

Lemma hget_zero_slab n deriv a b :
  hget (zero_hslab n deriv) a b = (mzero : mat3 F).
Proof.
  unfold zero_hslab. case_if; [apply hget_zeros|].
  unfold hget. destruct a, b; reflexivity.
Qed.

Lemma length_zero_slab n deriv :
  (1 <=? deriv)%Z = true -> length (zero_jslab n deriv : jslab F) = n.
Proof. intros E. unfold zero_jslab. rewrite E. apply repeat_length. Qed.

Lemma angle_block_elsewhere m o n t1 t2 t3 t4 (p q : Z * nat)
      (H : hslab F) a b :
  a <> snd p \/ b <> snd q ->
  hget (angle_block m o n t1 t2 t3 t4 p q H) a b = hget H a b.
Proof.
  intros Hne. destruct p as [za x], q as [zb y]. simpl in Hne.
  unfold angle_block.
  repeat case_if; repeat rewrite hget_hadd_other by exact Hne; reflexivity.
Qed.

Lemma dihedral_block_elsewhere m o p n t1 t2 t3 t4 t5 t6 t7 (r q : Z * nat)
      (H : hslab F) a b :
  a <> snd r \/ b <> snd q ->
  hget (dihedral_block m o p n t1 t2 t3 t4 t5 t6 t7 r q H) a b = hget H a b.
Proof. intros Hne. unfold dihedral_block. now apply hget_hset_other. Qed.

Lemma cdiv_inv (x y c : F) : cdiv x y = Ok c -> c = fdiv x y.
Proof. unfold cdiv. case_if; [discriminate|]. now intros [= <-]. Qed.

(** What the three loop bodies write, in any arithmetic. *)
Lemma bond_feature_writes (xyz : ndarray2 F) deriv row J0 H0 v J H :
  bond_feature xyz deriv row J0 H0 = Ok (v, J, H) ->
  exists am an,
    atom_of (shape0 xyz) (nth 0 row 0%Z) = Ok am /\
    atom_of (shape0 xyz) (nth 1 row 0%Z) = Ok an /\
    (J = J0 \/ exists u, J = upd an (vneg u) (upd am u J0)) /\
    (H = H0 \/
     exists T, H = hset an an (mneg T) (hset an am T (hset am am (mneg T)
                     (hset am an T H0)))).
Proof.
  unfold bond_feature, atom_of.
  destruct (py_index _ (CInt.wrap (nth 0 row 0%Z))) as [am|] eqn:Em;
    [|discriminate].
  destruct (py_index _ (CInt.wrap (nth 1 row 0%Z))) as [an|] eqn:En;
    [|discriminate].
  cbv beta iota zeta delta [bind].
  intros [= <- <- <-]. exists am, an.
  do 2 (split; [reflexivity|]).
  split.
  - destruct (1 <=? deriv)%Z; [right|left]; try reflexivity.
    eexists. reflexivity.
  - destruct (deriv =? 2)%Z; [right|left]; try reflexivity.
    eexists. reflexivity.
Qed.

Lemma angle_feature_writes (xyz : ndarray2 F) deriv row J0 H0 v J H :
  angle_feature xyz deriv row J0 H0 = Ok (v, J, H) ->
  exists am ao an,
    atom_of (shape0 xyz) (nth 0 row 0%Z) = Ok am /\
    atom_of (shape0 xyz) (nth 1 row 0%Z) = Ok ao /\
    atom_of (shape0 xyz) (nth 2 row 0%Z) = Ok an /\
    (((1 <=? deriv)%Z = false /\ J = J0) \/
     ((1 <=? deriv)%Z = true /\
      exists t0 t1,
        J = upd ao (vneg (vadd t0 t1)) (upd an t1 (upd am t0 J0)))) /\
    (((deriv =? 2)%Z = false /\ H = H0) \/
     exists t1 t2 t3 t4,
       H = for_pairs
             [(CInt.wrap (nth 0 row 0%Z), am);
              (CInt.wrap (nth 2 row 0%Z), an);
              (CInt.wrap (nth 1 row 0%Z), ao)]
             (angle_block (CInt.wrap (nth 0 row 0%Z))
                (CInt.wrap (nth 1 row 0%Z)) (CInt.wrap (nth 2 row 0%Z))
                t1 t2 t3 t4)
             (scaled_outer (fneg (fdiv (fcos v) (fsin v))) J)).
Proof.
  unfold angle_feature, atom_of.
  destruct (py_index _ (CInt.wrap (nth 0 row 0%Z))) as [am|] eqn:Em;
    [|discriminate].
  destruct (py_index _ (CInt.wrap (nth 1 row 0%Z))) as [ao|] eqn:Eo;
    [|discriminate].
  destruct (py_index _ (CInt.wrap (nth 2 row 0%Z))) as [an|] eqn:En;
    [|discriminate].
  cbv beta iota zeta delta [bind].
  destruct (cdiv _ _) as [q|]; [|discriminate].
  intros Hfeat. exists am, ao, an.
  do 3 (split; [reflexivity|]).
  destruct (1 <=? deriv)%Z eqn:E1.
  - destruct (_ || _)%bool; [discriminate|].
    destruct (deriv =? 2)%Z eqn:E2.
    + destruct (cdiv _ _) as [c|] eqn:Ec; [|discriminate].
      apply cdiv_inv in Ec. subst c.
      injection Hfeat as <- <- <-. split.
      * right. split; [reflexivity|]. eexists. eexists. reflexivity.
      * right. do 4 eexists. reflexivity.
    + injection Hfeat as <- <- <-. split.
      * right. split; [reflexivity|]. eexists. eexists. reflexivity.
      * left. now split.
  - destruct (deriv =? 2)%Z eqn:E2.
    + bool_to_Z. lia.
    + injection Hfeat as <- <- <-. split; left; now split.
Qed.

Lemma dihedral_feature_writes (xyz : ndarray2 F) deriv row J0 H0 v J H :
  dihedral_feature xyz deriv row J0 H0 = Ok (v, J, H) ->
  exists am ao ap an,
    atom_of (shape0 xyz) (nth 0 row 0%Z) = Ok am /\
    atom_of (shape0 xyz) (nth 1 row 0%Z) = Ok ao /\
    atom_of (shape0 xyz) (nth 2 row 0%Z) = Ok ap /\
    atom_of (shape0 xyz) (nth 3 row 0%Z) = Ok an /\
    (((1 <=? deriv)%Z = false /\ J = J0) \/
     ((1 <=? deriv)%Z = true /\
      exists t1 t2 t3 t4,
        J = upd ap (vadd (vsub t2 t3) t4)
              (upd ao (vsub (vadd (vneg t1) t3) t4)
                 (upd an (vneg t2) (upd am t1 J0))))) /\
    (H = H0 \/
     exists ht1 ht2 ht3 ht4 ht5 ht6 ht7,
       H = for_pairs
             [(CInt.wrap (nth 0 row 0%Z), am);
              (CInt.wrap (nth 3 row 0%Z), an);
              (CInt.wrap (nth 1 row 0%Z), ao);
              (CInt.wrap (nth 2 row 0%Z), ap)]
             (dihedral_block (CInt.wrap (nth 0 row 0%Z))
                (CInt.wrap (nth 1 row 0%Z)) (CInt.wrap (nth 2 row 0%Z))
                (CInt.wrap (nth 3 row 0%Z))
                ht1 ht2 ht3 ht4 ht5 ht6 ht7)
             H0).
Proof.
  unfold dihedral_feature, atom_of.
  destruct (py_index _ (CInt.wrap (nth 0 row 0%Z))) as [am|] eqn:Em;
    [|discriminate].
  destruct (py_index _ (CInt.wrap (nth 1 row 0%Z))) as [ao|] eqn:Eo;
    [|discriminate].
  destruct (py_index _ (CInt.wrap (nth 3 row 0%Z))) as [an|] eqn:En;
    [|discriminate].
  destruct (py_index _ (CInt.wrap (nth 2 row 0%Z))) as [ap|] eqn:Ep;
    [|discriminate].
  cbv beta iota zeta delta [bind].
  intros [= <- <- <-]. exists am, ao, ap, an.
  do 4 (split; [reflexivity|]).
  split.
  - destruct (1 <=? deriv)%Z; [right|left]; split; try reflexivity.
    do 4 eexists. reflexivity.
  - destruct (deriv =? 2)%Z; [right|left]; try reflexivity.
    do 7 eexists. reflexivity.
Qed.

(** The row of an atom that the tuple does not designate is never
    written; nor are its blocks, but for the base term of
    [bond_angles], the outer product of the whole Jacobian slice with
    itself. *)
Lemma feature_untouched fam (xyz : ndarray2 F) deriv row v J H a :
  feature_of fam xyz deriv row
    (zero_jslab (shape0 xyz) deriv) (zero_hslab (shape0 xyz) deriv)
  = Ok (v, J, H) ->
  unreferenced fam (shape0 xyz) row a ->
  jget J a = vzero /\
  (fam <> Angles -> forall b, hget H a b = mzero /\ hget H b a = mzero) /\
  (fam = Angles -> (deriv =? 2)%Z = true -> forall b,
     (a < shape0 xyz)%nat -> (b < shape0 xyz)%nat ->
     let c := fneg (fdiv (fcos v) (fsin v)) in
     hget H a b = smulm c (outer3 vzero (jget J b)) /\
     hget H b a = smulm c (outer3 (jget J b) vzero)).
Proof.
  intros Hfeat Hun. unfold unreferenced in Hun.
  destruct fam; simpl in Hfeat, Hun.
  - apply bond_feature_writes in Hfeat as (am & an & Hm & Hn & HJ & HH).
    assert (a <> am) by (intros ->; exact (Hun 0%nat ltac:(lia) Hm)).
    assert (a <> an) by (intros ->; exact (Hun 1%nat ltac:(lia) Hn)).
    split; [|split; [|discriminate]].
    + destruct HJ as [->|(u & ->)];
        rewrite ?jget_upd_other by assumption; apply jget_zero_slab.
    + intros _ b. destruct HH as [->|(T & ->)];
        split; rewrite ?hget_hset_other by first [now left | now right];
        apply hget_zero_slab.
  - apply angle_feature_writes in Hfeat
      as (am & ao & an & Hm & Ho & Hn & HJ & HH).
    assert (a <> am) by (intros ->; exact (Hun 0%nat ltac:(lia) Hm)).
    assert (a <> ao) by (intros ->; exact (Hun 1%nat ltac:(lia) Ho)).
    assert (a <> an) by (intros ->; exact (Hun 2%nat ltac:(lia) Hn)).
    assert (SJ : jget J a = vzero).
    { destruct HJ as [[_ ->]|(_ & t0 & t1 & ->)];
        rewrite ?jget_upd_other by assumption; apply jget_zero_slab. }
    split; [exact SJ|]. split; [congruence|].
    intros _ E2 b La Lb c.
    assert (E1 : (1 <=? deriv)%Z = true) by (bool_to_Z; lia).
    assert (LJ : length J = shape0 xyz).
    { destruct HJ as [[_ ->]|(_ & t0 & t1 & ->)];
        rewrite ?length_upd; now apply length_zero_slab. }
    destruct HH as [[E _]|(t1 & t2 & t3 & t4 & ->)]; [congruence|].
    cbv [for_pairs fold_left].
    rewrite !angle_block_elsewhere by first [now left | now right].
    rewrite !hget_scaled_outer by (rewrite LJ; assumption).
    now rewrite SJ.
  - apply dihedral_feature_writes in Hfeat
      as (am & ao & ap & an & Hm & Ho & Hp & Hn & HJ & HH).
    assert (a <> am) by (intros ->; exact (Hun 0%nat ltac:(lia) Hm)).
    assert (a <> ao) by (intros ->; exact (Hun 1%nat ltac:(lia) Ho)).
    assert (a <> ap) by (intros ->; exact (Hun 2%nat ltac:(lia) Hp)).
    assert (a <> an) by (intros ->; exact (Hun 3%nat ltac:(lia) Hn)).
    split; [|split; [|discriminate]].
    + destruct HJ as [[_ ->]|(_ & t1 & t2 & t3 & t4 & ->)];
        rewrite ?jget_upd_other by assumption; apply jget_zero_slab.
    + intros _ b.
      destruct HH as [->|(h1 & h2 & h3 & h4 & h5 & h6 & h7 & ->)];
        [split; apply hget_zero_slab|].
      cbv [for_pairs fold_left].
      split;
        rewrite !dihedral_block_elsewhere by first [now left | now right];
        apply hget_zero_slab.
Qed.




(** *** A degenerate angle, as the code tests it *)

(** At order 0 the body of [bond_angles] returns [acos] of the cosine
    it computed, when the division by the product of the two lengths
    does not raise, and touches nothing. *)
Lemma angle_feature_value (xyz : ndarray2 F) row am ao an J0 H0 :
  atom_of (shape0 xyz) (nth 0 row 0%Z) = Ok am ->
  atom_of (shape0 xyz) (nth 1 row 0%Z) = Ok ao ->
  atom_of (shape0 xyz) (nth 2 row 0%Z) = Ok an ->
  let u := vsub (xyz_row xyz am) (xyz_row xyz ao) in
  let v := vsub (xyz_row xyz an) (xyz_row xyz ao) in
  feqb (fmul (norm3 u) (norm3 v)) (of_int 0) = false ->
  angle_feature xyz 0 row J0 H0
  = Ok (facos (fdiv (dot3 u v) (fmul (norm3 u) (norm3 v))), J0, H0).
Proof.
  intros Hm Ho Hn u v Hz. unfold angle_feature.
  unfold atom_of in Hm, Ho, Hn. rewrite Hm, Ho, Hn.
  cbv beta iota zeta delta [bind]. fold u v.
  unfold cdiv. rewrite Hz. reflexivity.
Qed.

(** At order 1 or 2 it raises when the test of the source answers
    yes. *)
Lemma angle_feature_refuses (xyz : ndarray2 F) deriv row am ao an J0 H0 :
  atom_of (shape0 xyz) (nth 0 row 0%Z) = Ok am ->
  atom_of (shape0 xyz) (nth 1 row 0%Z) = Ok ao ->
  atom_of (shape0 xyz) (nth 2 row 0%Z) = Ok an ->
  (deriv = 1 \/ deriv = 2)%Z ->
  let u := vsub (xyz_row xyz am) (xyz_row xyz ao) in
  let v := vsub (xyz_row xyz an) (xyz_row xyz ao) in
  feqb (fmul (norm3 u) (norm3 v)) (of_int 0) = false ->
  (fltb (norm3 (vadd (vdivs u (norm3 u)) (vdivs v (norm3 v)))) f1em10
   || fltb (norm3 (vsub (vdivs u (norm3 u)) (vdivs v (norm3 v)))) f1em10)%bool
  = true ->
  angle_feature xyz deriv row J0 H0
  = Raise (ValueError "Sorry. I'll get back to this").
Proof.
  intros Hm Ho Hn Hd u v Hz Htest. unfold angle_feature.
  unfold atom_of in Hm, Ho, Hn. rewrite Hm, Ho, Hn.
  cbv beta iota zeta delta [bind]. fold u v.
  unfold cdiv. rewrite Hz.
  replace (1 <=? deriv)%Z with true by (destruct Hd; subst; reflexivity).
  rewrite Htest. reflexivity.
Qed.

End Written.

Lemma hget_angle_block_other m o n t1 t2 t3 t4 (p q : Z * nat)
      (H : hslab R) a b :
  a <> snd p \/ b <> snd q ->
  hget (angle_block m o n t1 t2 t3 t4 p q H) a b = hget H a b.
Proof.
  intros Hne. destruct p as [za x], q as [zb y]. simpl in Hne.
  unfold angle_block.
  repeat case_if; repeat rewrite hget_hadd_other by exact Hne; reflexivity.
Qed.

Lemma hget_dihedral_block_other m o p n t1 t2 t3 t4 t5 t6 t7 (r q : Z * nat)
      (H : hslab R) a b :
  a <> snd r \/ b <> snd q ->
  hget (dihedral_block m o p n t1 t2 t3 t4 t5 t6 t7 r q H) a b = hget H a b.
Proof. intros Hne. unfold dihedral_block. now apply hget_hset_other. Qed.

Lemma smulm_outer3_zero_l (c : R) (v : vec3 R) :
  smulm c (outer3 vzero v) = mzero.
Proof. apply mat3_ext. intros [] []; unfold_kernel; ring. Qed.

Lemma smulm_outer3_zero_r (c : R) (v : vec3 R) :
  smulm c (outer3 v vzero) = mzero.
Proof. apply mat3_ext. intros [] []; unfold_kernel; ring. Qed.

Lemma hget_scaled_outer_zero (c : R) (J : jslab R) a b :
  jget J a = vzero \/ jget J b = vzero ->
  hget (scaled_outer c J) a b = mzero.
Proof.
  intros Hz.
  destruct (Nat.lt_ge_cases a (length J)) as [Ha|Ha];
    [|apply hget_scaled_outer_out; now left].
  destruct (Nat.lt_ge_cases b (length J)) as [Hb|Hb];
    [|apply hget_scaled_outer_out; now right].
  rewrite hget_scaled_outer by assumption.
  destruct Hz as [-> | ->];
    [apply smulm_outer3_zero_l | apply smulm_outer3_zero_r].
Qed.

Lemma jget_zero_jslab n deriv a :
  jget (zero_jslab n deriv) a = (vzero : vec3 R).
Proof.
  unfold zero_jslab. case_if; [apply jget_zeros|]. now destruct a.
Qed.

Lemma hget_zero_hslab n deriv a b :
  hget (zero_hslab n deriv) a b = (mzero : mat3 R).
Proof.
  unfold zero_hslab. case_if; [apply hget_zeros|].
  unfold hget. destruct a, b; reflexivity.
Qed.

Lemma feature_sparse fam (xyz : ndarray2 R) deriv row v J H a :
  feature_of fam xyz deriv row
    (zero_jslab (shape0 xyz) deriv) (zero_hslab (shape0 xyz) deriv)
  = Ok (v, J, H) ->
  unreferenced fam (shape0 xyz) row a ->
  jget J a = vzero /\
  forall b, hget H a b = mzero /\ hget H b a = mzero.
Proof.
  intros Hfeat Hun. unfold unreferenced in Hun.
  destruct fam; simpl in Hfeat, Hun.
  - apply bond_feature_shape in Hfeat
      as (am & an & Hm & Hn & _ & HJ & HH).
    assert (a <> am) by (intros ->; exact (Hun 0 ltac:(lia) Hm)).
    assert (a <> an) by (intros ->; exact (Hun 1 ltac:(lia) Hn)).
    split.
    + destruct HJ as [[_ ->]|[_ (u & ->)]];
        rewrite ?jget_upd_other by assumption; apply jget_zero_jslab.
    + intros b. destruct HH as [[_ ->]|[_ (T & _ & ->)]];
        split; rewrite ?hget_hset_other by first [now left | now right];
        apply hget_zero_hslab.
  - apply angle_feature_shape in Hfeat
      as (am & ao & an & Hm & Ho & Hn & HJ & HH).
    assert (a <> am) by (intros ->; exact (Hun 0 ltac:(lia) Hm)).
    assert (a <> ao) by (intros ->; exact (Hun 1 ltac:(lia) Ho)).
    assert (a <> an) by (intros ->; exact (Hun 2 ltac:(lia) Hn)).
    assert (SJ : jget J a = vzero).
    { destruct HJ as [[_ ->]|[_ (t0 & t1 & ->)]];
        rewrite ?jget_upd_other by assumption; apply jget_zero_jslab. }
    split; [exact SJ|]. intros b.
    destruct HH as [[_ ->]|[_ (c & t1 & t2 & t3 & t4 & _ & _ & _ & ->)]];
      [split; apply hget_zero_hslab|].
    cbv [for_pairs fold_left].
    split;
      rewrite !hget_angle_block_other by first [now left | now right];
      apply hget_scaled_outer_zero; auto.
  - apply dihedral_feature_shape in Hfeat
      as (am & ao & ap & an & Hm & Ho & Hp & Hn & _ & HJ & HH).
    assert (a <> am) by (intros ->; exact (Hun 0 ltac:(lia) Hm)).
    assert (a <> ao) by (intros ->; exact (Hun 1 ltac:(lia) Ho)).
    assert (a <> ap) by (intros ->; exact (Hun 2 ltac:(lia) Hp)).
    assert (a <> an) by (intros ->; exact (Hun 3 ltac:(lia) Hn)).
    split.
    + destruct HJ as [[_ ->]|[_ (t1 & t2 & t3 & t4 & ->)]];
        rewrite ?jget_upd_other by assumption; apply jget_zero_jslab.
    + intros b.
      destruct HH as [[_ ->]|[_ (h1 & h2 & h3 & h4 & h5 & h6 & h7 & ->)]];
        [split; apply hget_zero_hslab|].
      cbv [for_pairs fold_left].
      split;
        rewrite !hget_dihedral_block_other by first [now left | now right];
        apply hget_zero_hslab.
Qed.

(** C7, as the code has it.  In a successful call, in any arithmetic,
    the Jacobian row of feature [f] at an atom [a] that the index tuple
    of [f] does not designate is zero, and for [bond_lengths] and
    [dihedral_angles] so is every Hessian block of [f] with [a] on
    either side: those entries are allocated as zeros and never written.
    For [bond_angles] such a block is the base term
    [-(cos(theta) / sin(theta)) * outer(jacobian[f, a], jacobian[f, b])],
    with [theta] the value of the feature and the row at [a] zero; in
    real arithmetic that is zero too, for the three families. *)
Theorem sparsity :
  (forall (F : Type) (AF : Arith F) (LF : Libm F) fam (xyz : ndarray2 F)
          idx deriv out f row a,
      evaluate fam xyz idx deriv = Ok out ->
      nth_error (rows idx) f = Some row ->
      unreferenced fam (shape0 xyz) row a ->
      (forall j, jacobian_of out = Some j -> jacobian_row j f a = vzero) /\
      (fam <> Angles -> forall h b, hessian_of out = Some h ->
         hessian_block h f a b = mzero /\ hessian_block h f b a = mzero) /\
      (fam = Angles -> forall j h b,
         jacobian_of out = Some j -> hessian_of out = Some h ->
         (a < shape0 xyz)%nat -> (b < shape0 xyz)%nat ->
         let theta := nth f (values_of out) (of_int 0) in
         let c := fneg (fdiv (fcos theta) (fsin theta)) in
         hessian_block h f a b = smulm c (outer3 vzero (jacobian_row j f b)) /\
         hessian_block h f b a
         = smulm c (outer3 (jacobian_row j f b) vzero))) /\
  (forall fam (xyz : ndarray2 R) idx deriv out f row a,
      evaluate fam xyz idx deriv = Ok out ->
      nth_error (rows idx) f = Some row ->
      unreferenced fam (shape0 xyz) row a ->
      (forall j, jacobian_of out = Some j -> jacobian_row j f a = vzero) /\
      (forall h b, hessian_of out = Some h ->
         hessian_block h f a b = mzero /\ hessian_block h f b a = mzero)).
Proof.
  split.
  - intros F AF LF fam xyz idx deriv out f row a Hcall Hrow Hun.
    destruct (evaluate_feature fam xyz idx deriv out f row Hcall Hrow)
      as (v & J & H & Hfeat & Hv & HJ & HH).
    destruct (feature_untouched fam xyz deriv row v J H a Hfeat Hun)
      as (SJ & SH & SA).
    split; [|split].
    + intros j Hj. unfold jacobian_row. now rewrite (HJ j Hj).
    + intros Hfam h b Hh. unfold hessian_block. rewrite (HH h Hh).
      now apply SH.
    + intros Hfam j h b Hj Hh La Lb theta c.
      unfold hessian_block, jacobian_row. rewrite (HH h Hh), (HJ j Hj).
      subst theta c. rewrite Hv.
      apply SA; auto.
      apply evaluate_inv in Hcall as ((_ & _ & [-> | [-> | ->]]) & st & _ & ->);
        [discriminate Hh|discriminate Hh|reflexivity].
  - intros fam xyz idx deriv out f row a Hcall Hrow Hun.
    destruct (evaluate_feature fam xyz idx deriv out f row Hcall Hrow)
      as (v & J & H & Hfeat & _ & HJ & HH).
    destruct (feature_sparse fam xyz deriv row v J H a Hfeat Hun) as [SJ SH].
    split.
    + intros j Hj. unfold jacobian_row. now rewrite (HJ j Hj).
    + intros h b Hh. unfold hessian_block. rewrite (HH h Hh). apply SH.
Qed.

Lemma sparsity_witness :
  (exists out j h,
      evaluate Bonds Frames.square4 Frames.bonds_01_12 2 = Ok out /\
      jacobian_of out = Some j /\ hessian_of out = Some h /\
      jacobian_row j 1 0 = vzero /\
      hessian_block h 1 0 2 = mzero /\ hessian_block h 1 2 0 = mzero) /\
  (exists out j,
      evaluate Angles Frames64.overflow4 Frames.angle_012 2 = Ok out /\
      jacobian_of out = Some j /\
      jacobian_row j 0 3 = vzero).
Proof.
  split.
  - do 3 eexists. split; [reflexivity|]. split; [reflexivity|].
    split; [reflexivity|].
    assert (Hun : unreferenced Bonds (shape0 Frames.square4) [1%Z; 2%Z] 0).
    { intros [|[|c]] Hc; simpl in Hc; try lia; vm_compute; discriminate. }
    destruct (proj2 sparsity Bonds Frames.square4 Frames.bonds_01_12 2%Z _
                1%nat [1%Z; 2%Z] 0%nat eq_refl eq_refl Hun) as [SJ SH].
    split; [apply SJ; reflexivity|].
    apply SH. reflexivity.
  - assert (Hr : exists v j h,
              evaluate Angles Frames64.overflow4 Frames.angle_012 2
              = Ok (WithHessian v j h))
      by (vm_compute; do 3 eexists; reflexivity).
    destruct Hr as (v & j & h & Hr).
    exists (WithHessian v j h), j.
    split; [exact Hr|]. split; [reflexivity|].
    assert (Hun : unreferenced Angles (shape0 Frames64.overflow4)
                    [0%Z; 1%Z; 2%Z] 3).
    { intros [|[|[|c]]] Hc; simpl in Hc; try lia; vm_compute; discriminate. }
    exact (proj1 (proj1 sparsity float Binary64.float_arith Libm64.tabulated Angles
                    Frames64.overflow4 Frames.angle_012 2%Z
                    (WithHessian v j h) 0%nat [0%Z; 1%Z; 2%Z] 3%nat
                    Hr eq_refl Hun) j eq_refl).
Defined.

(** *** Doubles *)

Lemma mul_nan_r (x : float) : PrimFloat.mul x nan = nan.
Proof.
  apply Prim2SF_inj. rewrite mul_spec. unfold SF64mul.
  change (Prim2SF nan) with S754_nan. now destruct (Prim2SF x).
Qed.

(** On [Frames64.overflow4] the cosine handed to [acos] is 0.  Whatever
    the libm, if the sine of its [acos(0)] is not zero (the quotient
    [cos_angle / sin_angle] raises otherwise), the call of order 2
    returns and the entry [hessian[0, 3, 0, 0, 0]] is nan. *)
Lemma overflow_any_libm (L : Libm float) :
  PrimFloat.eqb (@fsin float L (@facos float L 0%float)) 0 = false ->
  exists v j h,
    @bond_angles float _ L Frames64.overflow4 Frames.angle_012 2
    = Ok (WithHessian v j h) /\
    hessian_at h 0 3 X0 0 X0 = nan.
Proof.
  intros Hs. vm_compute in Hs.
  do 3 eexists. split.
  - vm_compute. rewrite Hs. reflexivity.
  - vm_compute. now rewrite mul_nan_r.
Qed.

(** C7 fails in binary64: on [Frames64.overflow4] the squared length
    of the first arm overflows, the three rows of the angle
    [(0, 1, 2)] are nan, the call of order 2 returns, and the Hessian
    blocks that pair the unused atom 3, whose Jacobian row is zero, with
    the atoms of the angle are nan. *)
Lemma sparsity_lost_to_nan :
  exists v j h,
    bond_angles Frames64.overflow4 Frames.angle_012 2
    = Ok (WithHessian v j h) /\
    jacobian_row j 0 3 = V3 0%float 0%float 0%float /\
    hessian_block h 0 3 0 = V3 (V3 nan nan nan) (V3 nan nan nan) (V3 nan nan nan) /\
    hessian_block h 0 0 3 = V3 (V3 nan nan nan) (V3 nan nan nan) (V3 nan nan nan).
Proof.
  do 3 eexists. split; [vm_compute; reflexivity|].
  repeat split; vm_compute; reflexivity.
Qed.

(* ================================================================= *)
(** ** The geometry of an angle *)

Local Open Scope R_scope.

Lemma ltb_true_iff (x y : R) : RealArith.ltb x y = true <-> x < y.
Proof.
  unfold RealArith.ltb. destruct (Rlt_dec x y); intuition discriminate.
Qed.

Lemma eqb_true_iff (x y : R) : RealArith.eqb x y = true <-> x = y.
Proof.
  unfold RealArith.eqb. destruct (Req_dec_T x y); intuition discriminate.
Qed.

Lemma eqb_false_iff (x y : R) : RealArith.eqb x y = false <-> x <> y.
Proof.
  unfold RealArith.eqb. destruct (Req_dec_T x y); intuition discriminate.
Qed.

Lemma cdiv_ok (x y : R) : y <> 0 -> cdiv x y = Ok (x / y).
Proof.
  intros Hy. unfold cdiv. simpl.
  now rewrite (proj2 (eqb_false_iff y 0) Hy).
Qed.

Lemma cdiv_zero (x : R) : cdiv x 0 = Raise ZeroDivisionError.
Proof.
  unfold cdiv. simpl. now rewrite (proj2 (eqb_true_iff 0 0) eq_refl).
Qed.

Lemma dot3_self_nonneg (w : vec3 R) : 0 <= dot3 w w.
Proof. destruct w. unfold dot3; simpl. nra. Qed.

Lemma norm3_dot3 (w : vec3 R) : norm3 w = R_sqrt.sqrt (dot3 w w).
Proof. reflexivity. Qed.

Lemma norm3_nonneg (w : vec3 R) : 0 <= norm3 w.
Proof. apply sqrt_pos. Qed.

Lemma norm3_sqr (w : vec3 R) : norm3 w * norm3 w = dot3 w w.
Proof. rewrite norm3_dot3. apply sqrt_sqrt, dot3_self_nonneg. Qed.

Lemma norm3_pos_dot3 (w : vec3 R) : 0 < norm3 w -> 0 < dot3 w w.
Proof.
  intros Hpos. pose proof (dot3_self_nonneg w) as Hnn.
  destruct Hnn as [Hlt|Heq]; [exact Hlt|].
  rewrite norm3_dot3, <- Heq, sqrt_0 in Hpos. lra.
Qed.

Lemma norm3_zero_dot3 (w : vec3 R) : norm3 w = 0 -> dot3 w w = 0.
Proof.
  intros Hz. rewrite <- norm3_sqr, Hz. ring.
Qed.

Lemma dot3_unit (u v : vec3 R) :
  norm3 u <> 0 -> norm3 v <> 0 ->
  dot3 (unit u) (unit v) = cosine u v.
Proof.
  intros Hu Hv. unfold unit, cosine.
  generalize (norm3 u) (norm3 v) Hu Hv. intros a b Ha Hb.
  destruct u, v. unfold_kernel. field. auto.
Qed.

Lemma dot3_unit_self (u : vec3 R) : norm3 u <> 0 -> dot3 (unit u) (unit u) = 1.
Proof.
  intros Hu. rewrite dot3_unit by assumption. unfold cosine.
  rewrite norm3_sqr. apply Rdiv_diag.
  rewrite <- norm3_sqr. nra.
Qed.

Lemma dot3_vadd_self (a b : vec3 R) :
  dot3 (vadd a b) (vadd a b) = dot3 a a + 2 * dot3 a b + dot3 b b.
Proof. destruct a, b. unfold_kernel. ring. Qed.

Lemma dot3_vsub_self (a b : vec3 R) :
  dot3 (vsub a b) (vsub a b) = dot3 a a - 2 * dot3 a b + dot3 b b.
Proof. destruct a, b. unfold_kernel. ring. Qed.

(** The squared chord between the two unit vectors, and its mirror. *)
Lemma chord_plus (u v : vec3 R) :
  norm3 u <> 0 -> norm3 v <> 0 ->
  dot3 (vadd (unit u) (unit v)) (vadd (unit u) (unit v)) = 2 + 2 * cosine u v.
Proof.
  intros Hu Hv.
  rewrite dot3_vadd_self, !dot3_unit_self, dot3_unit by assumption.
  ring.
Qed.

Lemma chord_minus (u v : vec3 R) :
  norm3 u <> 0 -> norm3 v <> 0 ->
  dot3 (vsub (unit u) (unit v)) (vsub (unit u) (unit v)) = 2 - 2 * cosine u v.
Proof.
  intros Hu Hv.
  rewrite dot3_vsub_self, !dot3_unit_self, dot3_unit by assumption.
  ring.
Qed.

Lemma cosine_bounds (u v : vec3 R) :
  norm3 u <> 0 -> norm3 v <> 0 -> -1 <= cosine u v <= 1.
Proof.
  intros Hu Hv.
  pose proof (dot3_self_nonneg (vadd (unit u) (unit v))) as Hp.
  pose proof (dot3_self_nonneg (vsub (unit u) (unit v))) as Hm.
  rewrite chord_plus in Hp by assumption.
  rewrite chord_minus in Hm by assumption. lra.
Qed.

Lemma degenerate_test (u v : vec3 R) :
  (fltb (norm3 (vadd (unit u) (unit v))) f1em10
   || fltb (norm3 (vsub (unit u) (unit v))) f1em10)%bool = true
  <-> degenerate u v.
Proof.
  unfold degenerate. simpl fltb. simpl f1em10.
  rewrite orb_true_iff, !ltb_true_iff. reflexivity.
Qed.

Lemma tiny_pos : 0 < 1e-10.
Proof. lra. Qed.

(** Away from the degenerate case the sine of the angle is not zero:
    the division by [sin_angle] in the Hessian never raises. *)
Lemma sin_angle_nonzero (u v : vec3 R) :
  norm3 u <> 0 -> norm3 v <> 0 -> ~ degenerate u v ->
  sin (acos (cosine u v)) <> 0.
Proof.
  intros Hu Hv Hnd. unfold degenerate in Hnd.
  assert (Hp : 0 < norm3 (vadd (unit u) (unit v))).
  { pose proof tiny_pos.
    destruct (Rlt_dec (norm3 (vadd (unit u) (unit v))) 1e-10);
      [exfalso; apply Hnd; now left | lra]. }
  assert (Hm : 0 < norm3 (vsub (unit u) (unit v))).
  { pose proof tiny_pos.
    destruct (Rlt_dec (norm3 (vsub (unit u) (unit v))) 1e-10);
      [exfalso; apply Hnd; now right | lra]. }
  apply norm3_pos_dot3 in Hp, Hm.
  rewrite chord_plus in Hp by assumption.
  rewrite chord_minus in Hm by assumption.
  rewrite sin_acos by lra.
  assert (0 < 1 - (cosine u v)²) by (unfold Rsqr; nra).
  pose proof (sqrt_lt_R0 _ H). lra.
Qed.

(* ================================================================= *)
(** ** Degenerate angles *)

Lemma norm3_product_nonzero (u v : vec3 R) :
  norm3 u <> 0 -> norm3 v <> 0 -> norm3 u * norm3 v <> 0.
Proof. intros Hu Hv. apply Rmult_integral_contrapositive. auto. Qed.

(** A bond of length zero makes the quotient of C doubles raise, at
    every order. *)
Lemma angle_feature_zero_bond (xyz : ndarray2 R) deriv row am ao an J0 H0 :
  atom_of (shape0 xyz) (nth 0 row 0%Z) = Ok am ->
  atom_of (shape0 xyz) (nth 1 row 0%Z) = Ok ao ->
  atom_of (shape0 xyz) (nth 2 row 0%Z) = Ok an ->
  norm3 (bond_u xyz am ao) * norm3 (bond_u xyz an ao) = 0 ->
  angle_feature xyz deriv row J0 H0 = Raise ZeroDivisionError.
Proof.
  intros Hm Ho Hn Hz. unfold angle_feature. unfold atom_of in Hm, Ho, Hn.
  rewrite Hm, Ho, Hn. cbv beta iota zeta delta [bind].
  change (vsub (xyz_row xyz am) (xyz_row xyz ao)) with (bond_u xyz am ao).
  change (vsub (xyz_row xyz an) (xyz_row xyz ao)) with (bond_u xyz an ao).
  change (@fmul R R_arith) with Rmult.
  rewrite Hz, cdiv_zero. reflexivity.
Qed.

Section AngleBody.

Variable xyz : ndarray2 R.
Variables (row : list Z) (am ao an : nat).
Hypothesis Hm : atom_of (shape0 xyz) (nth 0 row 0%Z) = Ok am.
Hypothesis Ho : atom_of (shape0 xyz) (nth 1 row 0%Z) = Ok ao.
Hypothesis Hn : atom_of (shape0 xyz) (nth 2 row 0%Z) = Ok an.
Hypothesis Hu : norm3 (bond_u xyz am ao) <> 0.
Hypothesis Hv : norm3 (bond_u xyz an ao) <> 0.

Let u := bond_u xyz am ao.
Let v := bond_u xyz an ao.

(** At order 0 the body returns the angle and touches nothing. *)
Lemma angle_feature_order0 J0 H0 :
  angle_feature xyz 0 row J0 H0 = Ok (acos (cosine u v), J0, H0).
Proof.
  unfold angle_feature. unfold atom_of in Hm, Ho, Hn.
  rewrite Hm, Ho, Hn. cbv beta iota zeta delta [bind].
  change (vsub (xyz_row xyz am) (xyz_row xyz ao)) with u.
  change (vsub (xyz_row xyz an) (xyz_row xyz ao)) with v.
  change (@fmul R R_arith) with Rmult.
  rewrite (cdiv_ok (dot3 u v) (norm3 u * norm3 v))
    by (apply norm3_product_nonzero; assumption).
  reflexivity.
Qed.

(** At order 1 or 2 a degenerate angle raises. *)
Lemma angle_feature_degenerate deriv J0 H0 :
  (deriv = 1 \/ deriv = 2)%Z ->
  degenerate u v ->
  angle_feature xyz deriv row J0 H0
  = Raise (ValueError "Sorry. I'll get back to this").
Proof.
  intros Hd Hdeg. unfold angle_feature. unfold atom_of in Hm, Ho, Hn.
  rewrite Hm, Ho, Hn. cbv beta iota zeta delta [bind].
  change (vsub (xyz_row xyz am) (xyz_row xyz ao)) with u.
  change (vsub (xyz_row xyz an) (xyz_row xyz ao)) with v.
  change (@fmul R R_arith) with Rmult.
  rewrite (cdiv_ok (dot3 u v) (norm3 u * norm3 v))
    by (apply norm3_product_nonzero; assumption).
  replace (1 <=? deriv)%Z with true by (destruct Hd; subst; reflexivity).
  change (vdivs u (norm3 u)) with (unit u).
  change (vdivs v (norm3 v)) with (unit v).
  rewrite (proj2 (degenerate_test u v) Hdeg). reflexivity.
Qed.

(** A regular angle never raises, at any order. *)
Lemma angle_feature_regular deriv J0 H0 :
  ~ degenerate u v ->
  is_ok (angle_feature xyz deriv row J0 H0) = true.
Proof.
  intros Hnd. unfold angle_feature. unfold atom_of in Hm, Ho, Hn.
  rewrite Hm, Ho, Hn. cbv beta iota zeta delta [bind].
  change (vsub (xyz_row xyz am) (xyz_row xyz ao)) with u.
  change (vsub (xyz_row xyz an) (xyz_row xyz ao)) with v.
  change (@fmul R R_arith) with Rmult.
  rewrite (cdiv_ok (dot3 u v) (norm3 u * norm3 v))
    by (apply norm3_product_nonzero; assumption).
  change (vdivs u (norm3 u)) with (unit u).
  change (vdivs v (norm3 v)) with (unit v).
  assert (Htest : (fltb (norm3 (vadd (unit u) (unit v))) f1em10
                   || fltb (norm3 (vsub (unit u) (unit v))) f1em10)%bool
                  = false).
  { apply not_true_is_false. intros Ht.
    apply Hnd. now apply degenerate_test. }
  rewrite Htest.
  change (dot3 u v / (norm3 u * norm3 v)) with (cosine u v).
  change (@fsin R R_libm) with sin. change (@fcos R R_libm) with cos.
  change (@facos R R_libm) with acos.
  rewrite (cdiv_ok (cos (acos (cosine u v))) (sin (acos (cosine u v))))
    by (apply sin_angle_nonzero; assumption).
  destruct (1 <=? deriv)%Z, (deriv =? 2)%Z; reflexivity.
Qed.

End AngleBody.

(** The loop raises what its first failing body raises. *)
Lemma for_features_first_raise {F : Type} {AF : Arith F}
      (feat : feature F) rws e : forall f row i st,
  nth_error rws f = Some row ->
  (forall k r, (k < f)%nat -> nth_error rws k = Some r ->
               forall J H, is_ok (feat r J H) = true) ->
  (forall J H, feat row J H = Raise e) ->
  for_features feat i rws st = Raise e.
Proof.
  induction rws as [|r rest IH]; intros [|f] row i st Hrow Hbefore Hbad;
    simpl in Hrow; try discriminate.
  - injection Hrow as <-. simpl. unfold step, bind. now rewrite Hbad.
  - simpl. unfold bind at 1.
    destruct (step feat i r st) as [st1|e1] eqn:Hs.
    + apply (IH f row); auto.
      intros k r' Hk Hr'. apply (Hbefore (S k) r'); [lia|exact Hr'].
    + unfold step, bind in Hs.
      pose proof (Hbefore 0%nat r ltac:(lia) eq_refl
                    (nth i (jac st) []) (nth i (hess st) [])) as Hok.
      destruct (feat r _ _) as [[[? ?] ?]|]; discriminate.
Qed.

Lemma evaluate_run {F : Type} {AF : Arith F} {LF : Libm F}
      fam (xyz : ndarray2 F) idx deriv :
  shape1 xyz = 3%nat -> shape1 idx = arity fam ->
  (deriv = 0 \/ deriv = 1 \/ deriv = 2)%Z ->
  evaluate fam xyz idx deriv =
  (st <- for_features (feature_of fam xyz deriv) 0 (rows idx)
           (allocate (shape0 idx) (shape0 xyz) deriv) ;;
   Ok (returned deriv st)).
Proof.
  intros H1 H2 H3. rewrite evaluate_unfold.
  rewrite (proj2 (check_args_ok (columns_message fam) (arity fam)
                    xyz idx deriv)) by auto.
  reflexivity.
Qed.

Lemma cos_near_one (u v : vec3 R) :
  norm3 u <> 0 -> norm3 v <> 0 ->
  norm3 (vsub (unit u) (unit v)) < 1e-10 ->
  1 - cosine u v < 5e-21.
Proof.
  intros Hu Hv Hlt.
  pose proof (norm3_nonneg (vsub (unit u) (unit v))) as Hnn.
  pose proof (norm3_sqr (vsub (unit u) (unit v))) as Hsq.
  rewrite chord_minus in Hsq by assumption. nra.
Qed.

Lemma cos_near_minus_one (u v : vec3 R) :
  norm3 u <> 0 -> norm3 v <> 0 ->
  norm3 (vadd (unit u) (unit v)) < 1e-10 ->
  1 + cosine u v < 5e-21.
Proof.
  intros Hu Hv Hlt.
  pose proof (norm3_nonneg (vadd (unit u) (unit v))) as Hnn.
  pose proof (norm3_sqr (vadd (unit u) (unit v))) as Hsq.
  rewrite chord_plus in Hsq by assumption. nra.
Qed.

Lemma acos_minus_one : acos (-1) = PI.
Proof.
  replace (-1) with (Ropp 1) by lra.
  rewrite acos_opp, acos_1. ring.
Qed.

(** Real arithmetic.  Take an angle whose two bond vectors have unit
    vectors [u^], [v^] with [|u^ + v^| < 1e-10] or [|u^ - v^| < 1e-10].
    A call of order 1 or 2 raises the [ValueError] of the degenerate
    branch (no output is returned), provided no earlier row raised; a
    call of order 0 returns, provided every row designates an angle,
    and the value of this row is the angle [acos (u^ . v^)], in
    [0, PI]: it is 0 when [u^ = v^], PI when [u^ = - v^], and in between
    its cosine is within [5e-21] of 1 or of -1. *)
Lemma degenerate_angle_real (xyz : ndarray2 R) iangles f zm zo zn am ao an :
  shape1 xyz = 3%nat -> shape1 iangles = 3%nat ->
  nth_error (rows iangles) f = Some [zm; zo; zn] ->
  atom_of (shape0 xyz) zm = Ok am ->
  atom_of (shape0 xyz) zo = Ok ao ->
  atom_of (shape0 xyz) zn = Ok an ->
  norm3 (bond_u xyz am ao) <> 0 ->
  norm3 (bond_u xyz an ao) <> 0 ->
  degenerate (bond_u xyz am ao) (bond_u xyz an ao) ->
  (forall deriv, (deriv = 1 \/ deriv = 2)%Z ->
     (forall k row, (k < f)%nat -> nth_error (rows iangles) k = Some row ->
                    angle_regular xyz row) ->
     bond_angles xyz iangles deriv
     = Raise (ValueError "Sorry. I'll get back to this")) /\
  ((forall row, In row (rows iangles) -> angle_defined xyz row) ->
   exists vals,
     bond_angles xyz iangles 0 = Ok (Values vals) /\
     nth f vals 0 = acos (cosine (bond_u xyz am ao) (bond_u xyz an ao)) /\
     0 <= nth f vals 0 <= PI /\
     (norm3 (vsub (unit (bond_u xyz am ao)) (unit (bond_u xyz an ao))) < 1e-10
      -> 1 - cos (nth f vals 0) < 5e-21) /\
     (norm3 (vadd (unit (bond_u xyz am ao)) (unit (bond_u xyz an ao))) < 1e-10
      -> 1 + cos (nth f vals 0) < 5e-21) /\
     (norm3 (vsub (unit (bond_u xyz am ao)) (unit (bond_u xyz an ao))) = 0
      -> nth f vals 0 = 0) /\
     (norm3 (vadd (unit (bond_u xyz am ao)) (unit (bond_u xyz an ao))) = 0
      -> nth f vals 0 = PI)).
Proof.
  intros Sx Si Hrow Hm Ho Hn Hu Hv Hdeg.
  set (u := bond_u xyz am ao) in *. set (v := bond_u xyz an ao) in *.
  split.
  - intros deriv Hd Hbefore.
    change (evaluate Angles xyz iangles deriv = Raise
              (ValueError "Sorry. I'll get back to this")).
    rewrite evaluate_run by (auto; simpl; tauto).
    rewrite (for_features_first_raise (feature_of Angles xyz deriv)
               (rows iangles) (ValueError "Sorry. I'll get back to this")
               f [zm; zo; zn]); auto.
    + intros k r Hk Hr J H.
      destruct (Hbefore k r Hk Hr)
        as (bm & bo & bn & Bm & Bo & Bn & Bu & Bv & Bnd).
      now apply (angle_feature_regular xyz r bm bo bn).
    + intros J H.
      now apply (angle_feature_degenerate xyz [zm; zo; zn] am ao an).
  - intros Hall.
    change (bond_angles xyz iangles 0) with (evaluate Angles xyz iangles 0).
    destruct (evaluate Angles xyz iangles 0) as [out|e] eqn:Hcall.
    + destruct (evaluate_feature Angles xyz iangles 0 out f _ Hcall Hrow)
        as (val & J & H & Hfeat & Hval & _).
      simpl feature_of in Hfeat.
      rewrite (angle_feature_order0 xyz [zm; zo; zn] am ao an) in Hfeat
        by assumption.
      injection Hfeat as <- _ _. fold u v in Hval.
      apply evaluate_inv in Hcall as (_ & st & _ & ->).
      exists (vals st). simpl in Hval.
      split; [reflexivity|]. rewrite Hval.
      pose proof (cosine_bounds u v Hu Hv) as Hq.
      split; [reflexivity|]. split; [apply acos_bound|].
      rewrite cos_acos by exact Hq.
      split; [now apply cos_near_one|].
      split; [now apply cos_near_minus_one|].
      split; intros Hz; apply norm3_zero_dot3 in Hz.
      * rewrite chord_minus in Hz by assumption.
        replace (cosine u v) with 1 by lra. apply acos_1.
      * rewrite chord_plus in Hz by assumption.
        replace (cosine u v) with (-1) by lra. apply acos_minus_one.
    + exfalso.
      rewrite evaluate_run in Hcall by (auto; simpl; tauto).
      pose proof (for_features_ok (feature_of Angles xyz 0) (rows iangles))
        as Hok.
      unfold bind in Hcall.
      destruct (for_features _ _ _ _) as [st|e'] eqn:Hrun; [discriminate|].
      specialize (Hok ltac:(intros r Hin J H;
        destruct (Hall r Hin) as (bm & bo & bn & Bm & Bo & Bn & Bu & Bv);
        simpl; rewrite (angle_feature_order0 xyz r bm bo bn) by assumption;
        reflexivity) 0%nat (allocate (shape0 iangles) (shape0 xyz) 0)).
      rewrite Hrun in Hok. discriminate.
Qed.

(** C4, as the code has it.  Take an angle for which the division of
    the cosine does not raise and the test of the source,
    [norm3(u + v) < 1e-10 or norm3(u - v) < 1e-10] on the unit vectors
    of its two arms, answers yes.  In the arithmetic of the code, a
    call of order 1 or 2 raises the [ValueError] of the degenerate
    branch (no output is returned), provided no earlier row raised, and
    a call of order 0 returns, provided no row raises, with [acos] of
    the computed cosine as the value of this row.  In real arithmetic
    that value is in [0, PI]: it is 0 when the unit vectors are equal,
    PI when they are opposite, and in between its cosine is within
    [5e-21] of 1 or of -1. *)
Theorem degenerate_angle :
  (forall (F : Type) (AF : Arith F) (LF : Libm F) (xyz : ndarray2 F)
          iangles f zm zo zn am ao an,
      shape1 xyz = 3%nat -> shape1 iangles = 3%nat ->
      nth_error (rows iangles) f = Some [zm; zo; zn] ->
      atom_of (shape0 xyz) zm = Ok am ->
      atom_of (shape0 xyz) zo = Ok ao ->
      atom_of (shape0 xyz) zn = Ok an ->
      let u := vsub (xyz_row xyz am) (xyz_row xyz ao) in
      let v := vsub (xyz_row xyz an) (xyz_row xyz ao) in
      feqb (fmul (norm3 u) (norm3 v)) (of_int 0) = false ->
      (fltb (norm3 (vadd (vdivs u (norm3 u)) (vdivs v (norm3 v)))) f1em10
       || fltb (norm3 (vsub (vdivs u (norm3 u)) (vdivs v (norm3 v)))) f1em10)%bool
      = true ->
      (forall deriv, (deriv = 1 \/ deriv = 2)%Z ->
         (forall k row, (k < f)%nat ->
            nth_error (rows iangles) k = Some row ->
            forall J H, is_ok (angle_feature xyz deriv row J H) = true) ->
         bond_angles xyz iangles deriv
         = Raise (ValueError "Sorry. I'll get back to this")) /\
      ((forall row, In row (rows iangles) ->
          forall J H, is_ok (angle_feature xyz 0 row J H) = true) ->
       exists vals,
         bond_angles xyz iangles 0 = Ok (Values vals) /\
         nth f vals (of_int 0)
         = facos (fdiv (dot3 u v) (fmul (norm3 u) (norm3 v))))) /\
  (forall (xyz : ndarray2 R) iangles f zm zo zn am ao an,
      shape1 xyz = 3%nat -> shape1 iangles = 3%nat ->
      nth_error (rows iangles) f = Some [zm; zo; zn] ->
      atom_of (shape0 xyz) zm = Ok am ->
      atom_of (shape0 xyz) zo = Ok ao ->
      atom_of (shape0 xyz) zn = Ok an ->
      norm3 (bond_u xyz am ao) <> 0 ->
      norm3 (bond_u xyz an ao) <> 0 ->
      degenerate (bond_u xyz am ao) (bond_u xyz an ao) ->
      (forall deriv, (deriv = 1 \/ deriv = 2)%Z ->
         (forall k row, (k < f)%nat ->
            nth_error (rows iangles) k = Some row ->
            angle_regular xyz row) ->
         bond_angles xyz iangles deriv
         = Raise (ValueError "Sorry. I'll get back to this")) /\
      ((forall row, In row (rows iangles) -> angle_defined xyz row) ->
       exists vals,
         bond_angles xyz iangles 0 = Ok (Values vals) /\
         nth f vals 0 = acos (cosine (bond_u xyz am ao) (bond_u xyz an ao)) /\
         0 <= nth f vals 0 <= PI /\
         (norm3 (vsub (unit (bond_u xyz am ao)) (unit (bond_u xyz an ao)))
          < 1e-10
          -> 1 - cos (nth f vals 0) < 5e-21) /\
         (norm3 (vadd (unit (bond_u xyz am ao)) (unit (bond_u xyz an ao)))
          < 1e-10
          -> 1 + cos (nth f vals 0) < 5e-21) /\
         (norm3 (vsub (unit (bond_u xyz am ao)) (unit (bond_u xyz an ao))) = 0
          -> nth f vals 0 = 0) /\
         (norm3 (vadd (unit (bond_u xyz am ao)) (unit (bond_u xyz an ao))) = 0
          -> nth f vals 0 = PI))).
Proof.
  split; [|exact degenerate_angle_real].
  intros F AF LF xyz iangles f zm zo zn am ao an Sx Si Hrow Hm Ho Hn
         u v Hz Htest.
  split.
  - intros deriv Hd Hbefore.
    change (evaluate Angles xyz iangles deriv = Raise
              (ValueError "Sorry. I'll get back to this")).
    rewrite evaluate_run by (auto; simpl; tauto).
    rewrite (for_features_first_raise (feature_of Angles xyz deriv)
               (rows iangles) (ValueError "Sorry. I'll get back to this")
               f [zm; zo; zn]); auto.
    intros J H.
    now apply (angle_feature_refuses xyz deriv [zm; zo; zn] am ao an).
  - intros Hall.
    change (bond_angles xyz iangles 0) with (evaluate Angles xyz iangles 0).
    pose proof (for_features_ok (feature_of Angles xyz 0) (rows iangles)
                  Hall 0%nat (allocate (shape0 iangles) (shape0 xyz) 0))
      as Hok.
    destruct (evaluate Angles xyz iangles 0) as [out|e] eqn:Hcall.
    + destruct (evaluate_feature Angles xyz iangles 0 out f _ Hcall Hrow)
        as (val & J & H & Hfeat & Hval & _).
      simpl feature_of in Hfeat.
      rewrite (angle_feature_value xyz [zm; zo; zn] am ao an) in Hfeat
        by assumption.
      injection Hfeat as <- _ _.
      apply evaluate_inv in Hcall as (_ & st & _ & ->).
      exists (vals st). split; [reflexivity|]. exact Hval.
    + exfalso.
      rewrite evaluate_run in Hcall by (auto; simpl; tauto).
      unfold bind in Hcall.
      destruct (for_features _ _ _ _) as [st|e'] eqn:Hrun; discriminate.
Qed.

(** Evaluates square roots of literal squares in the goal. *)
Ltac sqrt_literals :=
  repeat match goal with
  | |- context [R_sqrt.sqrt ?x] =>
      first
        [ replace x with 0 by lra; rewrite sqrt_0
        | replace x with 1 by lra; rewrite sqrt_1
        | replace x with (2 * 2) by lra; rewrite (sqrt_square 2) by lra ]
  end.

Lemma degenerate_angle_witness :
  (bond_angles Frames.collinear3 Frames.angle_012 1
   = Raise (ValueError "Sorry. I'll get back to this") /\
   exists vals,
     bond_angles Frames.collinear3 Frames.angle_012 0 = Ok (Values vals) /\
     nth 0 vals 0 = PI) /\
  (bond_angles Frames64.collinear3 Frames.angle_012 1
   = Raise (ValueError "Sorry. I'll get back to this") /\
   exists vals,
     bond_angles Frames64.collinear3 Frames.angle_012 0 = Ok (Values vals) /\
     nth 0 vals 0%float = Libm64.acos (-0x1.0000000000001p+0)%float).
Proof.
  split.
  - assert (Hu : norm3 (bond_u Frames.collinear3 0 1) <> 0).
    { real_eval. sqrt_literals. lra. }
    assert (Hv : norm3 (bond_u Frames.collinear3 2 1) <> 0).
    { real_eval. sqrt_literals. lra. }
    assert (Hz : norm3 (vadd (unit (bond_u Frames.collinear3 0 1))
                             (unit (bond_u Frames.collinear3 2 1))) = 0).
    { real_eval. sqrt_literals. reflexivity. }
    assert (Hdeg : degenerate (bond_u Frames.collinear3 0 1)
                              (bond_u Frames.collinear3 2 1)).
    { left. rewrite Hz. lra. }
    destruct (proj2 degenerate_angle Frames.collinear3 Frames.angle_012
                0%nat 0%Z 1%Z 2%Z 0%nat 1%nat 2%nat
                eq_refl eq_refl eq_refl eq_refl eq_refl eq_refl Hu Hv Hdeg)
      as [Hraise Hvalue].
    split.
    + apply Hraise; [now left|]. intros k row Hk. lia.
    + destruct Hvalue as (vals & Hcall & _ & _ & _ & _ & _ & Hpi).
      * intros row [<-|[]].
        exists 0%nat, 1%nat, 2%nat. repeat split; auto.
      * exists vals. split; [exact Hcall|]. apply Hpi, Hz.
  - destruct (proj1 degenerate_angle float Binary64.float_arith Libm64.tabulated
                Frames64.collinear3 Frames.angle_012
                0%nat 0%Z 1%Z 2%Z 0%nat 1%nat 2%nat
                eq_refl eq_refl eq_refl eq_refl eq_refl eq_refl
                ltac:(vm_compute; reflexivity) ltac:(vm_compute; reflexivity))
      as [Hraise Hvalue].
    split.
    + apply Hraise; [now left|]. intros k row Hk. lia.
    + destruct Hvalue as (vals & Hcall & Hval).
      * intros row [<-|[]] J H. vm_compute. reflexivity.
      * exists vals. split; [exact Hcall|].
        etransitivity; [exact Hval|]. vm_compute. reflexivity.
Defined.

(* ================================================================= *)
(** ** Force balance *)

Lemma length_zero_jslab n deriv :
  (1 <=? deriv)%Z = true -> length (zero_jslab n deriv : jslab R) = n.
Proof. intros E. unfold zero_jslab. rewrite E. apply repeat_length. Qed.

Lemma jacobian_of_order fam (xyz : ndarray2 R) idx deriv out j :
  evaluate fam xyz idx deriv = Ok out ->
  jacobian_of out = Some j ->
  (1 <=? deriv)%Z = true.
Proof.
  intros Hcall Hj.
  apply evaluate_inv in Hcall as ((_ & _ & [-> | [-> | ->]]) & st & _ & ->);
    [discriminate Hj| |]; reflexivity.
Qed.

Ltac vec_ring :=
  repeat match goal with v : vec3 R |- _ => destruct v end;
  apply vec3_ext; intros []; unfold_kernel; unfold Rdiv; ring.



(** A call of [bond_angles] on regular angles returns. *)
Lemma bond_angles_regular_ok (xyz : ndarray2 R) iangles deriv :
  shape1 xyz = 3%nat -> shape1 iangles = 3%nat ->
  (deriv = 0 \/ deriv = 1 \/ deriv = 2)%Z ->
  (forall row, In row (rows iangles) -> angle_regular xyz row) ->
  exists out, bond_angles xyz iangles deriv = Ok out.
Proof.
  intros Sx Si Hd Hall.
  change (bond_angles xyz iangles deriv)
    with (evaluate Angles xyz iangles deriv).
  rewrite evaluate_run by auto.
  pose proof (for_features_ok (feature_of Angles xyz deriv) (rows iangles))
    as Hok.
  specialize (Hok ltac:(intros r Hin J H;
    destruct (Hall r Hin) as (bm & bo & bn & Bm & Bo & Bn & Bu & Bv & Bnd);
    now apply (angle_feature_regular xyz r bm bo bn))
    0%nat (allocate (shape0 iangles) (shape0 xyz) deriv)).
  unfold bind.
  destruct (for_features _ _ _ _) as [st|e]; [|discriminate].
  now eexists.
Qed.

Lemma square4_angle_regular :
  angle_regular Frames.square4 [0%Z; 1%Z; 2%Z].
Proof.
  exists 0%nat, 1%nat, 2%nat.
  do 3 (split; [reflexivity|]).
  split; [real_eval; sqrt_literals; lra|].
  split; [real_eval; sqrt_literals; lra|].
  intros [Hd|Hd]; revert Hd; real_eval; sqrt_literals;
    match goal with
    | |- R_sqrt.sqrt ?x < _ -> False =>
        assert (1 <= R_sqrt.sqrt x)
          by (rewrite <- sqrt_1 at 1; apply sqrt_le_1_alt; lra)
    end; lra.
Qed.


(* ================================================================= *)
(** ** Binary64: force balance and degenerate angles *)

(** The Jacobian does not read the libm: whatever it is, on
    [Frames64.leaning4] the four rows of the dihedral sum, in the order
    [m], [o], [p], [n], to [2^-54] along the first axis, and on
    [Frames64.scalene3] the three rows of the angle, in the order [m],
    [o], [n], to [2^-57]. *)
Lemma rows_sum_any_libm (L : Libm float) :
  (exists v j,
      @dihedral_angles float _ L Frames64.leaning4 Frames.dihedral_0123 1
      = Ok (WithJacobian v j) /\
      fold_left vadd
        [jacobian_row j 0 0; jacobian_row j 0 1;
         jacobian_row j 0 2; jacobian_row j 0 3] vzero
      = V3 0x1p-54%float 0%float 0%float) /\
  (exists v j,
      @bond_angles float _ L Frames64.scalene3 Frames.angle_012 1
      = Ok (WithJacobian v j) /\
      fold_left vadd
        [jacobian_row j 0 0; jacobian_row j 0 1; jacobian_row j 0 2] vzero
      = V3 0x1p-57%float 0%float 0%float).
Proof.
  split; do 2 eexists; (split; [vm_compute; reflexivity|]);
    vm_compute; reflexivity.
Qed.


(** On the collinear atoms of [Frames64.collinear3], in binary64, the
    cosine that the code hands to [acos] is [-1.0000000000000002]:
    whatever the libm, the call of order 0 returns its [acos] of that,
    which C fixes as a NaN, and the call of order 1 raises. *)
Lemma collinear_any_libm (L : Libm float) :
  @bond_angles float _ L Frames64.collinear3 Frames.angle_012 0
  = Ok (Values [@facos float L (-0x1.0000000000001p+0)%float]) /\
  @bond_angles float _ L Frames64.collinear3 Frames.angle_012 1
  = Raise (ValueError "Sorry. I'll get back to this").
Proof. split; vm_compute; reflexivity. Qed.

(** C4 fails in binary64: on three collinear atoms, the vertex in the
    middle, the call of order 1 raises, but the call of order 0 returns
    nan, neither 0 nor pi. *)
Lemma degenerate_angle_nan :
  bond_angles Frames64.collinear3 Frames.angle_012 1
  = Raise (ValueError "Sorry. I'll get back to this") /\
  bond_angles Frames64.collinear3 Frames.angle_012 0 = Ok (Values [nan]) /\
  PrimFloat.eqb nan 0 = false /\ PrimFloat.eqb nan Libm64.pi = false.
Proof. repeat split; vm_compute; reflexivity. Qed.

(* ================================================================= *)
(** ** The value of a dihedral *)

Lemma atan_nonpos (z : R) : z <= 0 -> atan z <= 0.
Proof.
  intros [Hlt | ->]; [|rewrite atan_0; lra].
  pose proof (atan_increasing z 0 Hlt) as H. rewrite atan_0 in H. lra.
Qed.

Lemma atan_pos (z : R) : 0 < z -> 0 < atan z.
Proof.
  intros Hz. pose proof (atan_increasing 0 z Hz) as H.
  now rewrite atan_0 in H.
Qed.

(** [atan2] lies in (-PI, PI]. *)
Lemma atan2_range (y x : R) : - PI < atan2 y x <= PI.
Proof.
  pose proof PI_RGT_0 as Hpi.
  pose proof (atan_bound (y / x)) as [Hlo Hhi].
  unfold atan2.
  destruct (Rlt_dec 0 x) as [Hx|Hx]; [lra|].
  destruct (Rlt_dec x 0) as [Hx'|Hx'].
  - assert (Hinv : / x < 0) by now apply Rinv_lt_0_compat.
    destruct (Rle_dec 0 y) as [Hy|Hy].
    + assert (y / x <= 0) by (unfold Rdiv; nra).
      pose proof (atan_nonpos _ H). lra.
    + assert (0 < y / x) by (unfold Rdiv; nra).
      pose proof (atan_pos _ H). lra.
  - destruct (Rlt_dec 0 y); [lra|].
    destruct (Rlt_dec y 0); lra.
Qed.

Section DihedralValue.

Context {F : Type} {AF : Arith F} {LF : Libm F}.

(** The value that the body of [dihedral_angles] computes, at every
    order, is the formula of the specification. *)
Lemma dihedral_feature_value (xyz : ndarray2 F) deriv zm zo zp zn
      am ao ap an J0 H0 v J H :
  atom_of (shape0 xyz) zm = Ok am ->
  atom_of (shape0 xyz) zo = Ok ao ->
  atom_of (shape0 xyz) zp = Ok ap ->
  atom_of (shape0 xyz) zn = Ok an ->
  dihedral_feature xyz deriv [zm; zo; zp; zn] J0 H0 = Ok (v, J, H) ->
  v = Textbook.dihedral (xyz_row xyz am) (xyz_row xyz ao)
        (xyz_row xyz ap) (xyz_row xyz an).
Proof.
  intros Hm Ho Hp Hn. unfold dihedral_feature. simpl nth.
  unfold atom_of in Hm, Ho, Hp, Hn. rewrite Hm, Ho, Hn, Hp.
  cbv beta iota zeta delta [bind].
  intros [= <- _ _].
  unfold Textbook.dihedral, Textbook.dot, Textbook.cross, Textbook.norm,
    Textbook.sub, dot3, cross3, norm3, vsub, vmap2.
  reflexivity.
Qed.

End DihedralValue.

(** C3, as the code has it: the value returned for a dihedral
    [(m, o, p, n)] is
    [atan2 (dot (u, cross (v, w)) * |w|, dot (cross (v, w), cross (u, w)))]
    with [u = x[m] - x[o]], [v = x[n] - x[p]], [w = x[p] - x[o]], in
    the arithmetic of the code and with the [atan2] of its libm (no
    [acos] is involved); in real arithmetic it lies in (-PI, PI]. *)
Theorem dihedral_value :
  (forall (F : Type) (AF : Arith F) (LF : Libm F) (xyz : ndarray2 F)
          idihedrals deriv out f zm zo zp zn am ao ap an,
      dihedral_angles xyz idihedrals deriv = Ok out ->
      nth_error (rows idihedrals) f = Some [zm; zo; zp; zn] ->
      atom_of (shape0 xyz) zm = Ok am ->
      atom_of (shape0 xyz) zo = Ok ao ->
      atom_of (shape0 xyz) zp = Ok ap ->
      atom_of (shape0 xyz) zn = Ok an ->
      nth f (values_of out) (of_int 0)
      = Textbook.dihedral (xyz_row xyz am) (xyz_row xyz ao)
          (xyz_row xyz ap) (xyz_row xyz an)) /\
  (forall (xyz : ndarray2 R) idihedrals deriv out f row,
      dihedral_angles xyz idihedrals deriv = Ok out ->
      nth_error (rows idihedrals) f = Some row ->
      (- PI < nth f (values_of out) 0 <= PI)%R).
Proof.
  split.
  - intros F AF LF xyz idihedrals deriv out f zm zo zp zn am ao ap an
           Hcall Hrow Hm Ho Hp Hn.
    destruct (evaluate_feature Dihedrals xyz idihedrals deriv out f _
                Hcall Hrow)
      as (v & J & H & Hfeat & Hv & _).
    rewrite Hv.
    exact (dihedral_feature_value xyz deriv zm zo zp zn am ao ap an
             _ _ v J H Hm Ho Hp Hn Hfeat).
  - intros xyz idihedrals deriv out f row Hcall Hrow.
    destruct (evaluate_feature Dihedrals xyz idihedrals deriv out f _
                Hcall Hrow)
      as (v & J & H & Hfeat & Hv & _).
    simpl of_int in Hv. rewrite Hv.
    apply dihedral_feature_shape in Hfeat
      as (am & ao & ap & an & _ & _ & _ & _ & -> & _).
    apply atan2_range.
Qed.

Lemma dihedral_value_witness :
  exists out,
    dihedral_angles Frames.square4 Frames.dihedral_0123 0 = Ok out /\
    nth 0 (values_of out) 0%R
    = Textbook.dihedral (xyz_row Frames.square4 0) (xyz_row Frames.square4 1)
        (xyz_row Frames.square4 2) (xyz_row Frames.square4 3) /\
    (- PI < nth 0 (values_of out) 0 <= PI)%R.
Proof.
  eexists. split; [reflexivity|]. split.
  - exact (proj1 dihedral_value R _ _ Frames.square4 Frames.dihedral_0123
             0%Z _ 0%nat 0%Z 1%Z 2%Z 3%Z 0%nat 1%nat 2%nat 3%nat
             eq_refl eq_refl eq_refl eq_refl eq_refl eq_refl).
  - exact (proj2 dihedral_value Frames.square4 Frames.dihedral_0123
             0%Z _ 0%nat [0; 1; 2; 3]%Z eq_refl eq_refl).
Defined.

(** On the planar trans chain [Frames64.trans4], in binary64, the first
    argument of [atan2] is [-0.0] and the second is [-1]: whatever the
    libm, the call returns its [atan2 (-0.0, -1.0)], which C fixes as
    [-pi]. *)
Lemma trans_chain_any_libm (L : Libm float) :
  @dihedral_angles float _ L Frames64.trans4 Frames.dihedral_0123 0
  = Ok (Values [@fatan2 float L (-0)%float (-1)%float]).
Proof. vm_compute. reflexivity. Qed.

(** C3 fails in binary64: on the planar trans chain [Frames64.trans4]
    the call returns [-pi], which is not in the range (-pi, pi]:
    [-pi < -pi] is false. *)
Lemma dihedral_value_minus_pi :
  dihedral_angles Frames64.trans4 Frames.dihedral_0123 0
  = Ok (Values [(- Libm64.pi)%float]) /\
  PrimFloat.ltb (- Libm64.pi) (- Libm64.pi) = false.
Proof. split; vm_compute; reflexivity. Qed.

(* ================================================================= *)
(** ** Symmetry of the Hessian of bonds and angles *)

Lemma square_angle_block k m o n t1 t2 t3 t4 p q (H : hslab R) :
  square k H -> square k (angle_block m o n t1 t2 t3 t4 p q H).
Proof.
  intros Hsq. destruct p as [za x], q as [zb y]. unfold angle_block.
  repeat case_if; solve_square.
Qed.

Lemma hget_angle_block k m o n t1 t2 t3 t4 za x zb y (H : hslab R) a b :
  square k H -> (x < k)%nat -> (y < k)%nat ->
  hget (angle_block m o n t1 t2 t3 t4 (za, x) (zb, y) H) a b
  = if (a =? x)%nat && (b =? y)%nat
    then angle_sum m o n t1 t2 t3 t4 za zb (hget H a b)
    else hget H a b.
Proof.
  intros Hsq Hx Hy. unfold angle_block, angle_sum.
  destruct ((a =? x)%nat && (b =? y)%nat) eqn:Hab;
    repeat case_if;
    repeat (rewrite (hget_hadd k) by (solve_square || assumption);
            rewrite Hab);
    reflexivity.
Qed.

Lemma mT_entries (M N : mat3 R) :
  mT M = N -> forall i j, mget M i j = mget N j i.
Proof. intros <- [] []; reflexivity. Qed.

Lemma sign3_first (i k : Z) : sign3 i i k = 1%Z.
Proof. unfold sign3. now rewrite Z.eqb_refl. Qed.

Lemma sign3_second (i j : Z) : i <> j -> sign3 i j i = (- 1)%Z.
Proof.
  intros Hne. unfold sign3.
  rewrite (proj2 (Z.eqb_neq i j) Hne). now rewrite Z.eqb_refl.
Qed.

Lemma sign3_neither (i j k : Z) : i <> j -> i <> k -> sign3 i j k = 0%Z.
Proof.
  intros H1 H2. unfold sign3.
  now rewrite (proj2 (Z.eqb_neq i j) H1), (proj2 (Z.eqb_neq i k) H2).
Qed.

Lemma mget_madd (A B : mat3 R) i j :
  mget (madd A B) i j = mget A i j + mget B i j.
Proof. destruct A as [[] [] []], B as [[] [] []], i, j; reflexivity. Qed.

Lemma mget_smulm (c : R) (A : mat3 R) i j :
  mget (smulm c A) i j = c * mget A i j.
Proof. destruct A as [[] [] []], i, j; reflexivity. Qed.

Lemma mget_mneg (A : mat3 R) i j : mget (mneg A) i j = - mget A i j.
Proof. destruct A as [[] [] []], i, j; reflexivity. Qed.

(** For three distinct indices, and four matrices as [bond_angles]
    builds them, what is added to the block [(a, b)] is the transpose of
    what is added to the block [(b, a)]. *)
Lemma angle_sum_transpose (m o n : Z) t1 t2 t3 t4 za zb M N :
  m <> o -> m <> n -> o <> n ->
  In za [m; n; o] -> In zb [m; n; o] ->
  mT t1 = t1 -> mT t2 = t2 -> mT t3 = t4 ->
  (forall i j, mget M i j = mget N j i) ->
  forall i j,
    mget (angle_sum m o n t1 t2 t3 t4 za zb M) i j
    = mget (angle_sum m o n t1 t2 t3 t4 zb za N) j i.
Proof.
  intros Hmo Hmn Hon Hza Hzb S1 S2 S3 HMN i j.
  pose proof (mT_entries _ _ S1 i j) as E1.
  pose proof (mT_entries _ _ S2 i j) as E2.
  pose proof (mT_entries _ _ S3 i j) as E3.
  pose proof (mT_entries _ _ S3 j i) as E4.
  assert (Hom : o <> m) by congruence. assert (Hnm : n <> m) by congruence.
  assert (Hno : n <> o) by congruence.
  simpl in Hza, Hzb.
  destruct Hza as [<-|[<-|[<-|[]]]]; destruct Hzb as [<-|[<-|[<-|[]]]];
    unfold angle_sum, sign6;
    rewrite ?sign3_first, ?(sign3_second o m), ?(sign3_second o n),
      ?(sign3_neither m n o), ?(sign3_neither n m o) by assumption;
    simpl Z.mul; simpl Z.eqb; simpl negb; cbv iota;
    rewrite ?mget_madd, ?mget_smulm, (HMN i j), ?E1, ?E2, ?E3, <- ?E4;
    ring.
Qed.

Lemma raw_at_in atoms a z : raw_at atoms a = Some z -> In z (map fst atoms).
Proof.
  induction atoms as [|[z' x] rest IH]; simpl; [discriminate|].
  destruct (a =? x)%nat; [intros [= ->]; now left|].
  intros Hr. right. now apply IH.
Qed.

Lemma scaled_outer_transpose (c : R) (J : jslab R) a b i j :
  mget (hget (scaled_outer c J) a b) i j
  = mget (hget (scaled_outer c J) b a) j i.
Proof.
  destruct (Nat.lt_ge_cases a (length J)) as [Ha|Ha];
    [|rewrite !hget_scaled_outer_out by first [now left | now right];
      now destruct i, j].
  destruct (Nat.lt_ge_cases b (length J)) as [Hb|Hb];
    [|rewrite !hget_scaled_outer_out by first [now left | now right];
      now destruct i, j].
  rewrite !hget_scaled_outer by assumption.
  generalize (jget J a) (jget J b). intros [] [].
  destruct i, j; unfold_kernel; ring.
Qed.

Lemma atom_of_injective n z z' a a' :
  atom_of n z = Ok a -> atom_of n z' = Ok a' -> a <> a' ->
  CInt.wrap z <> CInt.wrap z'.
Proof. unfold atom_of. intros H1 H2 Hne Heq. rewrite Heq in H1. congruence. Qed.

(** X20: the Hessian of [bond_lengths] is symmetric (real arithmetic).
    For a bond between two different atoms, in a call of order 2 that
    returns, [hessian[f, a, i, b, j] = hessian[f, b, j, a, i]] for all
    atoms [a], [b] and axes [i], [j]. *)
Lemma bond_lengths_hessian_symmetric
      (xyz : ndarray2 R) ibonds out h f zm zn am an :
  bond_lengths xyz ibonds 2 = Ok out ->
  hessian_of out = Some h ->
  nth_error (rows ibonds) f = Some [zm; zn] ->
  atom_of (shape0 xyz) zm = Ok am ->
  atom_of (shape0 xyz) zn = Ok an ->
  am <> an ->
  forall a i b j, hessian_at h f a i b j = hessian_at h f b j a i.
Proof.
  intros Hcall Hh Hrow Hm Hn Hne a i b j.
  destruct (evaluate_feature Bonds xyz ibonds 2 out f _ Hcall Hrow)
    as (v & J & H & Hfeat & _ & _ & HH).
  unfold hessian_at, hessian_block. rewrite (HH h Hh).
  apply bond_feature_shape in Hfeat
    as (am' & an' & Hm' & Hn' & _ & _ & HHs).
  simpl nth in Hm', Hn'.
  assert (am' = am) by congruence. assert (an' = an) by congruence.
  subst am' an'.
  destruct HHs as [[E _]|[_ (T & ST & ->)]]; [discriminate E|].
  pose proof (atom_of_lt _ _ _ Hm) as Lm.
  pose proof (atom_of_lt _ _ _ Hn) as Ln.
  pose proof (mT_entries _ _ ST) as ET.
  unfold zero_hslab. simpl Z.eqb. cbv iota.
  repeat (rewrite (hget_hset (shape0 xyz)) by (solve_square || assumption)).
  destruct (Nat.eqb_spec a am), (Nat.eqb_spec a an),
    (Nat.eqb_spec b am), (Nat.eqb_spec b an); subst; simpl;
    try congruence;
    rewrite ?hget_zeros, ?mget_mneg, ?(ET i j); try reflexivity;
    now destruct i, j.
Qed.

(** X21: the Hessian of [bond_angles] is symmetric (real arithmetic).
    For an angle of three different atoms, in a call of order 2 that
    returns, [hessian[f, a, i, b, j] = hessian[f, b, j, a, i]] for all
    atoms [a], [b] and axes [i], [j]. *)
Lemma bond_angles_hessian_symmetric
      (xyz : ndarray2 R) iangles out h f zm zo zn am ao an :
  bond_angles xyz iangles 2 = Ok out ->
  hessian_of out = Some h ->
  nth_error (rows iangles) f = Some [zm; zo; zn] ->
  atom_of (shape0 xyz) zm = Ok am ->
  atom_of (shape0 xyz) zo = Ok ao ->
  atom_of (shape0 xyz) zn = Ok an ->
  am <> ao -> am <> an -> ao <> an ->
  forall a i b j, hessian_at h f a i b j = hessian_at h f b j a i.
Proof.
  intros Hcall Hh Hrow Hm Ho Hn Hmo Hmn Hon a i b j.
  destruct (evaluate_feature Angles xyz iangles 2 out f _ Hcall Hrow)
    as (v & J & H & Hfeat & _ & _ & HH).
  unfold hessian_at, hessian_block. rewrite (HH h Hh).
  apply angle_feature_shape in Hfeat
    as (am' & ao' & an' & Hm' & Ho' & Hn' & HJs & HHs).
  simpl nth in Hm', Ho', Hn', HHs.
  assert (am' = am) by congruence. assert (ao' = ao) by congruence.
  assert (an' = an) by congruence. subst am' ao' an'.
  destruct HJs as [[E _]|[_ (t0 & t1' & HJ)]]; [discriminate E|].
  destruct HHs as [[E _]|[_ (c & t1 & t2 & t3 & t4 & S1 & S2 & S3 & ->)]];
    [discriminate E|].
  pose proof (atom_of_lt _ _ _ Hm) as Lm.
  pose proof (atom_of_lt _ _ _ Ho) as Lo.
  pose proof (atom_of_lt _ _ _ Hn) as Ln.
  assert (LJ : length J = shape0 xyz).
  { rewrite HJ, !length_upd. now apply length_zero_jslab. }
  pose proof (square_scaled_outer c J) as Hsq. rewrite LJ in Hsq.
  set (m := CInt.wrap zm). set (o := CInt.wrap zo). set (n := CInt.wrap zn).
  assert (Hall : Forall (fun q : Z * nat => (snd q < shape0 xyz)%nat)
                   [(m, am); (n, an); (o, ao)]).
  { repeat constructor; assumption. }
  assert (Hnd : NoDup (map snd [(m, am); (n, an); (o, ao)])).
  { simpl. repeat constructor; simpl; intuition congruence. }
  rewrite !(for_pairs_get (shape0 xyz)
              (angle_block m o n t1 t2 t3 t4)
              (angle_sum m o n t1 t2 t3 t4)
              (fun p q H => square_angle_block _ m o n t1 t2 t3 t4 p q H)
              (fun za x zb y H a b =>
                 hget_angle_block _ m o n t1 t2 t3 t4 za x zb y H a b)
              _ _ _ _ Hsq Hall Hnd).
  destruct (raw_at _ a) as [za|] eqn:Ea; destruct (raw_at _ b) as [zb|] eqn:Eb;
    try apply scaled_outer_transpose.
  apply raw_at_in in Ea, Eb. simpl map in Ea, Eb.
  apply angle_sum_transpose; auto.
  - exact (atom_of_injective _ _ _ _ _ Hm Ho Hmo).
  - exact (atom_of_injective _ _ _ _ _ Hm Hn Hmn).
  - exact (atom_of_injective _ _ _ _ _ Ho Hn Hon).
  - intros i' j'. apply scaled_outer_transpose.
Qed.

(* ================================================================= *)
(** ** The Hessian of dihedrals *)

(** C1, the dihedrals: on the four atoms of [Frames.square4] the block
    [hessian[0, 0, :, 1, :]] holds 0 at [1, 2] where the block
    [hessian[0, 1, :, 0, :]] holds -1 at [2, 1]. *)
Theorem dihedral_hessian_not_symmetric :
  exists v j h,
    dihedral_angles Frames.square4 Frames.dihedral_0123 2
    = Ok (WithHessian v j h) /\
    hessian_at h 0 0 X1 1 X2 = 0 /\
    hessian_at h 0 1 X2 0 X1 = -1.
Proof.
  do 3 eexists. split; [reflexivity|].
  split; real_eval; sqrt_literals; lra.
Qed.

(* ================================================================= *)
(** ** Bonds between coincident atoms *)

Section BondLengths.

Context {F : Type} {AF : Arith F}.

Lemma bond_feature_ok (xyz : ndarray2 F) deriv row J0 H0 :
  resolvable 2 (shape0 xyz) row ->
  is_ok (bond_feature xyz deriv row J0 H0) = true.
Proof.
  intros Hres. unfold bond_feature.
  destruct (Hres 0%nat ltac:(lia)) as [am Hm].
  destruct (Hres 1%nat ltac:(lia)) as [an Hn].
  unfold atom_of in Hm, Hn. rewrite Hm, Hn. reflexivity.
Qed.

Lemma bond_feature_value (xyz : ndarray2 F) deriv zm zn am an J0 H0 v J H :
  atom_of (shape0 xyz) zm = Ok am ->
  atom_of (shape0 xyz) zn = Ok an ->
  bond_feature xyz deriv [zm; zn] J0 H0 = Ok (v, J, H) ->
  v = norm3 (vsub (xyz_row xyz am) (xyz_row xyz an)).
Proof.
  intros Hm Hn. unfold bond_feature. simpl nth.
  unfold atom_of in Hm, Hn. rewrite Hm, Hn. unfold bind.
  now intros [= <- _ _].
Qed.

(** The two rows that the body of [bond_lengths] writes at order 1
    or 2. *)
Lemma bond_feature_rows (xyz : ndarray2 F) deriv zm zn am an J0 H0 v J H :
  atom_of (shape0 xyz) zm = Ok am ->
  atom_of (shape0 xyz) zn = Ok an ->
  (1 <=? deriv)%Z = true ->
  bond_feature xyz deriv [zm; zn] J0 H0 = Ok (v, J, H) ->
  let u := vsub (xyz_row xyz am) (xyz_row xyz an) in
  J = upd an (vneg (vdivs u (norm3 u))) (upd am (vdivs u (norm3 u)) J0).
Proof.
  intros Hm Hn Hd. unfold bond_feature. simpl nth.
  unfold atom_of in Hm, Hn. rewrite Hm, Hn. unfold bind. rewrite Hd.
  now intros [= _ <- _].
Qed.

Lemma bond_lengths_run (xyz : ndarray2 F) ibonds deriv :
  shape1 xyz = 3%nat -> shape1 ibonds = 2%nat ->
  (deriv = 0 \/ deriv = 1 \/ deriv = 2)%Z ->
  bond_lengths xyz ibonds deriv =
  (st <- for_features (bond_feature xyz deriv) 0 (rows ibonds)
           (allocate (shape0 ibonds) (shape0 xyz) deriv) ;;
   Ok (returned deriv st)).
Proof.
  intros H1 H2 H3. unfold bond_lengths.
  rewrite (proj2 (check_args_ok "ibonds must have 2 columns." 2
                    xyz ibonds deriv)) by auto.
  reflexivity.
Qed.

(** [bond_lengths] has no test on the geometry: with well-shaped
    arrays, an order in [{0, 1, 2}] and indices that designate atoms, a
    call returns; the value of a bond is the norm of the difference of
    its two positions, and at order 1 or 2 its Jacobian slice is that of
    zeros with the rows [u / |u|] at [m] and then [- u / |u|] at [n]
    written. *)
Lemma bond_lengths_returns {LF : Libm F} (xyz : ndarray2 F) ibonds deriv f
      zm zn am an :
  shape1 xyz = 3%nat -> shape1 ibonds = 2%nat ->
  (deriv = 0 \/ deriv = 1 \/ deriv = 2)%Z ->
  (forall row, In row (rows ibonds) -> resolvable 2 (shape0 xyz) row) ->
  nth_error (rows ibonds) f = Some [zm; zn] ->
  atom_of (shape0 xyz) zm = Ok am ->
  atom_of (shape0 xyz) zn = Ok an ->
  let u := vsub (xyz_row xyz am) (xyz_row xyz an) in
  exists out,
    bond_lengths xyz ibonds deriv = Ok out /\
    nth f (values_of out) (of_int 0) = norm3 u /\
    forall j, jacobian_of out = Some j ->
      nth f j []
      = upd an (vneg (vdivs u (norm3 u)))
          (upd am (vdivs u (norm3 u)) (repeat vzero (shape0 xyz))).
Proof.
  intros Sx Si Hd Hall Hrow Hm Hn u.
  pose proof (bond_lengths_run xyz ibonds deriv Sx Si Hd) as Erun.
  pose proof (for_features_ok (bond_feature xyz deriv) (rows ibonds)
                ltac:(intros r Hin J H; apply bond_feature_ok; auto)
                0%nat (allocate (shape0 ibonds) (shape0 xyz) deriv)) as Hok.
  unfold bind in Erun.
  destruct (for_features _ _ _ _) as [st|e] eqn:Hrun; [|discriminate].
  exists (returned deriv st). split; [exact Erun|].
  assert (Hcall : evaluate Bonds xyz ibonds deriv = Ok (returned deriv st))
    by exact Erun.
  destruct (evaluate_feature Bonds xyz ibonds deriv _ f _ Hcall Hrow)
    as (v & J & H & Hfeat & Hv & HJ & _).
  simpl feature_of in Hfeat.
  split.
  - rewrite Hv.
    exact (bond_feature_value xyz deriv zm zn am an _ _ v J H Hm Hn Hfeat).
  - intros j Hj. rewrite (HJ j Hj).
    assert (Hd1 : (1 <=? deriv)%Z = true).
    { destruct Hd as [-> | [-> | ->]]; [discriminate Hj| |]; reflexivity. }
    rewrite (bond_feature_rows xyz deriv zm zn am an _ _ v J H
               Hm Hn Hd1 Hfeat).
    unfold zero_jslab. now rewrite Hd1.
Qed.

End BondLengths.

(** *** Doubles *)

Lemma finite_cases (x : float) :
  PrimFloat.is_finite x = true ->
  (exists s, Prim2SF x = S754_zero s) \/
  (exists s m e, Prim2SF x = S754_finite s m e).
Proof.
  unfold PrimFloat.is_finite, PrimFloat.is_nan, PrimFloat.is_infinity.
  rewrite !FloatAxioms.eqb_spec, abs_spec.
  destruct (Prim2SF x) as [s| s | |s m e] eqn:E.
  - intros _. left. now exists s.
  - simpl. intros H. exfalso. revert H. now destruct s.
  - simpl. discriminate.
  - intros _. right. now exists s, m, e.
Qed.

(** A finite double minus itself is [+0]. *)
Lemma sub_self (x : float) :
  PrimFloat.is_finite x = true -> PrimFloat.sub x x = 0%float.
Proof.
  intros Hf. apply Prim2SF_inj. rewrite sub_spec.
  destruct (finite_cases x Hf) as [[s ->]|(s & m & e & ->)].
  - now destruct s.
  - unfold SF64sub, SFsub. cbv zeta. rewrite Z.min_id.
    unfold shl_align.
    match goal with
    | |- binary_normalize _ _ ?d _ _ = _ =>
        replace d with 0%Z; [reflexivity|]
    end.
    symmetry. apply (Z.sub_diag _).
Qed.

Lemma vsub_self (x : vec3 float) :
  Frames64.finite3 x -> vsub x x = V3 0%float 0%float 0%float.
Proof.
  intros (H0 & H1 & H2). destruct x as [x0 x1 x2]. simpl in *.
  unfold vsub, vmap2. simpl.
  now rewrite (sub_self x0 H0), (sub_self x1 H1), (sub_self x2 H2).
Qed.

(** C5, as the code has it: [bond_lengths] has no test for coincident
    atoms.  With well-shaped arrays, an order in [{0, 1, 2}] and
    indices that designate atoms, a call returns at every order; for a
    bond between two atoms at the same place, of finite coordinates,
    the value is the norm of the zero difference, 0, and at order 1 or 2
    the Jacobian rows at its two atoms are that difference divided by
    that norm, nan. *)
Theorem coincident_bond_returns (xyz : ndarray2 float) ibonds deriv f
        zm zn am an :
  shape1 xyz = 3%nat -> shape1 ibonds = 2%nat ->
  (deriv = 0 \/ deriv = 1 \/ deriv = 2)%Z ->
  (forall row, In row (rows ibonds) -> resolvable 2 (shape0 xyz) row) ->
  nth_error (rows ibonds) f = Some [zm; zn] ->
  atom_of (shape0 xyz) zm = Ok am ->
  atom_of (shape0 xyz) zn = Ok an ->
  xyz_row xyz am = xyz_row xyz an ->
  Frames64.finite3 (xyz_row xyz am) ->
  exists out,
    bond_lengths xyz ibonds deriv = Ok out /\
    nth f (values_of out) 0%float = 0%float /\
    forall j, jacobian_of out = Some j ->
      jacobian_row j f am = V3 nan nan nan /\
      jacobian_row j f an = V3 nan nan nan.
Proof.
  intros Sx Si Hd Hall Hrow Hm Hn Hsame Hfin.
  destruct (bond_lengths_returns xyz ibonds deriv f zm zn am an
              Sx Si Hd Hall Hrow Hm Hn) as (out & Hcall & Hval & Hjac).
  rewrite <- Hsame, (vsub_self _ Hfin) in Hval, Hjac.
  exists out. split; [exact Hcall|]. split; [exact Hval|].
  intros j Hj. unfold jacobian_row. rewrite (Hjac j Hj).
  pose proof (atom_of_lt _ _ _ Hm) as Lm.
  pose proof (atom_of_lt _ _ _ Hn) as Ln.
  rewrite !jget_upd, !length_upd, repeat_length.
  rewrite (proj2 (Nat.ltb_lt _ _) Lm), (proj2 (Nat.ltb_lt _ _) Ln).
  rewrite !Nat.eqb_refl. simpl andb. cbv iota.
  split; [|reflexivity].
  destruct (am =? an)%nat; reflexivity.
Qed.

(** C5 fails: on two coincident atoms, in binary64, the call of order 1
    raises nothing; it returns the length 0 and Jacobian rows of nan. *)
Lemma coincident_bond_returns_nan :
  bond_lengths Frames.coincident2 Frames.bond_01 1
  = Ok (WithJacobian [0%float]
          [[V3 nan nan nan; V3 nan nan nan]]).
Proof. vm_compute. reflexivity. Qed.

Lemma coincident_bond_returns_witness :
  exists out,
    bond_lengths Frames.coincident2 Frames.bond_01 1 = Ok out /\
    nth 0 (values_of out) 0%float = 0%float /\
    forall j, jacobian_of out = Some j ->
      jacobian_row j 0 0 = V3 nan nan nan /\
      jacobian_row j 0 1 = V3 nan nan nan.
Proof.
  apply (coincident_bond_returns Frames.coincident2 Frames.bond_01 1
           0 0%Z 1%Z 0 1 eq_refl eq_refl); try reflexivity.
  - auto.
  - intros row [<-|[]] [|[|c]] Hc; try lia; eexists; reflexivity.
  - repeat split; reflexivity.
Defined.

(* ================================================================= *)
(** ** Indices out of range *)






(* ================================================================= *)
(** * Further properties *)

Local Close Scope R_scope.

(* ================================================================= *)
(** ** What a call checks before it computes *)

(** X1: once the arguments are converted (the order must fit a C int:
    the conversion raises [OverflowError] otherwise, before the body
    runs), the three evaluators test them in the same order, before any
    index is read: a frame whose last dimension is not 3 raises the
    [TypeError] on [xyz], whatever the other arguments are; then an
    index array with the wrong number of columns raises the [TypeError]
    that names it; then an order other than 0, 1 or 2 raises the
    [ValueError]. *)
Theorem argument_errors {F : Type} {AF : Arith F} {LF : Libm F}
        (fam : family) (xyz : ndarray2 F) (idx : ndarray2 Z) (deriv : Z) :
  (- 2 ^ 31 <= deriv < 2 ^ 31)%Z ->
  (shape1 xyz <> 3%nat ->
   evaluate fam xyz idx deriv
   = Raise (TypeError "xyz must be of length 3 in the last dimension.")) /\
  (shape1 xyz = 3%nat -> shape1 idx <> arity fam ->
   evaluate fam xyz idx deriv = Raise (TypeError (columns_message fam))) /\
  (shape1 xyz = 3%nat -> shape1 idx = arity fam ->
   deriv <> 0%Z -> deriv <> 1%Z -> deriv <> 2%Z ->
   evaluate fam xyz idx deriv = Raise (ValueError "deriv must be 0, 1, 2")).
Proof.
  intros _.
  rewrite evaluate_unfold. unfold check_args.
  repeat split.
  - intros Hx. apply Nat.eqb_neq in Hx. now rewrite Hx.
  - intros Hx Hi. apply Nat.eqb_neq in Hi.
    now rewrite Hx, Hi.
  - intros Hx Hi H0 H1 H2.
    apply Z.eqb_neq in H0, H1, H2.
    rewrite Hx, Hi, !Nat.eqb_refl, H0, H1, H2. reflexivity.
Qed.

Lemma argument_errors_witness :
  bond_lengths (NdArray2 2 [[1; 2]; [4; 6]]%R) Frames.bond_0_7 5
  = Raise (TypeError "xyz must be of length 3 in the last dimension.") /\
  bond_angles Frames.square4 Frames.bond_0_7 5
  = Raise (TypeError "iangles must have 3 columns.") /\
  dihedral_angles Frames.square4 Frames.dihedral_0123 3
  = Raise (ValueError "deriv must be 0, 1, 2").
Proof.
  split; [|split].
  - apply (proj1 (argument_errors Bonds (NdArray2 2 [[1; 2]; [4; 6]]%R)
                    Frames.bond_0_7 5 ltac:(lia))).
    discriminate.
  - apply (proj1 (proj2 (argument_errors Angles Frames.square4
                           Frames.bond_0_7 5 ltac:(lia))));
      [reflexivity|discriminate].
  - apply (proj2 (proj2 (argument_errors Dihedrals Frames.square4
                           Frames.dihedral_0123 3 ltac:(lia))));
      try reflexivity; discriminate.
Defined.

(** X2: on an index array with no row, a call with a well-shaped frame
    and a valid order returns at once: an empty array of values, and an
    empty Jacobian and Hessian at the orders that return them.  The
    frame may hold any number of atoms, none included. *)
Theorem empty_index_array {F : Type} {AF : Arith F} {LF : Libm F}
        (fam : family) (xyz : ndarray2 F) (idx : ndarray2 Z) :
  shape1 xyz = 3%nat -> shape1 idx = arity fam -> rows idx = [] ->
  evaluate fam xyz idx 0 = Ok (Values []) /\
  evaluate fam xyz idx 1 = Ok (WithJacobian [] []) /\
  evaluate fam xyz idx 2 = Ok (WithHessian [] [] []).
Proof.
  intros Hx Hi Hrows. rewrite !evaluate_unfold. unfold check_args, shape0.
  rewrite Hx, Hi, Hrows, !Nat.eqb_refl. simpl. auto.
Qed.

Lemma empty_index_array_witness :
  evaluate Angles Frames.square4 (NdArray2 3 []) 0 = Ok (Values []) /\
  evaluate Angles Frames.square4 (NdArray2 3 []) 1
  = Ok (WithJacobian [] []) /\
  evaluate Angles Frames.square4 (NdArray2 3 []) 2
  = Ok (WithHessian [] [] []).
Proof.
  exact (@empty_index_array R _ _ Angles Frames.square4 (NdArray2 3 [])
           eq_refl eq_refl eq_refl).
Defined.

(* ================================================================= *)
(** ** The shape of what a call returns *)

Section Shapes.

Context {F : Type} {AF : Arith F} {LF : Libm F}.

(** A call whose arguments pass the checks is its loop. *)
Lemma evaluate_checked fam (xyz : ndarray2 F) idx deriv :
  shape1 xyz = 3 -> shape1 idx = arity fam ->
  (deriv = 0 \/ deriv = 1 \/ deriv = 2)%Z ->
  evaluate fam xyz idx deriv =
  (st <- for_features (feature_of fam xyz deriv) 0 (rows idx)
           (allocate (shape0 idx) (shape0 xyz) deriv) ;;
   Ok (returned deriv st)).
Proof.
  intros H1 H2 H3. rewrite evaluate_unfold.
  rewrite (proj2 (check_args_ok (columns_message fam) (arity fam)
                    xyz idx deriv)) by auto.
  reflexivity.
Qed.

Lemma for_pairs_square n (atoms : list (Z * nat))
      (body : Z * nat -> Z * nat -> hslab F -> hslab F) (H : hslab F) :
  (forall p q H', square n H' -> square n (body p q H')) ->
  square n H -> square n (for_pairs atoms body H).
Proof.
  intros Hbody. unfold for_pairs.
  assert (Hin : forall p l H', square n H' ->
                  square n (fold_left (fun s q => body p q s) l H')).
  { intros p l. induction l as [|q l IH]; intros H' Hsq; simpl; auto. }
  generalize atoms at 2. intros ps. revert H.
  induction ps as [|p ps IH]; intros H Hsq; simpl; auto.
Qed.

Lemma angle_block_square n m o k t1 t2 t3 t4 p q (H : hslab F) :
  square n H -> square n (angle_block m o k t1 t2 t3 t4 p q H).
Proof.
  intros Hsq. destruct p as [za x], q as [zb y]. unfold angle_block.
  repeat case_if; solve_square.
Qed.

Lemma dihedral_block_square n m o p k t1 t2 t3 t4 t5 t6 t7 r q (H : hslab F) :
  square n H -> square n (dihedral_block m o p k t1 t2 t3 t4 t5 t6 t7 r q H).
Proof. intros Hsq. unfold dihedral_block. now apply square_hset. Qed.

(** A loop body keeps the number of rows of the slice of the Jacobian,
    and leaves the slice of the Hessian it was given, or a square one. *)
Lemma feature_keeps_shape fam (xyz : ndarray2 F) deriv row J0 H0 v J H :
  feature_of fam xyz deriv row J0 H0 = Ok (v, J, H) ->
  length J = length J0 /\
  (square (length J0) H0 -> square (length J0) H).
Proof.
  destruct fam; simpl;
    unfold bond_feature, angle_feature, dihedral_feature; intros Hfeat.
  - destruct (py_index _ _) as [am|]; [|discriminate].
    destruct (py_index _ _) as [an|]; [|discriminate].
    simpl in Hfeat. injection Hfeat as <- <- <-. split.
    + case_if; now rewrite ?length_upd.
    + intros Hsq. case_if; [solve_square|assumption].
  - destruct (py_index _ _) as [am|]; [|discriminate].
    destruct (py_index _ _) as [ao|]; [|discriminate].
    destruct (py_index _ _) as [an|]; [|discriminate].
    cbv beta iota zeta delta [bind] in Hfeat.
    destruct (cdiv _ _) as [q|]; [|discriminate].
    destruct (1 <=? deriv)%Z eqn:E1.
    + destruct (_ || _)%bool; [discriminate|].
      destruct (deriv =? 2)%Z eqn:E2.
      * destruct (cdiv _ _) as [c|]; [|discriminate].
        injection Hfeat as <- <- <-.
        rewrite !length_upd. split; [reflexivity|]. intros _.
        apply for_pairs_square; [intros; now apply angle_block_square|].
        match goal with
        | |- square _ (scaled_outer ?c ?J) =>
            pose proof (square_scaled_outer c J) as Hsq
        end.
        now rewrite !length_upd in Hsq.
      * injection Hfeat as <- <- <-.
        rewrite !length_upd. auto.
    + destruct (deriv =? 2)%Z eqn:E2; [bool_to_Z; lia|].
      injection Hfeat as <- <- <-. auto.
  - destruct (py_index _ _) as [am|]; [|discriminate].
    destruct (py_index _ _) as [ao|]; [|discriminate].
    destruct (py_index _ _) as [an|]; [|discriminate].
    destruct (py_index _ _) as [ap|]; [|discriminate].
    cbv beta iota zeta delta [bind] in Hfeat.
    injection Hfeat as <- <- <-. split.
    + case_if; now rewrite ?length_upd.
    + intros Hsq. case_if; [|assumption].
      apply for_pairs_square; [intros; now apply dihedral_block_square|].
      assumption.
Qed.

Lemma nth_error_lt {A} (l : list A) f :
  f < length l -> exists x, nth_error l f = Some x.
Proof.
  intros Hf. destruct (nth_error l f) as [x|] eqn:E; [now exists x|].
  apply nth_error_None in E. lia.
Qed.

(** The lengths of the three arrays, and the shape of every slice, after
    a loop that returned. *)
Lemma evaluate_lengths fam (xyz : ndarray2 F) idx deriv st :
  (deriv = 0 \/ deriv = 1 \/ deriv = 2)%Z ->
  for_features (feature_of fam xyz deriv) 0 (rows idx)
    (allocate (shape0 idx) (shape0 xyz) deriv) = Ok st ->
  length (vals st) = shape0 idx /\
  ((1 <=? deriv)%Z = true ->
   length (jac st) = shape0 idx /\
   forall f, f < shape0 idx -> length (nth f (jac st) []) = shape0 xyz) /\
  ((deriv =? 2)%Z = true ->
   length (hess st) = shape0 idx /\
   forall f, f < shape0 idx -> square (shape0 xyz) (nth f (hess st) [])).
Proof.
  intros Hd Hrun.
  destruct (allocate_lengths (F := F) (shape0 idx) (shape0 xyz) deriv)
    as (Lv & Lj & Lh).
  apply for_features_inv in Hrun as ((Ev & Ej & Eh) & _ & Hat).
  split; [congruence|].
  assert (Hslice : forall f, f < shape0 idx ->
            exists v J H,
              feature_of fam xyz deriv
                (nth f (rows idx) []) (zero_jslab (shape0 xyz) deriv)
                (zero_hslab (shape0 xyz) deriv) = Ok (v, J, H) /\
              ((1 <=? deriv)%Z = true -> nth f (jac st) [] = J) /\
              ((deriv =? 2)%Z = true -> nth f (hess st) [] = H)).
  { intros f Hf. destruct (nth_error_lt (rows idx) f Hf) as [row Hrow].
    destruct (Hat f row Hrow) as (v & J & H & Hfeat & _ & Hj & Hh).
    change (0 + f) with f in *.
    destruct (allocate_slabs (F := F) (shape0 idx) (shape0 xyz) deriv f Hf)
      as [E1 E2].
    rewrite E1, E2 in Hfeat.
    rewrite (nth_error_nth _ _ [] Hrow).
    exists v, J, H. split; [exact Hfeat|]. split; intros E.
    - apply Hj. now rewrite (Lj E).
    - apply Hh. now rewrite (Lh E). }
  split.
  - intros E. split; [rewrite Ej; auto|].
    intros f Hf. destruct (Hslice f Hf) as (v & J & H & Hfeat & Hj & _).
    rewrite (Hj E). apply feature_keeps_shape in Hfeat as [-> _].
    unfold zero_jslab. rewrite E. apply repeat_length.
  - intros E. split; [rewrite Eh; auto|].
    assert (E1 : (1 <=? deriv)%Z = true) by (bool_to_Z; subst; reflexivity).
    intros f Hf. destruct (Hslice f Hf) as (v & J & H & Hfeat & _ & Hh).
    rewrite (Hh E). apply feature_keeps_shape in Hfeat as [_ Hsq].
    assert (L : length (zero_jslab (F := F) (shape0 xyz) deriv) = shape0 xyz).
    { unfold zero_jslab. rewrite E1. apply repeat_length. }
    rewrite L in Hsq. apply Hsq.
    unfold zero_hslab. rewrite E. apply square_zeros.
Qed.

End Shapes.

(** X3: a call that returns hands back one value per row of the index
    array; the values alone at order 0, with a Jacobian of shape
    (rows, atoms, 3) at order 1, and with a Hessian of shape
    (rows, atoms, 3, atoms, 3) besides at order 2. *)
Theorem output_shapes {F : Type} {AF : Arith F} {LF : Libm F}
        (fam : family) (xyz : ndarray2 F) (idx : ndarray2 Z) (deriv : Z)
        (out : output F) :
  evaluate fam xyz idx deriv = Ok out ->
  length (values_of out) = shape0 idx /\
  (deriv = 0%Z -> exists v, out = Values v) /\
  (deriv = 1%Z -> exists v j, out = WithJacobian v j) /\
  (deriv = 2%Z -> exists v j h, out = WithHessian v j h) /\
  (forall j, jacobian_of out = Some j ->
     length j = shape0 idx /\
     forall f, f < shape0 idx -> length (nth f j []) = shape0 xyz) /\
  (forall h, hessian_of out = Some h ->
     length h = shape0 idx /\
     forall f, f < shape0 idx -> square (shape0 xyz) (nth f h [])).
Proof.
  intros Hcall.
  apply evaluate_inv in Hcall as ((_ & _ & Hd) & st & Hrun & ->).
  destruct (evaluate_lengths fam xyz idx deriv st Hd Hrun) as (Lv & Lj & Lh).
  rewrite values_of_returned. split; [exact Lv|].
  split; [intros ->; now eexists|].
  split; [intros ->; now do 2 eexists|].
  split; [intros ->; now do 3 eexists|].
  split.
  - intros j. destruct Hd as [-> | [-> | ->]]; simpl;
      intros [= <-]; now apply Lj.
  - intros h. destruct Hd as [-> | [-> | ->]]; simpl;
      intros [= <-]; now apply Lh.
Qed.

Lemma output_shapes_witness :
  exists v j h,
    evaluate Bonds Frames.square4 Frames.bonds_01_12 2
    = Ok (WithHessian v j h) /\
    length v = 2 /\ length j = 2 /\ length h = 2 /\
    length (nth 1 j []) = 4 /\ square 4 (nth 1 h []).
Proof.
  destruct (evaluate Bonds Frames.square4 Frames.bonds_01_12 2)
    as [out|e] eqn:Hcall; [|discriminate Hcall].
  destruct (output_shapes Bonds Frames.square4 Frames.bonds_01_12 2 out Hcall)
    as (Lv & _ & _ & H2 & Lj & Lh).
  destruct (H2 eq_refl) as (v & j & h & ->).
  exists v, j, h. split; [reflexivity|].
  destruct (Lj j eq_refl) as [Lj0 Lj1].
  destruct (Lh h eq_refl) as [Lh0 Lh1].
  split; [exact Lv|]. split; [exact Lj0|]. split; [exact Lh0|].
  split; [apply (Lj1 1)|apply (Lh1 1)]; unfold shape0; simpl; lia.
Defined.

(* ================================================================= *)
(** ** Rows are evaluated one by one *)

Section Stacking.

Context {F : Type} {AF : Arith F} {LF : Libm F}.

(** Whether a loop body raises, and what, does not depend on the slices
    it is given. *)
Lemma feature_status fam (xyz : ndarray2 F) deriv row J H J' H' :
  same_status (feature_of fam xyz deriv row J H)
              (feature_of fam xyz deriv row J' H').
Proof.
  destruct fam; simpl;
    unfold bond_feature, angle_feature, dihedral_feature, same_status.
  - destruct (py_index _ _) as [am|]; [|reflexivity].
    destruct (py_index _ _) as [an|]; [|reflexivity].
    exact I.
  - destruct (py_index _ _) as [am|]; [|reflexivity].
    destruct (py_index _ _) as [ao|]; [|reflexivity].
    destruct (py_index _ _) as [an|]; [|reflexivity].
    cbv beta iota zeta delta [bind].
    destruct (cdiv _ _) as [q|]; [|reflexivity].
    destruct (1 <=? deriv)%Z.
    + destruct (_ || _)%bool; [reflexivity|].
      destruct (deriv =? 2)%Z; [|exact I].
      destruct (cdiv _ _) as [c|]; [exact I|reflexivity].
    + destruct (deriv =? 2)%Z; [|exact I].
      destruct (cdiv _ _) as [c|]; [exact I|reflexivity].
  - destruct (py_index _ _) as [am|]; [|reflexivity].
    destruct (py_index _ _) as [ao|]; [|reflexivity].
    destruct (py_index _ _) as [an|]; [|reflexivity].
    destruct (py_index _ _) as [ap|]; [|reflexivity].
    exact I.
Qed.

(** Neither does it for the loop. *)
Lemma for_features_status fam (xyz : ndarray2 F) deriv rws :
  forall i st i' st',
    same_status
      (for_features (feature_of fam xyz deriv) i rws st)
      (for_features (feature_of fam xyz deriv) i' rws st').
Proof.
  induction rws as [|row rest IH]; intros i st i' st'; simpl; [exact I|].
  unfold step, bind.
  pose proof (feature_status fam xyz deriv row
                (nth i (jac st) []) (nth i (hess st) [])
                (nth i' (jac st') []) (nth i' (hess st') [])) as Hs.
  unfold same_status in Hs.
  destruct (feature_of fam xyz deriv row (nth i (jac st) []) _)
    as [[[v J] H]|e];
    destruct (feature_of fam xyz deriv row (nth i' (jac st') []) _)
      as [[[v' J'] H']|e']; try contradiction.
  - apply IH.
  - exact Hs.
Qed.

Lemma for_features_app (feat : feature F) r1 : forall r2 i st,
  for_features feat i (r1 ++ r2) st
  = (st' <- for_features feat i r1 st ;;
     for_features feat (i + length r1) r2 st').
Proof.
  induction r1 as [|row rest IH]; intros r2 i st; simpl.
  - now rewrite Nat.add_0_r.
  - unfold bind at 1 3. destruct (step feat i row st) as [st1|e]; [|reflexivity].
    rewrite IH. now rewrite Nat.add_succ_r.
Qed.

(** What a loop that returned has left for row [f]. *)
Lemma loop_slices fam (xyz : ndarray2 F) idx deriv st f row :
  for_features (feature_of fam xyz deriv) 0 (rows idx)
    (allocate (shape0 idx) (shape0 xyz) deriv) = Ok st ->
  nth_error (rows idx) f = Some row ->
  exists v J H,
    feature_of fam xyz deriv row (zero_jslab (shape0 xyz) deriv)
      (zero_hslab (shape0 xyz) deriv) = Ok (v, J, H) /\
    nth f (vals st) (of_int 0) = v /\
    ((1 <=? deriv)%Z = true -> nth f (jac st) [] = J) /\
    ((deriv =? 2)%Z = true -> nth f (hess st) [] = H).
Proof.
  intros Hrun Hrow.
  assert (Hf : f < shape0 idx).
  { apply nth_error_Some. unfold shape0. congruence. }
  destruct (allocate_lengths (F := F) (shape0 idx) (shape0 xyz) deriv)
    as (Lv & Lj & Lh).
  apply for_features_inv in Hrun as (_ & _ & Hat).
  destruct (Hat f row Hrow) as (v & J & H & Hfeat & Hv & Hj & Hh).
  change (0 + f) with f in *.
  destruct (allocate_slabs (F := F) (shape0 idx) (shape0 xyz) deriv f Hf)
    as [E1 E2].
  rewrite E1, E2 in Hfeat.
  exists v, J, H. split; [exact Hfeat|].
  split; [apply Hv; now rewrite Lv|].
  split; intros E; [apply Hj; now rewrite (Lj E)|apply Hh; now rewrite (Lh E)].
Qed.

Lemma nth_error_stack {A} (l1 l2 : list A) f x :
  nth_error (l1 ++ l2) f = Some x ->
  (f < length l1 /\ nth_error l1 f = Some x) \/
  (length l1 <= f /\ nth_error l2 (f - length l1) = Some x).
Proof.
  intros Hx. destruct (Nat.lt_ge_cases f (length l1)) as [Hlt|Hge].
  - left. split; [exact Hlt|]. now rewrite nth_error_app1 in Hx.
  - right. split; [exact Hge|]. now rewrite nth_error_app2 in Hx.
Qed.

(** The state after the loop over the stacked rows is the state after
    the loop over the first rows followed by the state after the loop
    over the second. *)
Lemma stacked_state fam (xyz : ndarray2 F) idx1 idx2 deriv st1 st2 st :
  (deriv = 0 \/ deriv = 1 \/ deriv = 2)%Z ->
  for_features (feature_of fam xyz deriv) 0 (rows idx1)
    (allocate (shape0 idx1) (shape0 xyz) deriv) = Ok st1 ->
  for_features (feature_of fam xyz deriv) 0 (rows idx2)
    (allocate (shape0 idx2) (shape0 xyz) deriv) = Ok st2 ->
  for_features (feature_of fam xyz deriv) 0 (rows (stack idx1 idx2))
    (allocate (shape0 (stack idx1 idx2)) (shape0 xyz) deriv) = Ok st ->
  vals st = vals st1 ++ vals st2 /\
  ((1 <=? deriv)%Z = true -> jac st = jac st1 ++ jac st2) /\
  ((deriv =? 2)%Z = true -> hess st = hess st1 ++ hess st2).
Proof.
  intros Hd Hrun1 Hrun2 Hrun.
  destruct (evaluate_lengths fam xyz idx1 deriv st1 Hd Hrun1)
    as (Lv1 & Lj1 & Lh1).
  destruct (evaluate_lengths fam xyz idx2 deriv st2 Hd Hrun2)
    as (Lv2 & Lj2 & Lh2).
  destruct (evaluate_lengths fam xyz (stack idx1 idx2) deriv st Hd Hrun)
    as (Lv & Lj & Lh).
  assert (Ls : shape0 (stack idx1 idx2) = shape0 idx1 + shape0 idx2).
  { unfold shape0, stack. simpl. apply length_app. }
  assert (Hpoint : forall f, f < shape0 idx1 + shape0 idx2 ->
    nth f (vals st) (of_int 0) = nth f (vals st1 ++ vals st2) (of_int 0) /\
    ((1 <=? deriv)%Z = true ->
     nth f (jac st) [] = nth f (jac st1 ++ jac st2) []) /\
    ((deriv =? 2)%Z = true ->
     nth f (hess st) [] = nth f (hess st1 ++ hess st2) [])).
  { intros f Hf.
    destruct (nth_error_lt (rows (stack idx1 idx2)) f) as [row Hrow].
    { fold (shape0 (stack idx1 idx2)). now rewrite Ls. }
    destruct (loop_slices fam xyz _ deriv st f row Hrun Hrow)
      as (v & J & H & Hfeat & Hv & Hj & Hh).
    simpl in Hrow. apply nth_error_stack in Hrow as [[Hlt Hrow]|[Hge Hrow]].
    - destruct (loop_slices fam xyz _ deriv st1 f row Hrun1 Hrow)
        as (v' & J' & H' & Hfeat' & Hv' & Hj' & Hh').
      rewrite Hfeat in Hfeat'. injection Hfeat' as <- <- <-.
      fold (shape0 idx1) in Hlt.
      split; [|split].
      + rewrite app_nth1 by now rewrite Lv1. congruence.
      + intros E. rewrite app_nth1 by now rewrite (proj1 (Lj1 E)).
        rewrite (Hj E), (Hj' E). reflexivity.
      + intros E. rewrite app_nth1 by now rewrite (proj1 (Lh1 E)).
        rewrite (Hh E), (Hh' E). reflexivity.
    - destruct (loop_slices fam xyz _ deriv st2 _ row Hrun2 Hrow)
        as (v' & J' & H' & Hfeat' & Hv' & Hj' & Hh').
      rewrite Hfeat in Hfeat'. injection Hfeat' as <- <- <-.
      fold (shape0 idx1) in Hge, Hv', Hj', Hh'.
      split; [|split].
      + rewrite app_nth2 by now rewrite Lv1. rewrite Lv1. congruence.
      + intros E. rewrite app_nth2 by now rewrite (proj1 (Lj1 E)).
        rewrite (proj1 (Lj1 E)), (Hj E), (Hj' E). reflexivity.
      + intros E. rewrite app_nth2 by now rewrite (proj1 (Lh1 E)).
        rewrite (proj1 (Lh1 E)), (Hh E), (Hh' E). reflexivity. }
  split; [|split].
  - apply nth_ext with (d := of_int 0) (d' := of_int 0).
    + rewrite length_app. congruence.
    + intros f Hf. apply Hpoint. rewrite Lv, Ls in Hf. exact Hf.
  - intros E. apply nth_ext with (d := []) (d' := []).
    + rewrite length_app, (proj1 (Lj E)), (proj1 (Lj1 E)), (proj1 (Lj2 E)).
      exact Ls.
    + intros f Hf. apply Hpoint; [|exact E].
      rewrite (proj1 (Lj E)), Ls in Hf. exact Hf.
  - intros E. apply nth_ext with (d := []) (d' := []).
    + rewrite length_app, (proj1 (Lh E)), (proj1 (Lh1 E)), (proj1 (Lh2 E)).
      exact Ls.
    + intros f Hf. apply Hpoint; [|exact E].
      rewrite (proj1 (Lh E)), Ls in Hf. exact Hf.
Qed.

End Stacking.

(** X4: the rows of an index array are evaluated one by one, and what
    is returned for a row depends on nothing but that row and the frame.
    So a call on two index arrays stacked ([np.vstack]) returns the
    outputs of the two calls one after the other along the first axis,
    when both return; and it raises what the first call raises, or else
    what the second raises. *)
Theorem stacked_index_arrays {F : Type} {AF : Arith F} {LF : Libm F}
        (fam : family) (xyz : ndarray2 F) (idx1 idx2 : ndarray2 Z)
        (deriv : Z) :
  (forall out1 out2,
      evaluate fam xyz idx1 deriv = Ok out1 ->
      evaluate fam xyz idx2 deriv = Ok out2 ->
      evaluate fam xyz (stack idx1 idx2) deriv = Ok (join out1 out2)) /\
  (forall e,
      evaluate fam xyz idx1 deriv = Raise e ->
      evaluate fam xyz (stack idx1 idx2) deriv = Raise e) /\
  (forall out1 e,
      evaluate fam xyz idx1 deriv = Ok out1 ->
      shape1 idx2 = shape1 idx1 ->
      evaluate fam xyz idx2 deriv = Raise e ->
      evaluate fam xyz (stack idx1 idx2) deriv = Raise e).
Proof.
  split; [|split].
  - intros out1 out2 H1 H2.
    apply evaluate_inv in H1 as ((Sx & S1 & Hd) & st1 & Hrun1 & ->).
    apply evaluate_inv in H2 as (_ & st2 & Hrun2 & ->).
    rewrite evaluate_checked by assumption.
    destruct (for_features _ 0 (rows (stack idx1 idx2)) _) as [st|e] eqn:Hrun.
    + destruct (stacked_state fam xyz idx1 idx2 deriv st1 st2 st
                  Hd Hrun1 Hrun2 Hrun) as (Ev & Ej & Eh).
      simpl. f_equal. unfold returned, join.
      destruct Hd as [-> | [-> | ->]]; simpl.
      * now rewrite Ev.
      * now rewrite Ev, (Ej eq_refl).
      * now rewrite Ev, (Ej eq_refl), (Eh eq_refl).
    + exfalso. simpl rows in Hrun. rewrite for_features_app in Hrun.
      pose proof (for_features_status fam xyz deriv (rows idx1)
                    0 (allocate (shape0 idx1) (shape0 xyz) deriv)
                    0 (allocate (shape0 (stack idx1 idx2)) (shape0 xyz) deriv))
        as Hs1.
      rewrite Hrun1 in Hs1. unfold bind in Hrun.
      destruct (for_features _ 0 (rows idx1) (allocate (shape0 (stack _ _)) _ _))
        as [sa|ea]; [|exact Hs1].
      pose proof (for_features_status fam xyz deriv (rows idx2)
                    0 (allocate (shape0 idx2) (shape0 xyz) deriv)
                    (0 + length (rows idx1)) sa) as Hs2.
      rewrite Hrun2, Hrun in Hs2. exact Hs2.
  - intros e H1. rewrite evaluate_unfold in H1 |- *.
    unfold check_args in *. simpl shape1.
    destruct (negb (shape1 xyz =? 3)%nat); [exact H1|].
    destruct (negb (shape1 idx1 =? arity fam)%nat); [exact H1|].
    destruct (negb _); [exact H1|].
    unfold bind in H1 |- *.
    destruct (for_features _ 0 (rows idx1) _) as [s1|e1] eqn:Hrun1;
      [discriminate|].
    injection H1 as ->.
    simpl rows. rewrite for_features_app. unfold bind.
    pose proof (for_features_status fam xyz deriv (rows idx1)
                  0 (allocate (shape0 idx1) (shape0 xyz) deriv)
                  0 (allocate (shape0 (stack idx1 idx2)) (shape0 xyz) deriv))
      as Hs1.
    rewrite Hrun1 in Hs1.
    destruct (for_features _ 0 (rows idx1) (allocate (shape0 (stack _ _)) _ _))
      as [sa|ea]; [contradiction|].
    simpl in Hs1. now subst.
  - intros out1 e H1 Hshape H2.
    apply evaluate_inv in H1 as ((Sx & S1 & Hd) & st1 & Hrun1 & ->).
    rewrite evaluate_checked in H2 by (auto; congruence).
    rewrite evaluate_checked by assumption.
    unfold bind in H2 |- *.
    destruct (for_features _ 0 (rows idx2) _) as [s2|e2] eqn:Hrun2;
      [discriminate|].
    injection H2 as ->.
    simpl rows. rewrite for_features_app. unfold bind.
    pose proof (for_features_status fam xyz deriv (rows idx1)
                  0 (allocate (shape0 idx1) (shape0 xyz) deriv)
                  0 (allocate (shape0 (stack idx1 idx2)) (shape0 xyz) deriv))
      as Hs1.
    rewrite Hrun1 in Hs1.
    destruct (for_features _ 0 (rows idx1) (allocate (shape0 (stack _ _)) _ _))
      as [sa|ea]; [|contradiction].
    pose proof (for_features_status fam xyz deriv (rows idx2)
                  0 (allocate (shape0 idx2) (shape0 xyz) deriv)
                  (0 + length (rows idx1)) sa) as Hs2.
    rewrite Hrun2 in Hs2.
    destruct (for_features _ (0 + _) (rows idx2) sa) as [sb|eb];
      [contradiction|].
    simpl in Hs2. now subst.
Qed.

Lemma stacked_index_arrays_witness :
  exists out1 out2,
    evaluate Bonds Frames.square4 Frames.bond_01 1 = Ok out1 /\
    evaluate Bonds Frames.square4 Frames.bonds_01_12 1 = Ok out2 /\
    evaluate Bonds Frames.square4 (stack Frames.bond_01 Frames.bonds_01_12) 1
    = Ok (join out1 out2).
Proof.
  do 2 eexists. split; [reflexivity|]. split; [reflexivity|].
  apply (proj1 (stacked_index_arrays Bonds Frames.square4
                  Frames.bond_01 Frames.bonds_01_12 1)); reflexivity.
Defined.

(* ================================================================= *)
(** ** Dihedrals of any four atoms *)

Lemma dihedral_feature_ok {F : Type} {AF : Arith F} {LF : Libm F}
      (xyz : ndarray2 F) deriv row J0 H0 :
  resolvable 4 (shape0 xyz) row ->
  is_ok (dihedral_feature xyz deriv row J0 H0) = true.
Proof.
  intros Hres. unfold dihedral_feature.
  destruct (Hres 0 ltac:(lia)) as [am Hm].
  destruct (Hres 1 ltac:(lia)) as [ao Ho].
  destruct (Hres 2 ltac:(lia)) as [ap Hp].
  destruct (Hres 3 ltac:(lia)) as [an Hn].
  unfold atom_of in Hm, Ho, Hp, Hn. rewrite Hm, Ho, Hn, Hp. reflexivity.
Qed.

(** X5: [dihedral_angles] has no test on the geometry.  With
    well-shaped arrays, a valid order and indices that designate atoms,
    it returns at every order, whatever the positions are: atoms that
    coincide or lie on a line give quotients by zero, which numpy
    answers without raising. *)
Theorem dihedral_angles_returns {F : Type} {AF : Arith F} {LF : Libm F}
        (xyz : ndarray2 F) (idihedrals : ndarray2 Z) (deriv : Z) :
  shape1 xyz = 3 -> shape1 idihedrals = 4 ->
  (deriv = 0 \/ deriv = 1 \/ deriv = 2)%Z ->
  (forall row, In row (rows idihedrals) -> resolvable 4 (shape0 xyz) row) ->
  exists out, dihedral_angles xyz idihedrals deriv = Ok out.
Proof.
  intros Sx Si Hd Hall.
  change (dihedral_angles xyz idihedrals deriv)
    with (evaluate Dihedrals xyz idihedrals deriv).
  rewrite evaluate_checked by assumption.
  pose proof (for_features_ok (feature_of Dihedrals xyz deriv)
                (rows idihedrals)
                ltac:(intros r Hin J H; apply dihedral_feature_ok; auto)
                0 (allocate (shape0 idihedrals) (shape0 xyz) deriv)) as Hok.
  unfold bind.
  destruct (for_features _ _ _ _) as [st|e]; [|discriminate].
  now eexists.
Qed.

Lemma dihedral_angles_returns_witness :
  exists out,
    dihedral_angles Frames.collinear3 (NdArray2 4 [[0; 1; 2; 2]]%Z) 2 = Ok out.
Proof.
  apply (dihedral_angles_returns Frames.collinear3
           (NdArray2 4 [[0; 1; 2; 2]]%Z) 2 eq_refl eq_refl).
  - auto.
  - intros row [<-|[]] [|[|[|[|c]]]] Hc; try lia; eexists; reflexivity.
Defined.

(* ================================================================= *)
(** ** Moving the whole frame *)

Lemma for_features_ext {F : Type} {AF : Arith F} (feat feat' : feature F) rws :
  (forall row J H, feat' row J H = feat row J H) ->
  forall i st, for_features feat' i rws st = for_features feat i rws st.
Proof.
  intros Hext. induction rws as [|row rest IH]; intros i st; simpl; auto.
  unfold step. rewrite Hext. unfold bind.
  destruct (feat row _ _) as [[[v J] H]|e]; [apply IH|reflexivity].
Qed.

Lemma shape0_move g xyz : shape0 (move g xyz) = shape0 xyz.
Proof. unfold shape0, move. simpl. apply length_map. Qed.

Lemma xyz_row_move g xyz a :
  a < shape0 xyz -> xyz_row (move g xyz) a = g (xyz_row xyz a).
Proof.
  intros Ha. unfold xyz_row, move. simpl rows.
  destruct (nth_error_lt (rows xyz) a Ha) as [r Hr].
  rewrite (nth_error_nth _ _ [] Hr).
  rewrite (nth_error_nth _ _ [] (map_nth_error _ _ _ Hr)).
  simpl. now destruct (g _).
Qed.

Lemma vsub_translate (a b t : vec3 R) :
  vsub (vadd a t) (vadd b t) = vsub a b.
Proof. vec_ring. Qed.

Lemma bind_ok {A B} (a : A) (k : A -> result B) : bind (Ok a) k = k a.
Proof. reflexivity. Qed.

(** Resolves the indices of the loop bodies on both sides of the goal:
    an index that designates no atom closes the goal, the others leave
    their positions, in range, in the context. *)
Ltac resolve_atoms :=
  repeat match goal with
  | |- context [py_index ?n ?k] =>
      let E := fresh "E" in
      destruct (py_index n k) eqn:E;
      [apply py_index_lt in E; rewrite !bind_ok; cbv beta|reflexivity]
  end.

(** A loop body sees the positions through differences only. *)
Lemma feature_translate fam t xyz deriv row J H :
  feature_of fam (translate t xyz) deriv row J H
  = feature_of fam xyz deriv row J H.
Proof.
  destruct fam; simpl;
    unfold bond_feature, angle_feature, dihedral_feature;
    cbv zeta; unfold translate; rewrite shape0_move; resolve_atoms;
    rewrite !xyz_row_move by assumption;
    rewrite !vsub_translate; reflexivity.
Qed.

(** X6: moving every atom by the same vector changes nothing: the call
    on the translated frame returns the same values, the same Jacobian
    and the same Hessian, or raises the same exception, for the three
    families and at every order. *)
Theorem translation_invariance (fam : family) (t : vec3 R)
        (xyz : ndarray2 R) (idx : ndarray2 Z) (deriv : Z) :
  evaluate fam (translate t xyz) idx deriv = evaluate fam xyz idx deriv.
Proof.
  rewrite !evaluate_unfold. unfold check_args.
  rewrite (for_features_ext (feature_of fam xyz deriv)
             (feature_of fam (translate t xyz) deriv))
    by (intros row J H; apply feature_translate).
  unfold translate. rewrite shape0_move. reflexivity.
Qed.

Local Open Scope R_scope.

(* ================================================================= *)
(** ** The values under a change of the frame or of the tuples *)

(** The loop bodies at order 0: the positions, and the value. *)
Lemma bond_feature_order0 (xyz : ndarray2 R) row J H :
  bond_feature xyz 0 row J H
  = (am <- atom_of (shape0 xyz) (nth 0 row 0%Z) ;;
     an <- atom_of (shape0 xyz) (nth 1 row 0%Z) ;;
     Ok (norm3 (vsub (xyz_row xyz am) (xyz_row xyz an)), J, H)).
Proof. reflexivity. Qed.

Lemma angle_feature_order0_body (xyz : ndarray2 R) row J H :
  angle_feature xyz 0 row J H
  = (am <- atom_of (shape0 xyz) (nth 0 row 0%Z) ;;
     ao <- atom_of (shape0 xyz) (nth 1 row 0%Z) ;;
     an <- atom_of (shape0 xyz) (nth 2 row 0%Z) ;;
     q <- cdiv (dot3 (bond_u xyz am ao) (bond_u xyz an ao))
            (norm3 (bond_u xyz am ao) * norm3 (bond_u xyz an ao)) ;;
     Ok (acos q, J, H)).
Proof. reflexivity. Qed.

Lemma dihedral_feature_order0 (xyz : ndarray2 R) row J H :
  dihedral_feature xyz 0 row J H
  = (am <- atom_of (shape0 xyz) (nth 0 row 0%Z) ;;
     ao <- atom_of (shape0 xyz) (nth 1 row 0%Z) ;;
     an <- atom_of (shape0 xyz) (nth 3 row 0%Z) ;;
     ap <- atom_of (shape0 xyz) (nth 2 row 0%Z) ;;
     Ok (spec_dihedral_value (xyz_row xyz am) (xyz_row xyz ao)
           (xyz_row xyz ap) (xyz_row xyz an), J, H)).
Proof. reflexivity. Qed.

Lemma map_upd {A B} (g : A -> B) i x (l : list A) :
  map g (upd i x l) = upd i (g x) (map g l).
Proof.
  revert i. induction l as [|h t IH]; intros [|i]; simpl; auto.
  now rewrite IH.
Qed.

(** Two loops of order 0 whose bodies agree row by row up to [g]. *)
Lemma for_features_with (g : R -> R) (feat feat' : feature R) rws rws' :
  Forall2 (fun row row' => forall J H J' H',
             feat' row' J' H' = body_with g (feat row J H) J' H') rws rws' ->
  forall i st st',
    vals st' = map g (vals st) ->
    match for_features feat i rws st with
    | Ok s => exists s', for_features feat' i rws' st' = Ok s' /\
                         vals s' = map g (vals s)
    | Raise e => for_features feat' i rws' st' = Raise e
    end.
Proof.
  induction 1 as [|row row' rest rest' Hrow Hrest IH]; intros i st st' Hv;
    simpl.
  - now exists st'.
  - unfold step, bind.
    rewrite (Hrow (nth i (jac st) []) (nth i (hess st) [])
                  (nth i (jac st') []) (nth i (hess st') [])).
    destruct (feat row _ _) as [[[v J] H]|e]; simpl; [|reflexivity].
    apply IH. simpl. now rewrite Hv, map_upd.
Qed.

Lemma map_repeat_fix {A} (g : A -> A) x n :
  g x = x -> map g (repeat x n) = repeat x n.
Proof. intros Hg. induction n; simpl; congruence. Qed.

(** The same for two calls of order 0. *)
Lemma evaluate_with (g : R -> R) fam (xyz xyz' : ndarray2 R) idx idx' :
  g 0 = 0 ->
  shape1 xyz' = shape1 xyz -> shape1 idx' = shape1 idx ->
  (shape1 idx = arity fam ->
   Forall2 (fun row row' => forall J H J' H',
              feature_of fam xyz' 0 row' J' H'
              = body_with g (feature_of fam xyz 0 row J H) J' H')
           (rows idx) (rows idx')) ->
  evaluate fam xyz' idx' 0 = with_values g (evaluate fam xyz idx 0).
Proof.
  intros Hg Sx Si Hrows.
  rewrite !evaluate_unfold. unfold check_args. rewrite Sx, Si.
  destruct (negb (shape1 xyz =? 3)%nat); [reflexivity|].
  destruct (Nat.eqb_spec (shape1 idx) (arity fam)) as [Ha|Ha];
    [|reflexivity].
  specialize (Hrows Ha).
  simpl negb. cbv iota.
  assert (Hlen : shape0 idx' = shape0 idx).
  { unfold shape0. symmetry. eapply Forall2_length; eauto. }
  pose proof (for_features_with g _ _ _ _ Hrows 0%nat
                (allocate (shape0 idx) (shape0 xyz) 0)
                (allocate (shape0 idx') (shape0 xyz') 0)) as Hloop.
  rewrite Hlen in Hloop |- *.
  specialize (Hloop ltac:(simpl; now rewrite map_repeat_fix)).
  rewrite !bind_ok.
  destruct (for_features (feature_of fam xyz 0) _ _ _) as [s|e].
  - destruct Hloop as (s' & -> & Hv). rewrite !bind_ok.
    unfold returned. simpl. now rewrite Hv.
  - now rewrite Hloop.
Qed.

Lemma Forall2_same {A} (P : A -> A -> Prop) (l : list A) :
  (forall x, P x x) -> Forall2 P l l.
Proof. intros HP. induction l; constructor; auto. Qed.

Lemma Forall2_map_r {A B} (P : A -> B -> Prop) (f : A -> B) (l : list A) :
  (forall x, P x (f x)) -> Forall2 P l (map f l).
Proof. intros HP. induction l; simpl; constructor; auto. Qed.

Lemma evaluate_order0_values fam (xyz : ndarray2 R) idx :
  with_values (fun v => v) (evaluate fam xyz idx 0) = evaluate fam xyz idx 0.
Proof.
  destruct (evaluate fam xyz idx 0) as [out|e] eqn:Hcall; [|reflexivity].
  apply evaluate_inv in Hcall as (_ & st & _ & ->).
  simpl. now rewrite map_id.
Qed.

(** *** Tuples read backwards *)

Lemma atom_of_raise n z e : atom_of n z = Raise e -> e = IndexError.
Proof. apply py_index_error. Qed.

Lemma norm3_swap (a b : vec3 R) : norm3 (vsub a b) = norm3 (vsub b a).
Proof.
  destruct a, b. unfold norm3. unfold_kernel. simpl. f_equal. ring.
Qed.

Lemma dot3_comm (a b : vec3 R) : dot3 a b = dot3 b a.
Proof. destruct a, b. unfold_kernel. ring. Qed.

Lemma norm3_vneg (w : vec3 R) : norm3 (vneg w) = norm3 w.
Proof. destruct w. unfold norm3. unfold_kernel. simpl. f_equal. ring. Qed.

Lemma spec_dihedral_value_backwards (xm xo xp xn : vec3 R) :
  spec_dihedral_value xn xp xo xm = spec_dihedral_value xm xo xp xn.
Proof.
  unfold spec_dihedral_value.
  replace (vsub xo xp) with (vneg (vsub xp xo)) by vec_ring.
  rewrite norm3_vneg.
  generalize (vsub xm xo) (vsub xn xp) (vsub xp xo) (norm3 (vsub xp xo)).
  intros [] [] [] r. f_equal; unfold_kernel; ring.
Qed.

(** Resolves every index of the hypotheses-free goal, turning the
    exception of an index out of range into [IndexError]. *)
Ltac resolve_rows :=
  repeat match goal with
  | |- context [atom_of ?n ?z] =>
      let E := fresh "E" in
      destruct (atom_of n z) eqn:E;
      [|apply atom_of_raise in E; subst]
  end.

Lemma bind_raise {A B} (e : exn) (k : A -> result B) :
  bind (Raise e) k = Raise e.
Proof. reflexivity. Qed.

Ltac reduce_binds :=
  repeat first [rewrite bind_ok | rewrite bind_raise];
  cbv beta; unfold body_with.

Lemma feature_backwards fam (xyz : ndarray2 R) row J H J' H' :
  feature_of fam xyz 0
    (map (fun c => nth (arity fam - 1 - c) row 0%Z) (seq 0 (arity fam))) J' H'
  = body_with (fun v => v) (feature_of fam xyz 0 row J H) J' H'.
Proof.
  destruct fam; simpl feature_of; simpl map.
  - rewrite !bond_feature_order0. simpl nth.
    resolve_rows; reduce_binds; try reflexivity.
    now rewrite norm3_swap.
  - rewrite !angle_feature_order0_body. simpl nth.
    resolve_rows; reduce_binds; try reflexivity.
    unfold bond_u. rewrite dot3_comm, Rmult_comm.
    destruct (cdiv _ _); reflexivity.
  - rewrite !dihedral_feature_order0. simpl nth.
    resolve_rows; reduce_binds; try reflexivity.
    now rewrite spec_dihedral_value_backwards.
Qed.

(** X7: reading every tuple backwards changes no value (real
    arithmetic): the bond [(n, m)] is as long as [(m, n)], the angle
    [(n, o, m)] is the angle [(m, o, n)], and the dihedral
    [(n, p, o, m)] is the dihedral [(m, o, p, n)], sign included.  A
    call of order 0 on [backwards idx], the C-contiguous array of the
    reversed tuples, returns what the call on [idx] returns, or raises
    what it raises. *)
Theorem backwards_tuples (fam : family) (xyz : ndarray2 R)
        (idx : ndarray2 Z) :
  evaluate fam xyz (backwards idx) 0 = evaluate fam xyz idx 0.
Proof.
  rewrite <- (evaluate_order0_values fam xyz idx).
  apply evaluate_with; try reflexivity.
  intros Ha. unfold backwards. simpl rows. rewrite Ha.
  apply Forall2_map_r. intros row J H J' H'.
  apply feature_backwards.
Qed.

(** *** Rotations and mirror images of the frame *)

Lemma mvmul_vsub (Q : mat3 R) (a b : vec3 R) :
  vsub (mvmul Q a) (mvmul Q b) = mvmul Q (vsub a b).
Proof. destruct Q as [[] [] []]. unfold mvmul. vec_ring. Qed.

Lemma dot3_mvmul (Q : mat3 R) (a b : vec3 R) :
  orthogonal Q -> dot3 (mvmul Q a) (mvmul Q b) = dot3 a b.
Proof.
  destruct Q as [[q00 q01 q02] [q10 q11 q12] [q20 q21 q22]], a, b.
  unfold orthogonal, column, mvmul. unfold_kernel. simpl.
  intros (E00 & E11 & E22 & E01 & E02 & E12). nsatz.
Qed.

Lemma norm3_mvmul (Q : mat3 R) (a : vec3 R) :
  orthogonal Q -> norm3 (mvmul Q a) = norm3 a.
Proof. intros HQ. now rewrite !norm3_dot3, dot3_mvmul. Qed.

(** The triple product picks up the determinant. *)
Lemma triple_mvmul (Q : mat3 R) (u v w : vec3 R) :
  dot3 (mvmul Q u) (cross3 (mvmul Q v) (mvmul Q w))
  = det3 Q * dot3 u (cross3 v w).
Proof.
  destruct Q as [[] [] []], u, v, w. unfold det3, mvmul. unfold_kernel.
  simpl. ring.
Qed.

Lemma binet_cauchy (a b c d : vec3 R) :
  dot3 (cross3 a b) (cross3 c d) = dot3 a c * dot3 b d - dot3 a d * dot3 b c.
Proof. destruct a, b, c, d. unfold_kernel. ring. Qed.

Lemma atan_zero_inv (z : R) : atan z = 0 -> z = 0.
Proof.
  intros Hz. destruct (Rtotal_order z 0) as [Hlt|[Heq|Hgt]]; [|exact Heq|].
  - pose proof (atan_increasing z 0 Hlt) as H. rewrite atan_0 in H. lra.
  - pose proof (atan_increasing 0 z Hgt) as H. rewrite atan_0 in H. lra.
Qed.

(** [atan2] of the mirror image of a point. *)
Lemma atan2_opp (y x : R) : atan2 (- y) x = opposite (atan2 y x).
Proof.
  pose proof PI_RGT_0 as Hpi.
  pose proof (atan_bound (y / x)) as [Hlo Hhi].
  assert (Hq : - y / x = - (y / x)) by (unfold Rdiv; ring).
  unfold atan2, opposite. rewrite Hq, atan_opp.
  destruct (Rlt_dec 0 x) as [Hx|Hx].
  { destruct (Req_dec_T _ _); lra. }
  destruct (Rlt_dec x 0) as [Hx'|Hx'].
  - assert (Hinv : / x < 0) by now apply Rinv_lt_0_compat.
    destruct (Rle_dec 0 y) as [Hy|Hy]; destruct (Rle_dec 0 (- y)) as [Hy'|Hy'];
      try lra.
    + assert (y = 0) by lra. subst y.
      replace (0 / x) with 0 by (unfold Rdiv; ring). rewrite atan_0.
      destruct (Req_dec_T _ _); lra.
    + destruct (Req_dec_T _ _) as [E|E]; [|lra].
      assert (Hz : atan (y / x) = 0) by lra.
      apply atan_zero_inv in Hz.
      assert (y = 0) by (unfold Rdiv in Hz; nra). lra.
    + assert (0 < y / x) by (unfold Rdiv; nra).
      pose proof (atan_pos _ H).
      destruct (Req_dec_T _ _); lra.
  - destruct (Rlt_dec 0 y), (Rlt_dec 0 (- y)), (Rlt_dec y 0),
      (Rlt_dec (- y) 0); try lra;
      destruct (Req_dec_T _ _); lra.
Qed.

Lemma spec_dihedral_value_mvmul (Q : mat3 R) (xm xo xp xn : vec3 R) :
  orthogonal Q ->
  spec_dihedral_value (mvmul Q xm) (mvmul Q xo) (mvmul Q xp) (mvmul Q xn)
  = atan2 (det3 Q * (dot3 (vsub xm xo) (cross3 (vsub xn xp) (vsub xp xo))
                     * norm3 (vsub xp xo)))
          (dot3 (cross3 (vsub xn xp) (vsub xp xo))
                (cross3 (vsub xm xo) (vsub xp xo))).
Proof.
  intros HQ. unfold spec_dihedral_value.
  rewrite !mvmul_vsub, triple_mvmul, norm3_mvmul by assumption.
  rewrite !binet_cauchy, !dot3_mvmul by assumption.
  f_equal. ring.
Qed.

Lemma opposite_zero : opposite 0 = 0.
Proof.
  pose proof PI_RGT_0. unfold opposite.
  destruct (Req_dec_T 0 PI); lra.
Qed.

Lemma feature_transform fam (Q : mat3 R) (g : R -> R) (xyz : ndarray2 R)
      row J H J' H' :
  orthogonal Q ->
  (fam = Dihedrals ->
   (det3 Q = 1 /\ g = (fun v => v)) \/ (det3 Q = -1 /\ g = opposite)) ->
  (fam <> Dihedrals -> g = (fun v => v)) ->
  feature_of fam (transform Q xyz) 0 row J' H'
  = body_with g (feature_of fam xyz 0 row J H) J' H'.
Proof.
  intros HQ Hdi Hnd. unfold transform.
  destruct fam; simpl feature_of.
  - rewrite (Hnd ltac:(discriminate)).
    rewrite !bond_feature_order0, shape0_move.
    resolve_rows; reduce_binds; try reflexivity.
    rewrite !xyz_row_move by (eapply atom_of_lt; eauto).
    now rewrite mvmul_vsub, norm3_mvmul.
  - rewrite (Hnd ltac:(discriminate)).
    rewrite !angle_feature_order0_body, shape0_move.
    resolve_rows; reduce_binds; try reflexivity.
    unfold bond_u.
    rewrite !xyz_row_move by (eapply atom_of_lt; eauto).
    rewrite !mvmul_vsub, dot3_mvmul, !norm3_mvmul by assumption.
    destruct (cdiv _ _); reflexivity.
  - rewrite !dihedral_feature_order0, shape0_move.
    resolve_rows; reduce_binds; try reflexivity.
    rewrite !xyz_row_move by (eapply atom_of_lt; eauto).
    rewrite spec_dihedral_value_mvmul by assumption.
    destruct (Hdi eq_refl) as [[-> ->]|[-> ->]].
    + rewrite Rmult_1_l. reflexivity.
    + unfold spec_dihedral_value. cbv zeta. rewrite <- atan2_opp.
      match goal with
      | |- context [atan2 (-1 * ?X) _] => replace (-1 * X) with (- X) by ring
      end.
      reflexivity.
Qed.

(** X8: a rotation or a mirror image of the frame (every position [x]
    replaced by [Q x], with [Q] orthogonal) changes no bond length and
    no bond angle; a rotation changes no dihedral, and a mirror image
    turns every dihedral into its opposite (PI stays PI).  The calls
    are of order 0, and raise on the new frame what they raise on the
    old one. *)
Theorem rigid_motion (Q : mat3 R) (xyz : ndarray2 R) (idx : ndarray2 Z) :
  orthogonal Q ->
  bond_lengths (transform Q xyz) idx 0 = bond_lengths xyz idx 0 /\
  bond_angles (transform Q xyz) idx 0 = bond_angles xyz idx 0 /\
  (det3 Q = 1 ->
   dihedral_angles (transform Q xyz) idx 0 = dihedral_angles xyz idx 0) /\
  (det3 Q = -1 ->
   dihedral_angles (transform Q xyz) idx 0
   = with_values opposite (dihedral_angles xyz idx 0)).
Proof.
  intros HQ.
  split; [|split; [|split]].
  - change (evaluate Bonds (transform Q xyz) idx 0 = evaluate Bonds xyz idx 0).
    rewrite <- (evaluate_order0_values Bonds xyz idx).
    apply evaluate_with; try reflexivity.
    intros _. apply Forall2_same. intros row J H J' H'.
    apply feature_transform; [exact HQ | discriminate | reflexivity].
  - change (evaluate Angles (transform Q xyz) idx 0
            = evaluate Angles xyz idx 0).
    rewrite <- (evaluate_order0_values Angles xyz idx).
    apply evaluate_with; try reflexivity.
    intros _. apply Forall2_same. intros row J H J' H'.
    apply feature_transform; [exact HQ | discriminate | reflexivity].
  - intros Hdet.
    change (evaluate Dihedrals (transform Q xyz) idx 0
            = evaluate Dihedrals xyz idx 0).
    rewrite <- (evaluate_order0_values Dihedrals xyz idx).
    apply evaluate_with; try reflexivity.
    intros _. apply Forall2_same. intros row J H J' H'.
    apply feature_transform;
      [exact HQ | intros _; left; auto | intros C; now contradiction C].
  - intros Hdet.
    change (evaluate Dihedrals (transform Q xyz) idx 0
            = with_values opposite (evaluate Dihedrals xyz idx 0)).
    apply evaluate_with; try reflexivity; [apply opposite_zero|].
    intros _. apply Forall2_same. intros row J H J' H'.
    apply feature_transform;
      [exact HQ | intros _; right; auto | intros C; now contradiction C].
Qed.

Lemma rigid_motion_witness :
  bond_angles (transform Motions.quarter_turn Frames.square4)
    Frames.angle_012 0
  = bond_angles Frames.square4 Frames.angle_012 0 /\
  dihedral_angles (transform Motions.quarter_turn Frames.square4)
    Frames.dihedral_0123 0
  = dihedral_angles Frames.square4 Frames.dihedral_0123 0 /\
  dihedral_angles (transform Motions.mirror Frames.square4)
    Frames.dihedral_0123 0
  = with_values opposite
      (dihedral_angles Frames.square4 Frames.dihedral_0123 0).
Proof.
  assert (Hq : orthogonal Motions.quarter_turn)
    by (repeat split; real_eval; lra).
  assert (Hm : orthogonal Motions.mirror)
    by (repeat split; real_eval; lra).
  split; [|split].
  - apply (rigid_motion Motions.quarter_turn Frames.square4
             Frames.angle_012 Hq).
  - apply (rigid_motion Motions.quarter_turn Frames.square4
             Frames.dihedral_0123 Hq).
    real_eval. lra.
  - apply (rigid_motion Motions.mirror Frames.square4
             Frames.dihedral_0123 Hm).
    real_eval. lra.
Defined.

(** *** A change of the unit of length *)

Lemma smulv_vsub (s : R) (a b : vec3 R) :
  vsub (smulv s a) (smulv s b) = smulv s (vsub a b).
Proof. vec_ring. Qed.

Lemma dot3_smulv (s : R) (a b : vec3 R) :
  dot3 (smulv s a) (smulv s b) = s * s * dot3 a b.
Proof. destruct a, b. unfold_kernel. ring. Qed.

Lemma norm3_smulv (s : R) (a : vec3 R) :
  0 <= s -> norm3 (smulv s a) = s * norm3 a.
Proof.
  intros Hs. rewrite !norm3_dot3, dot3_smulv.
  rewrite sqrt_mult by (try apply dot3_self_nonneg; nra).
  now rewrite sqrt_square.
Qed.

Lemma cross3_smulv (s : R) (a b : vec3 R) :
  cross3 (smulv s a) (smulv s b) = smulv (s * s) (cross3 a b).
Proof. vec_ring. Qed.

Lemma dot3_smulv_l (s : R) (a b : vec3 R) :
  dot3 (smulv s a) b = s * dot3 a b.
Proof. destruct a, b. unfold_kernel. ring. Qed.

Lemma dot3_smulv_r (s : R) (a b : vec3 R) :
  dot3 a (smulv s b) = s * dot3 a b.
Proof. destruct a, b. unfold_kernel. ring. Qed.

(** [atan2] sees the direction of the point only. *)
Lemma atan2_scale (k y x : R) : 0 < k -> atan2 (k * y) (k * x) = atan2 y x.
Proof.
  intros Hk. unfold atan2.
  destruct (Rlt_dec 0 x) as [Hx|Hx].
  - destruct (Rlt_dec 0 (k * x)) as [_|C]; [|exfalso; apply C; nra].
    f_equal. field. lra.
  - destruct (Rlt_dec 0 (k * x)) as [C|_]; [exfalso; nra|].
    destruct (Rlt_dec x 0) as [Hx'|Hx'].
    + destruct (Rlt_dec (k * x) 0) as [_|C]; [|exfalso; apply C; nra].
      replace (k * y / (k * x)) with (y / x) by (field; lra).
      destruct (Rle_dec 0 y) as [Hy|Hy].
      * destruct (Rle_dec 0 (k * y)) as [_|C]; [reflexivity|].
        exfalso; apply C; nra.
      * destruct (Rle_dec 0 (k * y)) as [C|_]; [exfalso; nra|reflexivity].
    + destruct (Rlt_dec (k * x) 0) as [C|_]; [exfalso; nra|].
      destruct (Rlt_dec 0 y) as [Hy|Hy].
      * destruct (Rlt_dec 0 (k * y)) as [_|C]; [reflexivity|].
        exfalso; apply C; nra.
      * destruct (Rlt_dec 0 (k * y)) as [C|_]; [exfalso; nra|].
        destruct (Rlt_dec y 0) as [Hy'|Hy'].
        -- destruct (Rlt_dec (k * y) 0) as [_|C]; [reflexivity|].
           exfalso; apply C; nra.
        -- destruct (Rlt_dec (k * y) 0) as [C|_]; [exfalso; nra|reflexivity].
Qed.

Lemma spec_dihedral_value_smulv (s : R) (xm xo xp xn : vec3 R) :
  0 < s ->
  spec_dihedral_value (smulv s xm) (smulv s xo) (smulv s xp) (smulv s xn)
  = spec_dihedral_value xm xo xp xn.
Proof.
  intros Hs. unfold spec_dihedral_value.
  rewrite !smulv_vsub, !cross3_smulv, norm3_smulv by lra.
  rewrite !dot3_smulv_l, !dot3_smulv_r.
  assert (Hk : 0 < s * s * s * s) by (repeat apply Rmult_lt_0_compat; lra).
  match goal with
  | |- _ = atan2 ?y ?x => rewrite <- (atan2_scale (s * s * s * s) y x Hk)
  end.
  f_equal; ring.
Qed.

Lemma cdiv_scaled (k x y : R) :
  0 < k -> cdiv (k * x) (k * y) = cdiv x y.
Proof.
  intros Hk. destruct (Req_dec_T y 0) as [->|Hy].
  - rewrite Rmult_0_r. now rewrite !cdiv_zero.
  - rewrite !cdiv_ok by nra. f_equal. field. lra.
Qed.

Lemma feature_scale fam (s : R) (xyz : ndarray2 R) row J H J' H' :
  0 < s ->
  feature_of fam (scale s xyz) 0 row J' H'
  = body_with (match fam with Bonds => Rmult s | _ => fun v => v end)
      (feature_of fam xyz 0 row J H) J' H'.
Proof.
  intros Hs. unfold scale.
  destruct fam; simpl feature_of.
  - rewrite !bond_feature_order0, shape0_move.
    resolve_rows; reduce_binds; try reflexivity.
    rewrite !xyz_row_move by (eapply atom_of_lt; eauto).
    rewrite smulv_vsub, norm3_smulv by lra. reflexivity.
  - rewrite !angle_feature_order0_body, shape0_move.
    resolve_rows; reduce_binds; try reflexivity.
    unfold bond_u.
    rewrite !xyz_row_move by (eapply atom_of_lt; eauto).
    rewrite !smulv_vsub, dot3_smulv, !norm3_smulv by lra.
    match goal with
    | |- context [cdiv (s * s * ?d) (s * ?a * (s * ?b))] =>
        replace (s * a * (s * b)) with (s * s * (a * b)) by ring;
        rewrite (cdiv_scaled (s * s) d (a * b)) by nra
    end.
    destruct (cdiv _ _); reflexivity.
  - rewrite !dihedral_feature_order0, shape0_move.
    resolve_rows; reduce_binds; try reflexivity.
    rewrite !xyz_row_move by (eapply atom_of_lt; eauto).
    now rewrite spec_dihedral_value_smulv.
Qed.

(** X9: a change of the unit of length (every coordinate multiplied by
    the same [s > 0]) multiplies every bond length by [s] and changes no
    bond angle and no dihedral.  The calls are of order 0, and raise on
    the new frame what they raise on the old one. *)
Theorem change_of_scale (s : R) (xyz : ndarray2 R) (idx : ndarray2 Z) :
  0 < s ->
  bond_lengths (scale s xyz) idx 0
  = with_values (Rmult s) (bond_lengths xyz idx 0) /\
  bond_angles (scale s xyz) idx 0 = bond_angles xyz idx 0 /\
  dihedral_angles (scale s xyz) idx 0 = dihedral_angles xyz idx 0.
Proof.
  intros Hs. split; [|split].
  - change (evaluate Bonds (scale s xyz) idx 0
            = with_values (Rmult s) (evaluate Bonds xyz idx 0)).
    apply evaluate_with; try reflexivity; [ring|].
    intros _. apply Forall2_same. intros row J H J' H'.
    now apply (feature_scale Bonds).
  - change (evaluate Angles (scale s xyz) idx 0 = evaluate Angles xyz idx 0).
    rewrite <- (evaluate_order0_values Angles xyz idx).
    apply evaluate_with; try reflexivity.
    intros _. apply Forall2_same. intros row J H J' H'.
    now apply (feature_scale Angles).
  - change (evaluate Dihedrals (scale s xyz) idx 0
            = evaluate Dihedrals xyz idx 0).
    rewrite <- (evaluate_order0_values Dihedrals xyz idx).
    apply evaluate_with; try reflexivity.
    intros _. apply Forall2_same. intros row J H J' H'.
    now apply (feature_scale Dihedrals).
Qed.

Lemma change_of_scale_witness :
  bond_lengths (scale 2 Frames.square4) Frames.bonds_01_12 0
  = with_values (Rmult 2) (bond_lengths Frames.square4 Frames.bonds_01_12 0) /\
  dihedral_angles (scale 2 Frames.square4) Frames.dihedral_0123 0
  = dihedral_angles Frames.square4 Frames.dihedral_0123 0.
Proof.
  assert (H2 : 0 < 2) by lra.
  split.
  - apply (change_of_scale 2 Frames.square4 Frames.bonds_01_12 H2).
  - apply (change_of_scale 2 Frames.square4 Frames.dihedral_0123 H2).
Defined.

(* ================================================================= *)
(** ** Bond lengths are distances *)

Lemma norm3_zero_iff (w : vec3 R) : norm3 w = 0 <-> w = vzero.
Proof.
  split.
  - intros Hz. apply norm3_zero_dot3 in Hz. destruct w as [x y z].
    unfold dot3 in Hz. simpl in Hz.
    assert (x = 0) by nra. assert (y = 0) by nra. assert (z = 0) by nra.
    subst. reflexivity.
  - intros ->. unfold norm3. simpl.
    replace (0 * 0 + 0 * 0 + 0 * 0) with 0 by ring. apply sqrt_0.
Qed.

Lemma vsub_zero_iff (a b : vec3 R) : vsub a b = vzero <-> a = b.
Proof.
  destruct a as [a0 a1 a2], b as [b0 b1 b2]. unfold vsub, vmap2, vzero. simpl.
  split.
  - intros [= E0 E1 E2]. f_equal; lra.
  - intros [= -> -> ->]. f_equal; lra.
Qed.

(** Lagrange's identity, and the inequality of Cauchy and Schwarz that
    it gives. *)
Lemma lagrange (a b : vec3 R) :
  dot3 (cross3 a b) (cross3 a b) = dot3 a a * dot3 b b - dot3 a b * dot3 a b.
Proof. destruct a, b. unfold_kernel. ring. Qed.

Lemma cauchy_schwarz (a b : vec3 R) : dot3 a b <= norm3 a * norm3 b.
Proof.
  pose proof (dot3_self_nonneg (cross3 a b)) as Hc.
  rewrite lagrange in Hc.
  pose proof (norm3_nonneg a) as Ha. pose proof (norm3_nonneg b) as Hb.
  pose proof (norm3_sqr a) as Sa. pose proof (norm3_sqr b) as Sb.
  destruct (Rle_dec (dot3 a b) (norm3 a * norm3 b)) as [H|H]; [exact H|].
  exfalso. apply Rnot_le_lt in H.
  assert (0 <= norm3 a * norm3 b) by nra.
  assert ((norm3 a * norm3 b) * (norm3 a * norm3 b)
          < dot3 a b * dot3 a b) by nra.
  assert ((norm3 a * norm3 b) * (norm3 a * norm3 b)
          = dot3 a a * dot3 b b) by (rewrite <- Sa, <- Sb; ring).
  lra.
Qed.

Lemma norm3_triangle (a b : vec3 R) : norm3 (vadd a b) <= norm3 a + norm3 b.
Proof.
  pose proof (norm3_nonneg a) as Ha. pose proof (norm3_nonneg b) as Hb.
  pose proof (norm3_nonneg (vadd a b)) as Hab.
  pose proof (norm3_sqr (vadd a b)) as S. rewrite dot3_vadd_self in S.
  pose proof (norm3_sqr a) as Sa. pose proof (norm3_sqr b) as Sb.
  pose proof (cauchy_schwarz a b) as CS.
  destruct (Rle_dec (norm3 (vadd a b)) (norm3 a + norm3 b)) as [H|H];
    [exact H|].
  exfalso. apply Rnot_le_lt in H. nra.
Qed.

(** The value of row [f] of a call of [bond_lengths] that returned. *)
Lemma bond_value (xyz : ndarray2 R) ibonds deriv out f row am an :
  bond_lengths xyz ibonds deriv = Ok out ->
  nth_error (rows ibonds) f = Some row ->
  atom_of (shape0 xyz) (nth 0 row 0%Z) = Ok am ->
  atom_of (shape0 xyz) (nth 1 row 0%Z) = Ok an ->
  nth f (values_of out) 0 = norm3 (vsub (xyz_row xyz am) (xyz_row xyz an)).
Proof.
  intros Hcall Hrow Hm Hn.
  destruct (evaluate_feature Bonds xyz ibonds deriv out f row Hcall Hrow)
    as (v & J & H & Hfeat & Hv & _).
  simpl of_int in Hv. rewrite Hv.
  apply bond_feature_shape in Hfeat as (am' & an' & Hm' & Hn' & -> & _).
  congruence.
Qed.

(** X10: the value returned for a bond is the Euclidean distance
    between the positions of its two atoms: it is not negative, its
    square is the sum of the squared differences of the coordinates,
    and it is zero exactly when the two positions are the same. *)
Theorem bond_length_is_distance (xyz : ndarray2 R) (ibonds : ndarray2 Z)
        (deriv : Z) (out : output R) (f : nat) (row : list Z) (am an : nat) :
  bond_lengths xyz ibonds deriv = Ok out ->
  nth_error (rows ibonds) f = Some row ->
  atom_of (shape0 xyz) (nth 0 row 0%Z) = Ok am ->
  atom_of (shape0 xyz) (nth 1 row 0%Z) = Ok an ->
  0 <= nth f (values_of out) 0 /\
  nth f (values_of out) 0 * nth f (values_of out) 0
  = (c0 (xyz_row xyz am) - c0 (xyz_row xyz an)) ^ 2
    + (c1 (xyz_row xyz am) - c1 (xyz_row xyz an)) ^ 2
    + (c2 (xyz_row xyz am) - c2 (xyz_row xyz an)) ^ 2 /\
  (nth f (values_of out) 0 = 0 <-> xyz_row xyz am = xyz_row xyz an).
Proof.
  intros Hcall Hrow Hm Hn.
  rewrite (bond_value xyz ibonds deriv out f row am an Hcall Hrow Hm Hn).
  split; [apply norm3_nonneg|]. split.
  - rewrite norm3_sqr.
    destruct (xyz_row xyz am), (xyz_row xyz an). unfold_kernel. ring.
  - rewrite norm3_zero_iff. apply vsub_zero_iff.
Qed.

Lemma bond_length_is_distance_witness :
  exists out,
    bond_lengths Frames.square4 Frames.bonds_01_12 0 = Ok out /\
    0 <= nth 1 (values_of out) 0 /\
    nth 1 (values_of out) 0 * nth 1 (values_of out) 0
    = (0 - 0) ^ 2 + (0 - 0) ^ 2 + (0 - 1) ^ 2.
Proof.
  eexists. split; [reflexivity|].
  destruct (bond_length_is_distance Frames.square4 Frames.bonds_01_12 0 _
              1%nat [1; 2]%Z 1%nat 2%nat eq_refl eq_refl eq_refl eq_refl)
    as (Hpos & Hsq & _).
  split; [exact Hpos|exact Hsq].
Defined.

(** X11: the bond lengths between three atoms obey the triangle
    inequality: when rows [f], [g] and [h] of the index array are the
    bonds [(a, b)], [(b, c)] and [(a, c)], the value of row [h] is at
    most the sum of the values of rows [f] and [g]. *)
Theorem bond_lengths_triangle (xyz : ndarray2 R) (ibonds : ndarray2 Z)
        (deriv : Z) (out : output R) (f g h : nat) (rf rg rh : list Z)
        (a b c : nat) :
  bond_lengths xyz ibonds deriv = Ok out ->
  nth_error (rows ibonds) f = Some rf ->
  nth_error (rows ibonds) g = Some rg ->
  nth_error (rows ibonds) h = Some rh ->
  atom_of (shape0 xyz) (nth 0 rf 0%Z) = Ok a ->
  atom_of (shape0 xyz) (nth 1 rf 0%Z) = Ok b ->
  atom_of (shape0 xyz) (nth 0 rg 0%Z) = Ok b ->
  atom_of (shape0 xyz) (nth 1 rg 0%Z) = Ok c ->
  atom_of (shape0 xyz) (nth 0 rh 0%Z) = Ok a ->
  atom_of (shape0 xyz) (nth 1 rh 0%Z) = Ok c ->
  nth h (values_of out) 0
  <= nth f (values_of out) 0 + nth g (values_of out) 0.
Proof.
  intros Hcall Hf Hg Hh Ha Hb Hb' Hc Ha' Hc'.
  rewrite (bond_value xyz ibonds deriv out f rf a b Hcall Hf Ha Hb).
  rewrite (bond_value xyz ibonds deriv out g rg b c Hcall Hg Hb' Hc).
  rewrite (bond_value xyz ibonds deriv out h rh a c Hcall Hh Ha' Hc').
  replace (vsub (xyz_row xyz a) (xyz_row xyz c))
    with (vadd (vsub (xyz_row xyz a) (xyz_row xyz b))
               (vsub (xyz_row xyz b) (xyz_row xyz c)))
    by (generalize (xyz_row xyz a) (xyz_row xyz b) (xyz_row xyz c);
        intros; vec_ring).
  apply norm3_triangle.
Qed.

Lemma bond_lengths_triangle_witness :
  exists out,
    bond_lengths Frames.square4 (NdArray2 2 [[0; 1]; [1; 2]; [0; 2]]%Z) 0
    = Ok out /\
    nth 2 (values_of out) 0 <= nth 0 (values_of out) 0 + nth 1 (values_of out) 0.
Proof.
  eexists. split; [reflexivity|].
  apply (bond_lengths_triangle Frames.square4
           (NdArray2 2 [[0; 1]; [1; 2]; [0; 2]]%Z) 0 _ 0%nat 1%nat 2%nat
           [0; 1]%Z [1; 2]%Z [0; 2]%Z 0%nat 1%nat 2%nat); reflexivity.
Defined.

(* ================================================================= *)
(** ** The Jacobian of bond lengths *)

Lemma unit_norm (w : vec3 R) : norm3 w <> 0 -> norm3 (unit w) = 1.
Proof.
  intros Hw. rewrite norm3_dot3, dot3_unit_self by assumption. apply sqrt_1.
Qed.

(** X12: for a bond between two different atoms at different places,
    the Jacobian row at the first atom is the unit vector that points
    from the second atom to the first, and the row at the second atom
    is its opposite: both rows have norm 1, and they sum to zero. *)
Theorem bond_jacobian_rows (xyz : ndarray2 R) (ibonds : ndarray2 Z)
        (deriv : Z) (out : output R) (j : list (jslab R)) (f : nat)
        (zm zn : Z) (am an : nat) :
  bond_lengths xyz ibonds deriv = Ok out ->
  jacobian_of out = Some j ->
  nth_error (rows ibonds) f = Some [zm; zn] ->
  atom_of (shape0 xyz) zm = Ok am ->
  atom_of (shape0 xyz) zn = Ok an ->
  am <> an ->
  norm3 (vsub (xyz_row xyz am) (xyz_row xyz an)) <> 0 ->
  jacobian_row j f am = unit (vsub (xyz_row xyz am) (xyz_row xyz an)) /\
  jacobian_row j f an = vneg (unit (vsub (xyz_row xyz am) (xyz_row xyz an))) /\
  norm3 (jacobian_row j f am) = 1 /\
  norm3 (jacobian_row j f an) = 1 /\
  balanced [jacobian_row j f am; jacobian_row j f an].
Proof.
  intros Hcall Hj Hrow Hm Hn Hne Hnorm.
  pose proof (jacobian_of_order Bonds _ _ _ _ _ Hcall Hj) as Hd.
  destruct (evaluate_feature Bonds xyz ibonds deriv out f _ Hcall Hrow)
    as (v & J & H & Hfeat & _ & HJ & _).
  unfold jacobian_row. rewrite (HJ j Hj).
  destruct (bond_feature_inv xyz deriv zm zn am an _ _ v J H Hm Hn Hfeat)
    as (_ & EJ & _).
  rewrite (EJ Hd).
  pose proof (atom_of_lt _ _ _ Hm) as Lm.
  pose proof (atom_of_lt _ _ _ Hn) as Ln.
  pose proof (length_zero_jslab (shape0 xyz) deriv Hd) as L.
  rewrite !jget_upd, !length_upd, L. nat_eqb.
  rewrite (proj2 (Nat.ltb_lt _ _) Lm), (proj2 (Nat.ltb_lt _ _) Ln).
  fold (unit (vsub (xyz_row xyz am) (xyz_row xyz an))).
  split; [reflexivity|]. split; [reflexivity|].
  split; [now apply unit_norm|].
  split; [rewrite norm3_vneg; now apply unit_norm|].
  unfold balanced. simpl fold_left.
  generalize (unit (vsub (xyz_row xyz am) (xyz_row xyz an))).
  intros u. vec_ring.
Qed.

Lemma bond_jacobian_rows_witness :
  exists out j,
    bond_lengths Frames.square4 Frames.bonds_01_12 1 = Ok out /\
    jacobian_of out = Some j /\
    jacobian_row j 0 0 = V3 1 0 0 /\
    norm3 (jacobian_row j 0 0) = 1.
Proof.
  do 2 eexists. split; [reflexivity|]. split; [reflexivity|].
  assert (Hnorm : norm3 (vsub (xyz_row Frames.square4 0)
                              (xyz_row Frames.square4 1)) <> 0).
  { real_eval. sqrt_literals. lra. }
  destruct (bond_jacobian_rows Frames.square4 Frames.bonds_01_12 1 _ _
              0%nat 0%Z 1%Z 0%nat 1%nat eq_refl eq_refl eq_refl eq_refl eq_refl
              ltac:(discriminate) Hnorm)
    as (Em & _ & Nm & _).
  split; [|exact Nm].
  rewrite Em. real_eval. sqrt_literals.
  apply vec3_ext. intros []; simpl; lra.
Defined.

(* ================================================================= *)
(** ** Bond angles *)

(** A body of [bond_angles] that returned had two arms of non-zero
    length, and its value is the angle between them. *)
Lemma angle_feature_returned (xyz : ndarray2 R) deriv row am ao an
      J0 H0 v J H :
  atom_of (shape0 xyz) (nth 0 row 0%Z) = Ok am ->
  atom_of (shape0 xyz) (nth 1 row 0%Z) = Ok ao ->
  atom_of (shape0 xyz) (nth 2 row 0%Z) = Ok an ->
  angle_feature xyz deriv row J0 H0 = Ok (v, J, H) ->
  norm3 (bond_u xyz am ao) <> 0 /\ norm3 (bond_u xyz an ao) <> 0 /\
  v = acos (cosine (bond_u xyz am ao) (bond_u xyz an ao)).
Proof.
  intros Hm Ho Hn Hfeat.
  assert (Hprod : norm3 (bond_u xyz am ao) * norm3 (bond_u xyz an ao) <> 0).
  { intros Hz.
    rewrite (angle_feature_zero_bond xyz deriv row am ao an J0 H0
               Hm Ho Hn Hz) in Hfeat.
    discriminate. }
  assert (Hu : norm3 (bond_u xyz am ao) <> 0) by (intros E; apply Hprod; rewrite E; ring).
  assert (Hv : norm3 (bond_u xyz an ao) <> 0) by (intros E; apply Hprod; rewrite E; ring).
  split; [exact Hu|]. split; [exact Hv|].
  pose proof (angle_feature_order0 xyz row am ao an Hm Ho Hn Hu Hv J0 H0)
    as H0'.
  exact (feature_value_any_order Angles xyz deriv 0 row _ _ _ _ _ _
           Hfeat H0').
Qed.

Lemma angle_value (xyz : ndarray2 R) iangles deriv out f row am ao an :
  bond_angles xyz iangles deriv = Ok out ->
  nth_error (rows iangles) f = Some row ->
  atom_of (shape0 xyz) (nth 0 row 0%Z) = Ok am ->
  atom_of (shape0 xyz) (nth 1 row 0%Z) = Ok ao ->
  atom_of (shape0 xyz) (nth 2 row 0%Z) = Ok an ->
  norm3 (bond_u xyz am ao) <> 0 /\ norm3 (bond_u xyz an ao) <> 0 /\
  nth f (values_of out) 0
  = acos (cosine (bond_u xyz am ao) (bond_u xyz an ao)).
Proof.
  intros Hcall Hrow Hm Ho Hn.
  destruct (evaluate_feature Angles xyz iangles deriv out f row Hcall Hrow)
    as (v & J & H & Hfeat & Hv & _).
  simpl of_int in Hv. rewrite Hv.
  exact (angle_feature_returned xyz deriv row am ao an _ _ v J H
           Hm Ho Hn Hfeat).
Qed.

(** X13: every value that [bond_angles] returns is an angle in
    [0, PI]; the two arms of the angle have non-zero length (a call with
    an arm of length zero raises instead), and the cosine of the value
    times the two lengths is the dot product of the arms. *)
Theorem bond_angle_in_range (xyz : ndarray2 R) (iangles : ndarray2 Z)
        (deriv : Z) (out : output R) (f : nat) (row : list Z)
        (am ao an : nat) :
  bond_angles xyz iangles deriv = Ok out ->
  nth_error (rows iangles) f = Some row ->
  atom_of (shape0 xyz) (nth 0 row 0%Z) = Ok am ->
  atom_of (shape0 xyz) (nth 1 row 0%Z) = Ok ao ->
  atom_of (shape0 xyz) (nth 2 row 0%Z) = Ok an ->
  0 <= nth f (values_of out) 0 <= PI /\
  norm3 (bond_u xyz am ao) <> 0 /\ norm3 (bond_u xyz an ao) <> 0 /\
  cos (nth f (values_of out) 0)
  * (norm3 (bond_u xyz am ao) * norm3 (bond_u xyz an ao))
  = dot3 (bond_u xyz am ao) (bond_u xyz an ao).
Proof.
  intros Hcall Hrow Hm Ho Hn.
  destruct (angle_value xyz iangles deriv out f row am ao an
              Hcall Hrow Hm Ho Hn) as (Hu & Hv & ->).
  split; [apply acos_bound|]. split; [exact Hu|]. split; [exact Hv|].
  rewrite cos_acos by now apply cosine_bounds.
  unfold cosine. field. auto.
Qed.

Lemma bond_angle_in_range_witness :
  exists out,
    bond_angles Frames.square4 Frames.angle_012 0 = Ok out /\
    0 <= nth 0 (values_of out) 0 <= PI.
Proof.
  destruct (bond_angles_regular_ok Frames.square4 Frames.angle_012 0
              eq_refl eq_refl ltac:(auto))
    as [out Hcall].
  { intros row [<-|[]]. exact square4_angle_regular. }
  exists out. split; [exact Hcall|].
  apply (bond_angle_in_range Frames.square4 Frames.angle_012 0 out
           0%nat [0; 1; 2]%Z 0%nat 1%nat 2%nat Hcall);
    reflexivity.
Defined.

(** X14: the law of cosines ties the two evaluators together.  For
    three atoms [m], [o], [n], with [a] and [b] the bond lengths from
    [o] to [m] and to [n], [c] the bond length from [m] to [n] and
    [theta] the bond angle at [o], all as returned,
    [c^2 = a^2 + b^2 - 2 a b cos theta]. *)
Theorem law_of_cosines (xyz : ndarray2 R) (ibonds iangles : ndarray2 Z)
        (d d' : Z) (lengths angles : output R) (f ga gb gc : nat)
        (row ra rb rc : list Z) (am ao an : nat) :
  bond_lengths xyz ibonds d = Ok lengths ->
  bond_angles xyz iangles d' = Ok angles ->
  nth_error (rows iangles) f = Some row ->
  atom_of (shape0 xyz) (nth 0 row 0%Z) = Ok am ->
  atom_of (shape0 xyz) (nth 1 row 0%Z) = Ok ao ->
  atom_of (shape0 xyz) (nth 2 row 0%Z) = Ok an ->
  nth_error (rows ibonds) ga = Some ra ->
  atom_of (shape0 xyz) (nth 0 ra 0%Z) = Ok am ->
  atom_of (shape0 xyz) (nth 1 ra 0%Z) = Ok ao ->
  nth_error (rows ibonds) gb = Some rb ->
  atom_of (shape0 xyz) (nth 0 rb 0%Z) = Ok an ->
  atom_of (shape0 xyz) (nth 1 rb 0%Z) = Ok ao ->
  nth_error (rows ibonds) gc = Some rc ->
  atom_of (shape0 xyz) (nth 0 rc 0%Z) = Ok am ->
  atom_of (shape0 xyz) (nth 1 rc 0%Z) = Ok an ->
  let a := nth ga (values_of lengths) 0 in
  let b := nth gb (values_of lengths) 0 in
  let c := nth gc (values_of lengths) 0 in
  let theta := nth f (values_of angles) 0 in
  c * c = a * a + b * b - 2 * a * b * cos theta.
Proof.
  intros Hl Ha Hrow Hm Ho Hn Hra Ham Hao Hrb Hbn Hbo Hrc Hcm Hcn a b c theta.
  subst a b c theta.
  rewrite (bond_value xyz ibonds d lengths ga ra am ao Hl Hra Ham Hao).
  rewrite (bond_value xyz ibonds d lengths gb rb an ao Hl Hrb Hbn Hbo).
  rewrite (bond_value xyz ibonds d lengths gc rc am an Hl Hrc Hcm Hcn).
  destruct (angle_value xyz iangles d' angles f row am ao an
              Ha Hrow Hm Ho Hn) as (Hu & Hv & ->).
  rewrite cos_acos by now apply cosine_bounds.
  unfold cosine, bond_u in *.
  set (u := vsub (xyz_row xyz am) (xyz_row xyz ao)) in *.
  set (v := vsub (xyz_row xyz an) (xyz_row xyz ao)) in *.
  replace (vsub (xyz_row xyz am) (xyz_row xyz an)) with (vsub u v)
    by (subst u v; generalize (xyz_row xyz am) (xyz_row xyz ao)
                     (xyz_row xyz an); intros; vec_ring).
  rewrite norm3_sqr, dot3_vsub_self.
  replace (2 * norm3 u * norm3 v * (dot3 u v / (norm3 u * norm3 v)))
    with (2 * dot3 u v) by (field; auto).
  rewrite <- !norm3_sqr. ring.
Qed.

Lemma law_of_cosines_witness :
  exists lengths angles,
    bond_lengths Frames.square4 (NdArray2 2 [[0; 1]; [2; 1]; [0; 2]]%Z) 0
    = Ok lengths /\
    bond_angles Frames.square4 Frames.angle_012 0 = Ok angles /\
    nth 2 (values_of lengths) 0 * nth 2 (values_of lengths) 0
    = nth 0 (values_of lengths) 0 * nth 0 (values_of lengths) 0
      + nth 1 (values_of lengths) 0 * nth 1 (values_of lengths) 0
      - 2 * nth 0 (values_of lengths) 0 * nth 1 (values_of lengths) 0
        * cos (nth 0 (values_of angles) 0).
Proof.
  destruct (bond_angles_regular_ok Frames.square4 Frames.angle_012 0
              eq_refl eq_refl ltac:(auto))
    as [angles Hcall].
  { intros row [<-|[]]. exact square4_angle_regular. }
  eexists. exists angles. split; [reflexivity|]. split; [exact Hcall|].
  apply (law_of_cosines Frames.square4
           (NdArray2 2 [[0; 1]; [2; 1]; [0; 2]]%Z) Frames.angle_012 0 0
           _ angles 0%nat 0%nat 1%nat 2%nat
           [0; 1; 2]%Z [0; 1]%Z [2; 1]%Z [0; 2]%Z 0%nat 1%nat 2%nat);
    first [exact Hcall | reflexivity].
Defined.

(** X15: in real arithmetic, an angle with an arm of length zero (an
    end atom at the place of the vertex, or the vertex listed as an end
    atom) makes [bond_angles] raise [ZeroDivisionError], at every
    order: the quotient that gives the cosine is a quotient of two C
    doubles, which Cython checks, and its divisor, the product of the
    two lengths, is zero.  The rows before it must be angles that do
    not raise. *)
Theorem angle_with_zero_arm (xyz : ndarray2 R) (iangles : ndarray2 Z)
        (deriv : Z) (f : nat) (row : list Z) (am ao an : nat) :
  shape1 xyz = 3%nat -> shape1 iangles = 3%nat ->
  (deriv = 0 \/ deriv = 1 \/ deriv = 2)%Z ->
  nth_error (rows iangles) f = Some row ->
  atom_of (shape0 xyz) (nth 0 row 0%Z) = Ok am ->
  atom_of (shape0 xyz) (nth 1 row 0%Z) = Ok ao ->
  atom_of (shape0 xyz) (nth 2 row 0%Z) = Ok an ->
  xyz_row xyz am = xyz_row xyz ao \/ xyz_row xyz an = xyz_row xyz ao ->
  (forall k r, (k < f)%nat -> nth_error (rows iangles) k = Some r ->
               angle_regular xyz r) ->
  bond_angles xyz iangles deriv = Raise ZeroDivisionError.
Proof.
  intros Sx Si Hd Hrow Hm Ho Hn Hsame Hbefore.
  change (evaluate Angles xyz iangles deriv = Raise ZeroDivisionError).
  rewrite evaluate_run by (auto; simpl; tauto).
  rewrite (for_features_first_raise (feature_of Angles xyz deriv)
             (rows iangles) ZeroDivisionError f row); auto.
  - intros k r Hk Hr J H.
    destruct (Hbefore k r Hk Hr)
      as (bm & bo & bn & Bm & Bo & Bn & Bu & Bv & Bnd).
    now apply (angle_feature_regular xyz r bm bo bn).
  - intros J H. apply (angle_feature_zero_bond xyz deriv row am ao an);
      auto.
    unfold bond_u.
    destruct Hsame as [E|E]; rewrite E;
      rewrite (proj2 (norm3_zero_iff (vsub (xyz_row xyz ao) (xyz_row xyz ao))))
        by (now apply vsub_zero_iff); ring.
Qed.

Lemma angle_with_zero_arm_witness :
  bond_angles Frames.square4 (NdArray2 3 [[0; 1; 2]; [0; 0; 2]]%Z) 0
  = Raise ZeroDivisionError.
Proof.
  apply (angle_with_zero_arm Frames.square4
           (NdArray2 3 [[0; 1; 2]; [0; 0; 2]]%Z) 0 1%nat [0; 0; 2]%Z
           0%nat 0%nat 2%nat); try reflexivity.
  - auto.
  - now left.
  - intros [|k] r Hk Hr; [|lia]. injection Hr as <-.
    exact square4_angle_regular.
Defined.

(* ================================================================= *)
(** ** The Jacobian of bond angles *)

Lemma cross3_vdivs_r (a b : vec3 R) (k : R) :
  cross3 a (vdivs b k) = vdivs (cross3 a b) k.
Proof. vec_ring. Qed.

Lemma cross3_vdivs_l (a b : vec3 R) (k : R) :
  cross3 (vdivs a k) b = vdivs (cross3 a b) k.
Proof. vec_ring. Qed.

(** The double cross product. *)
Lemma cross3_cross3_r (a b : vec3 R) :
  cross3 a (cross3 a b) = vsub (smulv (dot3 a b) a) (smulv (dot3 a a) b).
Proof. vec_ring. Qed.

Lemma cross3_cross3_l (a b : vec3 R) :
  cross3 (cross3 a b) b = vsub (smulv (dot3 a b) b) (smulv (dot3 b b) a).
Proof. vec_ring. Qed.

(** The cross product of the two unit arms has the sine of the angle
    for norm. *)
Lemma norm3_cross3_unit (u v : vec3 R) :
  norm3 u <> 0 -> norm3 v <> 0 ->
  norm3 (cross3 (unit u) (unit v)) = sin (acos (cosine u v)).
Proof.
  intros Hu Hv.
  rewrite sin_acos by now apply cosine_bounds.
  rewrite norm3_dot3, lagrange, !dot3_unit_self, dot3_unit by assumption.
  f_equal. unfold Rsqr. ring.
Qed.

(** The body of [bond_angles] at order 1 or 2, when it returns: the
    angle is not degenerate, and the three rows are these. *)
Lemma angle_feature_jacobian (xyz : ndarray2 R) deriv row am ao an
      J0 H0 v J H :
  atom_of (shape0 xyz) (nth 0 row 0%Z) = Ok am ->
  atom_of (shape0 xyz) (nth 1 row 0%Z) = Ok ao ->
  atom_of (shape0 xyz) (nth 2 row 0%Z) = Ok an ->
  (1 <=? deriv)%Z = true ->
  angle_feature xyz deriv row J0 H0 = Ok (v, J, H) ->
  let u := bond_u xyz am ao in
  let w := bond_u xyz an ao in
  let n := unit (cross3 (unit u) (unit w)) in
  ~ degenerate u w /\
  J = upd ao (vneg (vadd (vdivs (cross3 (unit u) n) (norm3 u))
                         (vdivs (cross3 n (unit w)) (norm3 w))))
        (upd an (vdivs (cross3 n (unit w)) (norm3 w))
           (upd am (vdivs (cross3 (unit u) n) (norm3 u)) J0)).
Proof.
  intros Hm Ho Hn Hd Hfeat u w n.
  destruct (angle_feature_returned xyz deriv row am ao an J0 H0 v J H
              Hm Ho Hn Hfeat) as (Hu & Hw & _).
  fold u in Hu. fold w in Hw.
  revert Hfeat. unfold angle_feature. unfold atom_of in Hm, Ho, Hn.
  rewrite Hm, Ho, Hn. cbv beta iota zeta delta [bind].
  change (vsub (xyz_row xyz am) (xyz_row xyz ao)) with u.
  change (vsub (xyz_row xyz an) (xyz_row xyz ao)) with w.
  change (@fmul R R_arith) with Rmult.
  rewrite (cdiv_ok (dot3 u w) (norm3 u * norm3 w))
    by (apply norm3_product_nonzero; assumption).
  rewrite Hd.
  change (vdivs u (norm3 u)) with (unit u).
  change (vdivs w (norm3 w)) with (unit w).
  destruct (fltb (norm3 (vadd (unit u) (unit w))) f1em10
            || fltb (norm3 (vsub (unit u) (unit w))) f1em10)%bool eqn:Htest;
    [discriminate|].
  assert (Hnd : ~ degenerate u w).
  { intros Hdeg. apply degenerate_test in Hdeg. congruence. }
  split; [exact Hnd|].
  destruct (deriv =? 2)%Z.
  - destruct (cdiv _ _) as [c|]; [|discriminate].
    now injection Hfeat as _ <- _.
  - now injection Hfeat as _ <- _.
Qed.

Lemma sin_angle_pos (u v : vec3 R) :
  norm3 u <> 0 -> norm3 v <> 0 -> ~ degenerate u v ->
  0 < sin (acos (cosine u v)).
Proof.
  intros Hu Hv Hnd.
  pose proof (sin_angle_nonzero u v Hu Hv Hnd) as Hne.
  rewrite sin_acos in * by now apply cosine_bounds.
  pose proof (sqrt_pos (1 - (cosine u v)²)). lra.
Qed.

(** The two rows in the form of the textbooks. *)
Lemma angle_row_end (u v : vec3 R) :
  norm3 u <> 0 -> norm3 v <> 0 -> ~ degenerate u v ->
  let n := unit (cross3 (unit u) (unit v)) in
  let theta := acos (cosine u v) in
  vdivs (cross3 (unit u) n) (norm3 u)
  = vdivs (vsub (smulv (cos theta) (unit u)) (unit v))
          (norm3 u * sin theta) /\
  vdivs (cross3 n (unit v)) (norm3 v)
  = vdivs (vsub (smulv (cos theta) (unit v)) (unit u))
          (norm3 v * sin theta).
Proof.
  intros Hu Hv Hnd n theta. subst n theta.
  pose proof (sin_angle_pos u v Hu Hv Hnd) as Hs.
  rewrite cos_acos by now apply cosine_bounds.
  change (unit (cross3 (unit u) (unit v)))
    with (vdivs (cross3 (unit u) (unit v))
                (norm3 (cross3 (unit u) (unit v)))).
  rewrite cross3_vdivs_r, cross3_vdivs_l.
  rewrite cross3_cross3_r, cross3_cross3_l.
  rewrite !dot3_unit_self, dot3_unit, norm3_cross3_unit by assumption.
  revert Hs. generalize (sin (acos (cosine u v))). intros s Hs.
  generalize (cosine u v). intros c.
  generalize (unit u). intros a. generalize (unit v). intros b.
  revert Hu Hv. generalize (norm3 u) (norm3 v). intros p q Hp Hq.
  split; destruct a, b; apply vec3_ext; intros [];
    unfold_kernel; simpl; field; split; lra.
Qed.

(** X16: for an angle [(m, o, n)] of three different atoms, in a call
    of order 1 or 2 that returns, with [theta] the value returned and
    [u^], [v^] the unit vectors from the vertex [o] to [m] and to [n]:
    the sine of [theta] is positive, the Jacobian row at [m] is
    [(cos theta u^ - v^) / (|u| sin theta)], the row at [n] is
    [(cos theta v^ - u^) / (|v| sin theta)], and the row at the vertex
    is minus their sum. *)
Theorem angle_jacobian_rows (xyz : ndarray2 R) (iangles : ndarray2 Z)
        (deriv : Z) (out : output R) (j : list (jslab R)) (f : nat)
        (row : list Z) (am ao an : nat) :
  bond_angles xyz iangles deriv = Ok out ->
  jacobian_of out = Some j ->
  nth_error (rows iangles) f = Some row ->
  atom_of (shape0 xyz) (nth 0 row 0%Z) = Ok am ->
  atom_of (shape0 xyz) (nth 1 row 0%Z) = Ok ao ->
  atom_of (shape0 xyz) (nth 2 row 0%Z) = Ok an ->
  am <> ao -> am <> an -> ao <> an ->
  let u := bond_u xyz am ao in
  let v := bond_u xyz an ao in
  let theta := nth f (values_of out) 0 in
  0 < sin theta /\
  jacobian_row j f am
  = vdivs (vsub (smulv (cos theta) (unit u)) (unit v))
          (norm3 u * sin theta) /\
  jacobian_row j f an
  = vdivs (vsub (smulv (cos theta) (unit v)) (unit u))
          (norm3 v * sin theta) /\
  jacobian_row j f ao
  = vneg (vadd (jacobian_row j f am) (jacobian_row j f an)).
Proof.
  intros Hcall Hj Hrow Hm Ho Hn Hmo Hmn Hon u v theta.
  pose proof (jacobian_of_order Angles _ _ _ _ _ Hcall Hj) as Hd.
  destruct (angle_value xyz iangles deriv out f row am ao an
              Hcall Hrow Hm Ho Hn) as (Hu & Hv & Hval).
  destruct (evaluate_feature Angles xyz iangles deriv out f _ Hcall Hrow)
    as (val & J & H & Hfeat & _ & HJ & _).
  destruct (angle_feature_jacobian xyz deriv row am ao an _ _ val J H
              Hm Ho Hn Hd Hfeat) as (Hnd & EJ).
  fold u v in Hu, Hv, Hval, Hnd, EJ.
  destruct (angle_row_end u v Hu Hv Hnd) as [Rm Rn].
  subst theta. rewrite Hval.
  split; [now apply sin_angle_pos|].
  unfold jacobian_row. rewrite (HJ j Hj), EJ.
  pose proof (atom_of_lt _ _ _ Hm) as Lm.
  pose proof (atom_of_lt _ _ _ Ho) as Lo.
  pose proof (atom_of_lt _ _ _ Hn) as Ln.
  pose proof (length_zero_jslab (shape0 xyz) deriv Hd) as L.
  rewrite !jget_upd, !length_upd, L. nat_eqb.
  rewrite (proj2 (Nat.ltb_lt _ _) Lm), (proj2 (Nat.ltb_lt _ _) Lo),
    (proj2 (Nat.ltb_lt _ _) Ln).
  split; [exact Rm|]. split; [exact Rn|]. reflexivity.
Qed.

Lemma angle_jacobian_rows_witness :
  exists out j,
    bond_angles Frames.square4 Frames.angle_012 1 = Ok out /\
    jacobian_of out = Some j /\
    0 < sin (nth 0 (values_of out) 0) /\
    jacobian_row j 0 1
    = vneg (vadd (jacobian_row j 0 0) (jacobian_row j 0 2)).
Proof.
  destruct (bond_angles_regular_ok Frames.square4 Frames.angle_012 1
              eq_refl eq_refl ltac:(auto))
    as [out Hcall].
  { intros row [<-|[]]. exact square4_angle_regular. }
  pose proof Hcall as Hinv.
  apply (evaluate_inv Angles) in Hinv as (_ & st & _ & ->).
  exists (returned 1 st), (jac st).
  split; [exact Hcall|]. split; [reflexivity|].
  destruct (angle_jacobian_rows Frames.square4 Frames.angle_012 1
              (returned 1 st) (jac st) 0%nat [0; 1; 2]%Z 0%nat 1%nat 2%nat
              Hcall eq_refl eq_refl eq_refl eq_refl eq_refl
              ltac:(discriminate) ltac:(discriminate) ltac:(discriminate))
    as (Hs & _ & _ & Ho).
  split; [exact Hs|exact Ho].
Defined.

(* ================================================================= *)
(** ** The Jacobian is the gradient *)

(** *** Derivatives along a straight path *)

Lemma derivable_pt_lim_ext (f g : R -> R) (x l : R) :
  (forall t, f t = g t) -> derivable_pt_lim f x l -> derivable_pt_lim g x l.
Proof.
  intros E D eps He. destruct (D eps He) as [d Hd].
  exists d. intros h Hh Hlt. rewrite <- !E. now apply Hd.
Qed.

(** A derivative at 0 is a matter of the values near 0. *)
Lemma derivable_pt_lim_near (f g : R -> R) (l d0 : R) :
  0 < d0 -> (forall t, Rabs t < d0 -> f t = g t) ->
  derivable_pt_lim f 0 l -> derivable_pt_lim g 0 l.
Proof.
  intros Hd0 E D eps He. destruct (D eps He) as [d Hd].
  assert (Hmin : 0 < Rmin d d0) by (apply Rmin_pos; [apply cond_pos|exact Hd0]).
  exists (mkposreal _ Hmin). simpl. intros h Hh Hlt.
  rewrite <- (E (0 + h)), <- (E 0).
  - apply Hd; [exact Hh|].
    eapply Rlt_le_trans; [exact Hlt|apply Rmin_l].
  - rewrite Rabs_R0. exact Hd0.
  - rewrite Rplus_0_l. eapply Rlt_le_trans; [exact Hlt|apply Rmin_r].
Qed.

Lemma derivable_pt_lim_value (f : R -> R) (x l l' : R) :
  l = l' -> derivable_pt_lim f x l -> derivable_pt_lim f x l'.
Proof. now intros ->. Qed.

Lemma quadratic_derivative (c b a : R) :
  derivable_pt_lim (fun t => c + b * t + a * (t * t)) 0 b.
Proof.
  pose proof (derivable_pt_lim_const c 0) as D0.
  pose proof (derivable_pt_lim_scal id b 0 1 (derivable_pt_lim_id 0)) as D1.
  pose proof (derivable_pt_lim_scal (id * id)%F a 0 _
                (derivable_pt_lim_mult id id 0 1 1
                   (derivable_pt_lim_id 0) (derivable_pt_lim_id 0))) as D2.
  pose proof (derivable_pt_lim_plus _ _ _ _ _
                (derivable_pt_lim_plus _ _ _ _ _ D0 D1) D2) as D.
  apply (derivable_pt_lim_value _ _ _ b) in D; [|unfold id; ring].
  exact D.
Qed.

Lemma dot3_path (u v a b : vec3 R) :
  derivable_pt_lim
    (fun t => dot3 (vadd u (smulv t a)) (vadd v (smulv t b)))
    0 (dot3 a v + dot3 u b).
Proof.
  apply (derivable_pt_lim_ext
           (fun t => dot3 u v + (dot3 a v + dot3 u b) * t
                     + dot3 a b * (t * t))).
  - intros t. destruct u, v, a, b. unfold_kernel. ring.
  - apply quadratic_derivative.
Qed.

Lemma norm3_path (u a : vec3 R) :
  norm3 u <> 0 ->
  derivable_pt_lim (fun t => norm3 (vadd u (smulv t a))) 0
    (dot3 u a / norm3 u).
Proof.
  intros Hu.
  assert (Hpos : 0 < dot3 u u).
  { apply norm3_pos_dot3. pose proof (norm3_nonneg u). lra. }
  pose (P := fun t => dot3 u u + 2 * dot3 u a * t + dot3 a a * (t * t)).
  assert (DP : derivable_pt_lim P 0 (2 * dot3 u a))
    by apply quadratic_derivative.
  assert (DS : derivable_pt_lim R_sqrt.sqrt (P 0)
                 (/ (2 * R_sqrt.sqrt (dot3 u u)))).
  { replace (P 0) with (dot3 u u) by (unfold P; ring).
    now apply derivable_pt_lim_sqrt. }
  pose proof (derivable_pt_lim_comp P R_sqrt.sqrt 0 _ _ DP DS) as D.
  apply (derivable_pt_lim_value _ _ _ (dot3 u a / norm3 u)) in D.
  - refine (derivable_pt_lim_ext _ _ _ _ _ D).
    intros t. unfold comp, P. rewrite norm3_dot3. f_equal.
    destruct u, a. unfold_kernel. ring.
  - rewrite norm3_dot3 in *. field. exact Hu.
Qed.

(** *** One coordinate of one atom moved *)

Lemma shape0_nudge a i t xyz : shape0 (nudge a i t xyz) = shape0 xyz.
Proof. unfold shape0, nudge. simpl. apply length_upd. Qed.

Lemma xyz_row_nudge a i t xyz b :
  xyz_row (nudge a i t xyz) b
  = if (b =? a)%nat && (a <? shape0 xyz)%nat
    then vadd (xyz_row xyz a) (smulv t (axis_unit i))
    else xyz_row xyz b.
Proof.
  unfold xyz_row at 1. unfold nudge. simpl rows. rewrite nth_upd.
  fold (shape0 xyz).
  destruct ((b =? a)%nat && (a <? shape0 xyz)%nat); [|reflexivity].
  reflexivity.
Qed.

Lemma xyz_row_nudge_same a i t xyz :
  (a < shape0 xyz)%nat ->
  xyz_row (nudge a i t xyz) a = vadd (xyz_row xyz a) (smulv t (axis_unit i)).
Proof.
  intros Ha. rewrite xyz_row_nudge, Nat.eqb_refl.
  now rewrite (proj2 (Nat.ltb_lt _ _) Ha).
Qed.

Lemma xyz_row_nudge_other a i t xyz b :
  b <> a -> xyz_row (nudge a i t xyz) b = xyz_row xyz b.
Proof.
  intros Hne. rewrite xyz_row_nudge.
  now rewrite (proj2 (Nat.eqb_neq _ _) Hne).
Qed.

Lemma bond_u_nudge a i t xyz x y :
  (x < shape0 xyz)%nat -> (y < shape0 xyz)%nat ->
  bond_u (nudge a i t xyz) x y
  = vadd (bond_u xyz x y) (smulv t (pull a x y i)).
Proof.
  intros Hx Hy. unfold bond_u, pull. rewrite !xyz_row_nudge.
  destruct (Nat.eqb_spec x a) as [->|Hxa], (Nat.eqb_spec y a) as [->|Hya];
    rewrite ?(proj2 (Nat.ltb_lt _ _) Hx), ?(proj2 (Nat.ltb_lt _ _) Hy);
    simpl andb; cbv iota;
    generalize (axis_unit i); intros e; vec_ring.
Qed.

Lemma dot3_axis_unit (w : vec3 R) i : dot3 w (axis_unit i) = vget w i.
Proof. destruct w, i; unfold_kernel; simpl; ring. Qed.

Lemma dot3_vzero_r (w : vec3 R) : dot3 w vzero = 0.
Proof. destruct w. unfold_kernel. ring. Qed.

Lemma dot3_vsub_r (w a b : vec3 R) : dot3 w (vsub a b) = dot3 w a - dot3 w b.
Proof. destruct w, a, b. unfold_kernel. ring. Qed.

Lemma dot3_pull (w : vec3 R) a x y i :
  dot3 w (pull a x y i)
  = (if (x =? a)%nat then vget w i else 0)
    - (if (y =? a)%nat then vget w i else 0).
Proof.
  unfold pull. rewrite dot3_vsub_r.
  destruct (x =? a)%nat, (y =? a)%nat;
    rewrite ?dot3_axis_unit, ?dot3_vzero_r; reflexivity.
Qed.

(** *** Bond lengths *)

Lemma single_row_loop (feat : feature R) row st :
  for_features feat 0 [row] st = step feat 0 row st.
Proof.
  simpl. destruct (step feat 0 row st); reflexivity.
Qed.

Lemma value_alone_bond (xyz : ndarray2 R) row am an :
  shape1 xyz = 3%nat ->
  atom_of (shape0 xyz) (nth 0 row 0%Z) = Ok am ->
  atom_of (shape0 xyz) (nth 1 row 0%Z) = Ok an ->
  value_alone Bonds xyz row = norm3 (bond_u xyz am an).
Proof.
  intros Sx Hm Hn. unfold value_alone.
  rewrite evaluate_run by (auto; reflexivity).
  simpl rows. rewrite single_row_loop. unfold step.
  simpl feature_of. rewrite bond_feature_order0, Hm, Hn.
  reflexivity.
Qed.

(** The rows of the Jacobian of one bond. *)
Lemma bond_rows (xyz : ndarray2 R) (ibonds : ndarray2 Z) deriv out j f row
      am an :
  bond_lengths xyz ibonds deriv = Ok out ->
  jacobian_of out = Some j ->
  nth_error (rows ibonds) f = Some row ->
  atom_of (shape0 xyz) (nth 0 row 0%Z) = Ok am ->
  atom_of (shape0 xyz) (nth 1 row 0%Z) = Ok an ->
  am <> an ->
  forall a,
    jacobian_row j f a
    = if (a =? an)%nat then vneg (unit (bond_u xyz am an))
      else if (a =? am)%nat then unit (bond_u xyz am an)
      else vzero.
Proof.
  intros Hcall Hj Hrow Hm Hn Hne a.
  pose proof (jacobian_of_order Bonds _ _ _ _ _ Hcall Hj) as Hd.
  destruct (evaluate_feature Bonds xyz ibonds deriv out f _ Hcall Hrow)
    as (v & J & H & Hfeat & _ & HJ & _).
  unfold jacobian_row. rewrite (HJ j Hj).
  revert Hfeat. simpl feature_of. unfold bond_feature.
  unfold atom_of in Hm, Hn. rewrite Hm, Hn, Hd.
  cbv beta iota zeta delta [bind]. intros [= _ <- _].
  pose proof (py_index_lt _ _ _ Hm) as Lm.
  pose proof (py_index_lt _ _ _ Hn) as Ln.
  pose proof (length_zero_jslab (shape0 xyz) deriv Hd) as L.
  rewrite !jget_upd, !length_upd, L.
  rewrite (proj2 (Nat.ltb_lt _ _) Lm), (proj2 (Nat.ltb_lt _ _) Ln).
  rewrite !andb_true_r, jget_zero_jslab. reflexivity.
Qed.

(** X17: the Jacobian of [bond_lengths] is the gradient of the bond
    length.  For a bond between two different atoms at different
    places, and for every atom [a] and axis [i], the entry
    [jacobian[f, a, i]] is the derivative at [t = 0] of the length that
    a call of order 0 returns for that bond once [xyz[a, i] += t]. *)
Theorem bond_jacobian_is_gradient (xyz : ndarray2 R) (ibonds : ndarray2 Z)
        (deriv : Z) (out : output R) (j : list (jslab R)) (f : nat)
        (row : list Z) (am an : nat) :
  bond_lengths xyz ibonds deriv = Ok out ->
  jacobian_of out = Some j ->
  nth_error (rows ibonds) f = Some row ->
  atom_of (shape0 xyz) (nth 0 row 0%Z) = Ok am ->
  atom_of (shape0 xyz) (nth 1 row 0%Z) = Ok an ->
  am <> an ->
  norm3 (bond_u xyz am an) <> 0 ->
  forall a i,
    derivable_pt_lim (fun t => value_alone Bonds (nudge a i t xyz) row) 0
      (vget (jacobian_row j f a) i).
Proof.
  intros Hcall Hj Hrow Hm Hn Hne Hu a i.
  rewrite (bond_rows xyz ibonds deriv out j f row am an
             Hcall Hj Hrow Hm Hn Hne a).
  pose proof (proj1 (proj1 (evaluate_inv Bonds _ _ _ _ Hcall))) as Sx.
  pose proof (atom_of_lt _ _ _ Hm) as Lm.
  pose proof (atom_of_lt _ _ _ Hn) as Ln.
  apply (derivable_pt_lim_ext
           (fun t => norm3 (vadd (bond_u xyz am an)
                                 (smulv t (pull a am an i))))).
  { intros t. symmetry.
    rewrite (value_alone_bond (nudge a i t xyz) row am an);
      rewrite ?shape0_nudge; auto.
    now rewrite bond_u_nudge. }
  eapply derivable_pt_lim_value; [|apply norm3_path; exact Hu].
  rewrite dot3_pull.
  unfold unit. generalize (norm3 (bond_u xyz am an)). intros p.
  generalize (bond_u xyz am an). intros u.
  destruct (Nat.eqb_spec a an) as [->|Han].
  - rewrite (proj2 (Nat.eqb_neq am an) Hne), Nat.eqb_refl.
    destruct u, i; unfold_kernel; simpl; unfold Rdiv; ring.
  - rewrite (proj2 (Nat.eqb_neq an a) (not_eq_sym Han)).
    destruct (Nat.eqb_spec a am) as [->|Ham].
    + rewrite Nat.eqb_refl.
      destruct u, i; unfold_kernel; simpl; unfold Rdiv; ring.
    + rewrite (proj2 (Nat.eqb_neq am a) (not_eq_sym Ham)).
      destruct i; unfold_kernel; simpl; unfold Rdiv; ring.
Qed.

Lemma bond_jacobian_is_gradient_witness :
  exists out j,
    bond_lengths Frames.square4 Frames.bonds_01_12 1 = Ok out /\
    jacobian_of out = Some j /\
    derivable_pt_lim
      (fun t => value_alone Bonds (nudge 0 X0 t Frames.square4) [0; 1]%Z) 0
      (vget (jacobian_row j 0 0) X0).
Proof.
  do 2 eexists. split; [reflexivity|]. split; [reflexivity|].
  apply (bond_jacobian_is_gradient Frames.square4 Frames.bonds_01_12 1 _ _
           0%nat [0; 1]%Z 0%nat 1%nat eq_refl eq_refl eq_refl eq_refl eq_refl).
  - discriminate.
  - real_eval. sqrt_literals. lra.
Defined.

(** *** Bond angles *)

Lemma vadd_smulv_0 (u a : vec3 R) : vadd u (smulv 0 a) = u.
Proof. vec_ring. Qed.

Lemma norm3_smulv_abs (s : R) (a : vec3 R) :
  norm3 (smulv s a) = Rabs s * norm3 a.
Proof.
  rewrite !norm3_dot3, dot3_smulv.
  rewrite sqrt_mult by (try apply dot3_self_nonneg; nra).
  fold (Rsqr s). now rewrite sqrt_Rsqr_abs.
Qed.

(** An arm that is not zero stays so while the move is shorter than
    the arm. *)
Lemma norm3_path_nonzero (u a : vec3 R) (t : R) :
  norm3 a <= 1 -> Rabs t < norm3 u -> norm3 (vadd u (smulv t a)) <> 0.
Proof.
  intros Ha Ht Hz.
  pose proof (norm3_triangle (vadd u (smulv t a)) (smulv (- t) a)) as Htri.
  replace (vadd (vadd u (smulv t a)) (smulv (- t) a)) with u in Htri
    by vec_ring.
  rewrite Hz, norm3_smulv_abs, Rabs_Ropp in Htri.
  pose proof (Rabs_pos t). pose proof (norm3_nonneg a). nra.
Qed.

Lemma norm3_axis_unit i : norm3 (axis_unit i) = 1.
Proof.
  destruct i; unfold norm3; simpl;
    match goal with
    | |- R_sqrt.sqrt ?x = _ => replace x with 1 by ring
    end; apply sqrt_1.
Qed.

Lemma norm3_vzero : norm3 (vzero : vec3 R) = 0.
Proof. now apply norm3_zero_iff. Qed.

Lemma norm3_pull a x y i : norm3 (pull a x y i) <= 1.
Proof.
  unfold pull. destruct (x =? a)%nat, (y =? a)%nat.
  - replace (vsub (axis_unit i) (axis_unit i)) with (vzero : vec3 R)
      by (generalize (axis_unit i); intros; vec_ring).
    rewrite norm3_vzero. lra.
  - replace (vsub (axis_unit i) vzero) with (axis_unit i)
      by (generalize (axis_unit i); intros; vec_ring).
    rewrite norm3_axis_unit. lra.
  - replace (vsub vzero (axis_unit i)) with (vneg (axis_unit i))
      by (generalize (axis_unit i); intros; vec_ring).
    rewrite norm3_vneg, norm3_axis_unit. lra.
  - replace (vsub vzero vzero) with (vzero : vec3 R) by vec_ring.
    rewrite norm3_vzero. lra.
Qed.

(** The derivative of the angle between two arms that move along
    straight paths. *)
Lemma angle_path (u v a b : vec3 R) :
  norm3 u <> 0 -> norm3 v <> 0 -> -1 < cosine u v < 1 ->
  derivable_pt_lim
    (fun t => acos (cosine (vadd u (smulv t a)) (vadd v (smulv t b)))) 0
    (dot3 (vdivs (vsub (smulv (cosine u v) (unit u)) (unit v))
                 (norm3 u * R_sqrt.sqrt (1 - (cosine u v)²))) a
     + dot3 (vdivs (vsub (smulv (cosine u v) (unit v)) (unit u))
                   (norm3 v * R_sqrt.sqrt (1 - (cosine u v)²))) b).
Proof.
  intros Hu Hv Hc.
  pose (N := fun t => dot3 (vadd u (smulv t a)) (vadd v (smulv t b))).
  pose (Pu := fun t => norm3 (vadd u (smulv t a))).
  pose (Pv := fun t => norm3 (vadd v (smulv t b))).
  assert (DN : derivable_pt_lim N 0 (dot3 a v + dot3 u b))
    by apply dot3_path.
  assert (DPu : derivable_pt_lim Pu 0 (dot3 u a / norm3 u))
    by now apply norm3_path.
  assert (DPv : derivable_pt_lim Pv 0 (dot3 v b / norm3 v))
    by now apply norm3_path.
  assert (N0 : N 0 = dot3 u v) by (unfold N; now rewrite !vadd_smulv_0).
  assert (Pu0 : Pu 0 = norm3 u) by (unfold Pu; now rewrite vadd_smulv_0).
  assert (Pv0 : Pv 0 = norm3 v) by (unfold Pv; now rewrite vadd_smulv_0).
  pose proof (derivable_pt_lim_mult Pu Pv 0 _ _ DPu DPv) as DD.
  assert (D0 : (Pu * Pv)%F 0 <> 0).
  { unfold mult_fct. rewrite Pu0, Pv0. now apply norm3_product_nonzero. }
  pose proof (derivable_pt_lim_div N (Pu * Pv)%F 0 _ _ DN DD D0) as DC.
  assert (C0 : (N / (Pu * Pv))%F 0 = cosine u v).
  { unfold div_fct, mult_fct. now rewrite N0, Pu0, Pv0. }
  assert (DA : derivable_pt_lim acos ((N / (Pu * Pv))%F 0)
                 (-1 / R_sqrt.sqrt (1 - (cosine u v)²))).
  { rewrite C0. exact (derive_pt_eq_1 _ _ _ _ (derive_pt_acos _ Hc)). }
  pose proof (derivable_pt_lim_comp _ acos 0 _ _ DC DA) as D.
  assert (Hs : 0 < R_sqrt.sqrt (1 - (cosine u v)²)).
  { apply sqrt_lt_R0. unfold Rsqr. nra. }
  eapply derivable_pt_lim_value; [|exact D].
  unfold mult_fct. rewrite N0, Pu0, Pv0.
  clear DN DPu DPv DD D0 DC C0 DA D N0 Pu0 Pv0 N Pu Pv Hc.
  revert Hs. generalize (R_sqrt.sqrt (1 - (cosine u v)²)). intros s Hs.
  unfold unit, cosine, Rsqr.
  revert Hu Hv. generalize (norm3 u) (norm3 v). intros p q Hp Hq.
  destruct u, v, a, b. unfold_kernel. simpl. field. repeat split; lra.
Qed.

Lemma value_alone_angle (xyz : ndarray2 R) row am ao an :
  shape1 xyz = 3%nat ->
  atom_of (shape0 xyz) (nth 0 row 0%Z) = Ok am ->
  atom_of (shape0 xyz) (nth 1 row 0%Z) = Ok ao ->
  atom_of (shape0 xyz) (nth 2 row 0%Z) = Ok an ->
  norm3 (bond_u xyz am ao) <> 0 -> norm3 (bond_u xyz an ao) <> 0 ->
  value_alone Angles xyz row
  = acos (cosine (bond_u xyz am ao) (bond_u xyz an ao)).
Proof.
  intros Sx Hm Ho Hn Hu Hv. unfold value_alone.
  rewrite evaluate_run by (auto; reflexivity).
  simpl rows. rewrite single_row_loop. unfold step.
  simpl feature_of.
  rewrite (angle_feature_order0 xyz row am ao an Hm Ho Hn Hu Hv).
  reflexivity.
Qed.

(** The rows of the Jacobian of one angle. *)
Lemma angle_rows (xyz : ndarray2 R) (iangles : ndarray2 Z) deriv out j f row
      am ao an :
  bond_angles xyz iangles deriv = Ok out ->
  jacobian_of out = Some j ->
  nth_error (rows iangles) f = Some row ->
  atom_of (shape0 xyz) (nth 0 row 0%Z) = Ok am ->
  atom_of (shape0 xyz) (nth 1 row 0%Z) = Ok ao ->
  atom_of (shape0 xyz) (nth 2 row 0%Z) = Ok an ->
  let u := bond_u xyz am ao in
  let v := bond_u xyz an ao in
  let theta := acos (cosine u v) in
  let tm := vdivs (vsub (smulv (cos theta) (unit u)) (unit v))
                  (norm3 u * sin theta) in
  let tn := vdivs (vsub (smulv (cos theta) (unit v)) (unit u))
                  (norm3 v * sin theta) in
  norm3 u <> 0 /\ norm3 v <> 0 /\ ~ degenerate u v /\
  forall a,
    jacobian_row j f a
    = if (a =? ao)%nat then vneg (vadd tm tn)
      else if (a =? an)%nat then tn
      else if (a =? am)%nat then tm
      else vzero.
Proof.
  intros Hcall Hj Hrow Hm Ho Hn u v theta tm tn.
  pose proof (jacobian_of_order Angles _ _ _ _ _ Hcall Hj) as Hd.
  destruct (angle_value xyz iangles deriv out f row am ao an
              Hcall Hrow Hm Ho Hn) as (Hu & Hv & _).
  destruct (evaluate_feature Angles xyz iangles deriv out f _ Hcall Hrow)
    as (val & J & H & Hfeat & _ & HJ & _).
  destruct (angle_feature_jacobian xyz deriv row am ao an _ _ val J H
              Hm Ho Hn Hd Hfeat) as (Hnd & EJ).
  fold u v in Hu, Hv, Hnd, EJ.
  destruct (angle_row_end u v Hu Hv Hnd) as [Rm Rn].
  fold theta in Rm, Rn. fold tm in Rm. fold tn in Rn.
  rewrite Rm, Rn in EJ.
  split; [exact Hu|]. split; [exact Hv|]. split; [exact Hnd|].
  intros a. unfold jacobian_row. rewrite (HJ j Hj), EJ.
  pose proof (atom_of_lt _ _ _ Hm) as Lm.
  pose proof (atom_of_lt _ _ _ Ho) as Lo.
  pose proof (atom_of_lt _ _ _ Hn) as Ln.
  pose proof (length_zero_jslab (shape0 xyz) deriv Hd) as L.
  rewrite !jget_upd, !length_upd, L.
  rewrite (proj2 (Nat.ltb_lt _ _) Lm), (proj2 (Nat.ltb_lt _ _) Lo),
    (proj2 (Nat.ltb_lt _ _) Ln).
  rewrite !andb_true_r, jget_zero_jslab. reflexivity.
Qed.

Lemma cosine_strict (u v : vec3 R) :
  norm3 u <> 0 -> norm3 v <> 0 -> ~ degenerate u v -> -1 < cosine u v < 1.
Proof.
  intros Hu Hv Hnd.
  pose proof (sin_angle_pos u v Hu Hv Hnd) as Hs.
  pose proof (cosine_bounds u v Hu Hv) as Hb.
  rewrite sin_acos in Hs by exact Hb.
  destruct (Req_dec_T (cosine u v) 1) as [E|E].
  { rewrite E in Hs. unfold Rsqr in Hs.
    replace (1 - 1 * 1) with 0 in Hs by ring. rewrite sqrt_0 in Hs. lra. }
  destruct (Req_dec_T (cosine u v) (-1)) as [E'|E'].
  { rewrite E' in Hs. unfold Rsqr in Hs.
    replace (1 - -1 * -1) with 0 in Hs by ring. rewrite sqrt_0 in Hs. lra. }
  lra.
Qed.

(** X18: the Jacobian of [bond_angles] is the gradient of the bond
    angle.  For an angle of three different atoms, in a call of order 1
    or 2 that returns, and for every atom [a] and axis [i], the entry
    [jacobian[f, a, i]] is the derivative at [t = 0] of the angle that
    a call of order 0 returns for that tuple once [xyz[a, i] += t]. *)
Theorem angle_jacobian_is_gradient (xyz : ndarray2 R) (iangles : ndarray2 Z)
        (deriv : Z) (out : output R) (j : list (jslab R)) (f : nat)
        (row : list Z) (am ao an : nat) :
  bond_angles xyz iangles deriv = Ok out ->
  jacobian_of out = Some j ->
  nth_error (rows iangles) f = Some row ->
  atom_of (shape0 xyz) (nth 0 row 0%Z) = Ok am ->
  atom_of (shape0 xyz) (nth 1 row 0%Z) = Ok ao ->
  atom_of (shape0 xyz) (nth 2 row 0%Z) = Ok an ->
  am <> ao -> am <> an -> ao <> an ->
  forall a i,
    derivable_pt_lim (fun t => value_alone Angles (nudge a i t xyz) row) 0
      (vget (jacobian_row j f a) i).
Proof.
  intros Hcall Hj Hrow Hm Ho Hn Hmo Hmn Hon a i.
  destruct (angle_rows xyz iangles deriv out j f row am ao an
              Hcall Hj Hrow Hm Ho Hn) as (Hu & Hv & Hnd & Hrows).
  rewrite (Hrows a). clear Hrows.
  pose proof (proj1 (proj1 (evaluate_inv Angles _ _ _ _ Hcall))) as Sx.
  pose proof (atom_of_lt _ _ _ Hm) as Lm.
  pose proof (atom_of_lt _ _ _ Ho) as Lo.
  pose proof (atom_of_lt _ _ _ Hn) as Ln.
  set (u := bond_u xyz am ao) in *. set (v := bond_u xyz an ao) in *.
  pose proof (cosine_strict u v Hu Hv Hnd) as Hc.
  assert (Hd0 : 0 < Rmin (norm3 u) (norm3 v)).
  { pose proof (norm3_nonneg u). pose proof (norm3_nonneg v).
    apply Rmin_pos; lra. }
  apply (derivable_pt_lim_near
           (fun t => acos (cosine (vadd u (smulv t (pull a am ao i)))
                                  (vadd v (smulv t (pull a an ao i)))))
           _ _ _ Hd0).
  { intros t Ht. symmetry.
    rewrite (value_alone_angle (nudge a i t xyz) row am ao an);
      rewrite ?shape0_nudge, ?bond_u_nudge; auto.
    - apply norm3_path_nonzero; [apply norm3_pull|].
      eapply Rlt_le_trans; [exact Ht|apply Rmin_l].
    - apply norm3_path_nonzero; [apply norm3_pull|].
      eapply Rlt_le_trans; [exact Ht|apply Rmin_r]. }
  eapply derivable_pt_lim_value; [|apply angle_path; assumption].
  rewrite !dot3_pull.
  rewrite cos_acos by lra. rewrite sin_acos by lra.
  generalize (vdivs (vsub (smulv (cosine u v) (unit u)) (unit v))
                    (norm3 u * R_sqrt.sqrt (1 - (cosine u v)²))).
  generalize (vdivs (vsub (smulv (cosine u v) (unit v)) (unit u))
                    (norm3 v * R_sqrt.sqrt (1 - (cosine u v)²))).
  intros tn tm.
  destruct (Nat.eqb_spec a ao) as [->|Hao].
  - rewrite (proj2 (Nat.eqb_neq am ao) Hmo), Nat.eqb_refl.
    rewrite (proj2 (Nat.eqb_neq an ao) (not_eq_sym Hon)).
    destruct tm, tn, i; unfold_kernel; simpl; ring.
  - rewrite (proj2 (Nat.eqb_neq ao a) (not_eq_sym Hao)).
    destruct (Nat.eqb_spec a an) as [->|Han].
    + rewrite (proj2 (Nat.eqb_neq am an) Hmn), Nat.eqb_refl. ring.
    + rewrite (proj2 (Nat.eqb_neq an a) (not_eq_sym Han)).
      destruct (Nat.eqb_spec a am) as [->|Ham].
      * rewrite Nat.eqb_refl. ring.
      * rewrite (proj2 (Nat.eqb_neq am a) (not_eq_sym Ham)).
        destruct i; unfold_kernel; simpl; ring.
Qed.

Lemma angle_jacobian_is_gradient_witness :
  exists out j,
    bond_angles Frames.square4 Frames.angle_012 1 = Ok out /\
    jacobian_of out = Some j /\
    derivable_pt_lim
      (fun t => value_alone Angles (nudge 1 X2 t Frames.square4) [0; 1; 2]%Z)
      0 (vget (jacobian_row j 0 1) X2).
Proof.
  destruct (bond_angles_regular_ok Frames.square4 Frames.angle_012 1
              eq_refl eq_refl ltac:(auto))
    as [out Hcall].
  { intros row [<-|[]]. exact square4_angle_regular. }
  pose proof Hcall as Hinv.
  apply (evaluate_inv Angles) in Hinv as (_ & st & _ & ->).
  exists (returned 1 st), (jac st).
  split; [exact Hcall|]. split; [reflexivity|].
  apply (angle_jacobian_is_gradient Frames.square4 Frames.angle_012 1
           (returned 1 st) (jac st) 0%nat [0; 1; 2]%Z 0%nat 1%nat 2%nat
           Hcall eq_refl eq_refl eq_refl eq_refl eq_refl);
    discriminate.
Defined.

(* ================================================================= *)
(** ** The Hessian of bond lengths is the derivative of the Jacobian *)

Lemma linear_derivative (c b : R) :
  derivable_pt_lim (fun t => c + t * b) 0 b.
Proof.
  apply (derivable_pt_lim_ext (fun t => c + b * t + 0 * (t * t))).
  - intros t. ring.
  - apply quadratic_derivative.
Qed.

(** The derivative of a coordinate of the unit vector along an arm
    that moves on a straight path. *)
Lemma unit_path (u e : vec3 R) (i : axis) :
  norm3 u <> 0 ->
  derivable_pt_lim
    (fun t => vget (unit (vadd u (smulv t e))) i) 0
    ((vget e i - dot3 (unit u) e * vget (unit u) i) / norm3 u).
Proof.
  intros Hu.
  pose (f1 := fun t => vget u i + t * vget e i).
  pose (f2 := fun t => norm3 (vadd u (smulv t e))).
  assert (D1 : derivable_pt_lim f1 0 (vget e i)) by apply linear_derivative.
  assert (D2 : derivable_pt_lim f2 0 (dot3 u e / norm3 u))
    by now apply norm3_path.
  assert (F2 : f2 0 = norm3 u) by (unfold f2; now rewrite vadd_smulv_0).
  assert (F1 : f1 0 = vget u i) by (unfold f1; ring).
  assert (N0 : f2 0 <> 0) by now rewrite F2.
  pose proof (derivable_pt_lim_div f1 f2 0 _ _ D1 D2 N0) as D.
  apply (derivable_pt_lim_ext (f1 / f2)%F).
  { intros t. unfold div_fct, f1, f2, unit.
    generalize (norm3 (vadd u (smulv t e))). intros p.
    destruct u, e, i; unfold_kernel; reflexivity. }
  eapply derivable_pt_lim_value; [|exact D].
  rewrite F1, F2. unfold unit, Rsqr.
  clear D1 D2 F1 F2 N0 D f1 f2.
  revert Hu. generalize (norm3 u). intros p Hp.
  destruct u, e, i; unfold_kernel; simpl; field; exact Hp.
Qed.

Lemma jacobian_alone_bond (xyz : ndarray2 R) row am an a i :
  shape1 xyz = 3%nat ->
  atom_of (shape0 xyz) (nth 0 row 0%Z) = Ok am ->
  atom_of (shape0 xyz) (nth 1 row 0%Z) = Ok an ->
  jacobian_alone Bonds xyz row a i
  = vget (if (a =? an)%nat then vneg (unit (bond_u xyz am an))
          else if (a =? am)%nat then unit (bond_u xyz am an)
          else vzero) i.
Proof.
  intros Sx Hm Hn. unfold jacobian_alone.
  rewrite evaluate_run by (auto; reflexivity).
  simpl rows. rewrite single_row_loop. unfold step.
  simpl feature_of. unfold bond_feature.
  pose proof (atom_of_lt _ _ _ Hm) as Lm.
  pose proof (atom_of_lt _ _ _ Hn) as Ln.
  unfold atom_of in Hm, Hn. rewrite Hm, Hn.
  cbv beta iota zeta delta [bind]. simpl Z.leb. cbv iota.
  unfold returned. simpl Z.eqb. cbv iota. simpl jac. simpl upd.
  unfold jacobian_row. simpl nth.
  rewrite !jget_upd, !length_upd, repeat_length.
  rewrite (proj2 (Nat.ltb_lt _ _) Lm), (proj2 (Nat.ltb_lt _ _) Ln).
  rewrite !andb_true_r, jget_zeros. reflexivity.
Qed.

(** The blocks of the Hessian of one bond. *)
Lemma bond_blocks (xyz : ndarray2 R) (ibonds : ndarray2 Z) out h f row
      am an :
  bond_lengths xyz ibonds 2 = Ok out ->
  hessian_of out = Some h ->
  nth_error (rows ibonds) f = Some row ->
  atom_of (shape0 xyz) (nth 0 row 0%Z) = Ok am ->
  atom_of (shape0 xyz) (nth 1 row 0%Z) = Ok an ->
  am <> an ->
  let u := unit (bond_u xyz am an) in
  let T := mdivs (outer3_minus_eye u u) (norm3 (bond_u xyz am an)) in
  forall a b,
    hessian_block h f a b
    = if ((a =? an) && (b =? an))%nat then mneg T
      else if ((a =? an) && (b =? am))%nat then T
      else if ((a =? am) && (b =? am))%nat then mneg T
      else if ((a =? am) && (b =? an))%nat then T
      else mzero.
Proof.
  intros Hcall Hh Hrow Hm Hn Hne u T a b.
  destruct (evaluate_feature Bonds xyz ibonds 2 out f _ Hcall Hrow)
    as (v & J & H & Hfeat & _ & _ & HH).
  unfold hessian_block. rewrite (HH h Hh).
  revert Hfeat. simpl feature_of. unfold bond_feature.
  pose proof (atom_of_lt _ _ _ Hm) as Lm.
  pose proof (atom_of_lt _ _ _ Hn) as Ln.
  unfold atom_of in Hm, Hn. rewrite Hm, Hn.
  cbv beta iota zeta delta [bind]. simpl Z.leb. simpl Z.eqb. cbv iota.
  intros [= _ _ <-].
  unfold zero_hslab. simpl Z.eqb. cbv iota.
  repeat (rewrite (hget_hset (shape0 xyz)) by (solve_square || assumption)).
  rewrite hget_zeros. reflexivity.
Qed.

Lemma vget_axis_unit i j :
  vget (axis_unit j) i = mget (eye : mat3 R) j i.
Proof. destruct i, j; reflexivity. Qed.

(** X19: the Hessian of [bond_lengths] is the derivative of its
    Jacobian (the relation that the test script probes for dihedrals
    with a finite difference).  For a
    bond between two different atoms at different places, and for all
    atoms [a], [b] and axes [i], [j], the entry
    [hessian[f, b, j, a, i]] is the derivative at [t = 0] of the entry
    [jacobian[., a, i]] that a call of order 1 returns for that bond
    once [xyz[b, j] += t]. *)
Theorem bond_hessian_is_derivative (xyz : ndarray2 R) (ibonds : ndarray2 Z)
        (out : output R) (h : list (hslab R)) (f : nat)
        (row : list Z) (am an : nat) :
  bond_lengths xyz ibonds 2 = Ok out ->
  hessian_of out = Some h ->
  nth_error (rows ibonds) f = Some row ->
  atom_of (shape0 xyz) (nth 0 row 0%Z) = Ok am ->
  atom_of (shape0 xyz) (nth 1 row 0%Z) = Ok an ->
  am <> an ->
  norm3 (bond_u xyz am an) <> 0 ->
  forall a i b j,
    derivable_pt_lim
      (fun t => jacobian_alone Bonds (nudge b j t xyz) row a i) 0
      (hessian_at h f b j a i).
Proof.
  intros Hcall Hh Hrow Hm Hn Hne Hu a i b j.
  unfold hessian_at.
  rewrite (bond_blocks xyz ibonds out h f row am an
             Hcall Hh Hrow Hm Hn Hne b a).
  pose proof (proj1 (proj1 (evaluate_inv Bonds _ _ _ _ Hcall))) as Sx.
  pose proof (atom_of_lt _ _ _ Hm) as Lm.
  pose proof (atom_of_lt _ _ _ Hn) as Ln.
  set (u := bond_u xyz am an) in *.
  set (e := pull b am an j).
  assert (DU : derivable_pt_lim
                 (fun t => vget (unit (vadd u (smulv t e))) i) 0
                 ((vget e i - dot3 (unit u) e * vget (unit u) i) / norm3 u))
    by now apply unit_path.
  assert (Hfun : forall t,
            jacobian_alone Bonds (nudge b j t xyz) row a i
            = vget (if (a =? an)%nat then vneg (unit (vadd u (smulv t e)))
                    else if (a =? am)%nat then unit (vadd u (smulv t e))
                    else vzero) i).
  { intros t.
    rewrite (jacobian_alone_bond (nudge b j t xyz) row am an a i);
      rewrite ?shape0_nudge; auto.
    now rewrite bond_u_nudge. }
  assert (He : vget e i
               = (if (am =? b)%nat then mget (eye : mat3 R) j i else 0)
                 - (if (an =? b)%nat then mget (eye : mat3 R) j i else 0)).
  { subst e. unfold pull.
    destruct (am =? b)%nat, (an =? b)%nat; destruct i, j;
      unfold_kernel; simpl; ring. }
  assert (Hd : dot3 (unit u) e
               = (if (am =? b)%nat then vget (unit u) j else 0)
                 - (if (an =? b)%nat then vget (unit u) j else 0))
    by (subst e; apply dot3_pull).
  pose (sgn := if (a =? an)%nat then -1 else if (a =? am)%nat then 1 else 0).
  apply (derivable_pt_lim_ext
           (mult_real_fct sgn
              (fun t => vget (unit (vadd u (smulv t e))) i))).
  { intros t. rewrite Hfun. unfold mult_real_fct, sgn.
    destruct (a =? an)%nat; [|destruct (a =? am)%nat];
      destruct (unit _), i; unfold_kernel; simpl; ring. }
  eapply derivable_pt_lim_value;
    [|exact (derivable_pt_lim_scal _ sgn _ _ DU)].
  rewrite He, Hd. unfold sgn.
  revert Hu. unfold unit. generalize (norm3 u). intros p Hp.
  clear - Hne Hp.
  repeat match goal with
  | |- context [(?x =? ?y)%nat] =>
      destruct (Nat.eqb_spec x y); try subst; try congruence
  end;
    simpl andb; cbv iota;
    destruct u, i, j; unfold_kernel; simpl; field; exact Hp.
Qed.

Lemma bond_hessian_is_derivative_witness :
  exists out h,
    bond_lengths Frames.square4 Frames.bonds_01_12 2 = Ok out /\
    hessian_of out = Some h /\
    derivable_pt_lim
      (fun t => jacobian_alone Bonds (nudge 0 X1 t Frames.square4)
                  [0; 1]%Z 1 X1)
      0 (hessian_at h 0 0 X1 1 X1).
Proof.
  do 2 eexists. split; [reflexivity|]. split; [reflexivity|].
  apply (bond_hessian_is_derivative Frames.square4 Frames.bonds_01_12 _ _
           0%nat [0; 1]%Z 0%nat 1%nat eq_refl eq_refl eq_refl eq_refl eq_refl).
  - discriminate.
  - real_eval. sqrt_literals. lra.
Defined.

(* ================================================================= *)
(** ** Symmetric Hessians *)

Lemma bond_lengths_hessian_symmetric_witness :
  exists out h,
    bond_lengths Frames.square4 Frames.bonds_01_12 2 = Ok out /\
    hessian_of out = Some h /\
    hessian_at h 0 0 X0 1 X1 = hessian_at h 0 1 X1 0 X0.
Proof.
  do 2 eexists. split; [reflexivity|]. split; [reflexivity|].
  eapply (bond_lengths_hessian_symmetric Frames.square4 Frames.bonds_01_12
            _ _ 0%nat 0%Z 1%Z 0%nat 1%nat); try reflexivity.
  discriminate.
Defined.

Lemma bond_angles_hessian_symmetric_witness :
  exists out h,
    bond_angles Frames.square4 Frames.angle_012 2 = Ok out /\
    hessian_of out = Some h /\
    hessian_at h 0 0 X0 2 X1 = hessian_at h 0 2 X1 0 X0.
Proof.
  destruct (bond_angles_regular_ok Frames.square4 Frames.angle_012 2
              eq_refl eq_refl ltac:(auto))
    as [out Hcall].
  { intros row [<-|[]]. exact square4_angle_regular. }
  pose proof Hcall as Hinv.
  apply (evaluate_inv Angles) in Hinv as (_ & st & _ & ->).
  exists (returned 2 st), (hess st).
  split; [exact Hcall|]. split; [reflexivity|].
  apply (bond_angles_hessian_symmetric Frames.square4 Frames.angle_012
           (returned 2 st) (hess st) 0%nat 0%Z 1%Z 2%Z 0%nat 1%nat 2%nat
           Hcall); try reflexivity; discriminate.
Defined.

(* ================================================================= *)
(** ** The Jacobian of dihedrals *)

(** One minus the squared cosine between two arms, from their cross
    product. *)
Lemma one_minus_cos2 (u w : vec3 R) :
  norm3 u <> 0 -> norm3 w <> 0 ->
  1 - dot3 (unit u) (unit w) * dot3 (unit u) (unit w)
  = dot3 (cross3 u w) (cross3 u w)
    / (norm3 u * norm3 u * (norm3 w * norm3 w)).
Proof.
  intros Hu Hw. rewrite dot3_unit by assumption. unfold cosine.
  rewrite lagrange, <- !norm3_sqr. field. auto.
Qed.

(** The four vectors from which [dihedral_angles] builds its rows,
    without the unit vectors. *)
Lemma dihedral_terms (u v w : vec3 R) :
  dot3 (cross3 u w) (cross3 u w) <> 0 ->
  dot3 (cross3 v w) (cross3 v w) <> 0 ->
  norm3 u <> 0 -> norm3 v <> 0 -> norm3 w <> 0 ->
  let duw := dot3 (unit u) (unit w) in
  let dvw := dot3 (unit v) (unit w) in
  let cuw := vdivs (cross3 u w) (norm3 u * norm3 w) in
  let cvw := vdivs (cross3 v w) (norm3 v * norm3 w) in
  let B := cross3 u w in
  let A := cross3 v w in
  vdivs cuw (norm3 u * (1 - duw * duw)) = smulv (norm3 w / dot3 B B) B /\
  vdivs cvw (norm3 v * (1 - dvw * dvw)) = smulv (norm3 w / dot3 A A) A /\
  vdivs (vmuls cuw duw) (norm3 w * (1 - duw * duw))
  = smulv (dot3 u w / (norm3 w * dot3 B B)) B /\
  vdivs (vmuls (vneg cvw) dvw) (norm3 w * (1 - dvw * dvw))
  = smulv (- (dot3 v w / (norm3 w * dot3 A A))) A.
Proof.
  intros HB HA Hu Hv Hw duw dvw cuw cvw B A.
  subst duw dvw cuw cvw B A.
  rewrite !one_minus_cos2 by assumption.
  rewrite !dot3_unit by assumption. unfold cosine.
  set (bb := dot3 (cross3 u w) (cross3 u w)) in *. clearbody bb.
  set (aa := dot3 (cross3 v w) (cross3 v w)) in *. clearbody aa.
  generalize (dot3 u w) (dot3 v w). intros uw vw.
  generalize (cross3 u w) (cross3 v w). intros B A.
  set (p := norm3 u) in *. clearbody p.
  set (q := norm3 v) in *. clearbody q.
  set (r := norm3 w) in *. clearbody r.
  repeat split; destruct A, B; apply vec3_ext; intros [];
    unfold_kernel; simpl; field; auto.
Qed.

Lemma cross3_nonzero (u w : vec3 R) :
  dot3 (cross3 u w) (cross3 u w) <> 0 -> norm3 u <> 0 /\ norm3 w <> 0.
Proof.
  intros HB. rewrite lagrange in HB.
  split; intros Hz; apply norm3_zero_dot3 in Hz; apply HB; rewrite Hz.
  - apply norm3_zero_iff in Hz || idtac.
    assert (E : dot3 u w * dot3 u w = 0).
    { pose proof (dot3_self_nonneg (cross3 u w)) as Hc.
      rewrite lagrange, Hz in Hc. nra. }
    rewrite E. ring.
  - assert (E : dot3 u w * dot3 u w = 0).
    { pose proof (dot3_self_nonneg (cross3 u w)) as Hc.
      rewrite lagrange, Hz in Hc. nra. }
    rewrite E. ring.
Qed.

(** The body of [dihedral_angles] at order 1 or 2: the four rows. *)
Lemma dihedral_feature_jacobian (xyz : ndarray2 R) deriv row am ao ap an
      J0 H0 val J H :
  atom_of (shape0 xyz) (nth 0 row 0%Z) = Ok am ->
  atom_of (shape0 xyz) (nth 1 row 0%Z) = Ok ao ->
  atom_of (shape0 xyz) (nth 2 row 0%Z) = Ok ap ->
  atom_of (shape0 xyz) (nth 3 row 0%Z) = Ok an ->
  (1 <=? deriv)%Z = true ->
  dihedral_feature xyz deriv row J0 H0 = Ok (val, J, H) ->
  let u := bond_u xyz am ao in
  let v := bond_u xyz an ap in
  let w := bond_u xyz ap ao in
  let duw := dot3 (unit u) (unit w) in
  let dvw := dot3 (unit v) (unit w) in
  let cuw := vdivs (cross3 u w) (norm3 u * norm3 w) in
  let cvw := vdivs (cross3 v w) (norm3 v * norm3 w) in
  let t1 := vdivs cuw (norm3 u * (1 - duw * duw)) in
  let t2 := vdivs cvw (norm3 v * (1 - dvw * dvw)) in
  let t3 := vdivs (vmuls cuw duw) (norm3 w * (1 - duw * duw)) in
  let t4 := vdivs (vmuls (vneg cvw) dvw) (norm3 w * (1 - dvw * dvw)) in
  J = upd ap (vadd (vsub t2 t3) t4)
        (upd ao (vsub (vadd (vneg t1) t3) t4)
           (upd an (vneg t2) (upd am t1 J0))).
Proof.
  intros Hm Ho Hp Hn Hd. unfold dihedral_feature.
  unfold atom_of in Hm, Ho, Hp, Hn. rewrite Hm, Ho, Hn, Hp, Hd.
  cbv beta iota zeta delta [bind]. intros [= _ <- _]. reflexivity.
Qed.

(** The rows of the Jacobian of one dihedral, in closed form. *)
Lemma dihedral_rows (xyz : ndarray2 R) (idihedrals : ndarray2 Z) deriv out
      j f row am ao ap an :
  dihedral_angles xyz idihedrals deriv = Ok out ->
  jacobian_of out = Some j ->
  nth_error (rows idihedrals) f = Some row ->
  atom_of (shape0 xyz) (nth 0 row 0%Z) = Ok am ->
  atom_of (shape0 xyz) (nth 1 row 0%Z) = Ok ao ->
  atom_of (shape0 xyz) (nth 2 row 0%Z) = Ok ap ->
  atom_of (shape0 xyz) (nth 3 row 0%Z) = Ok an ->
  let u := bond_u xyz am ao in
  let v := bond_u xyz an ap in
  let w := bond_u xyz ap ao in
  let B := cross3 u w in
  let A := cross3 v w in
  dot3 B B <> 0 -> dot3 A A <> 0 ->
  let t1 := smulv (norm3 w / dot3 B B) B in
  let t2 := smulv (norm3 w / dot3 A A) A in
  let t3 := smulv (dot3 u w / (norm3 w * dot3 B B)) B in
  let t4 := smulv (- (dot3 v w / (norm3 w * dot3 A A))) A in
  forall a,
    jacobian_row j f a
    = if (a =? ap)%nat then vadd (vsub t2 t3) t4
      else if (a =? ao)%nat then vsub (vadd (vneg t1) t3) t4
      else if (a =? an)%nat then vneg t2
      else if (a =? am)%nat then t1
      else vzero.
Proof.
  intros Hcall Hj Hrow Hm Ho Hp Hn u v w B A HB HA t1 t2 t3 t4 a.
  pose proof (jacobian_of_order Dihedrals _ _ _ _ _ Hcall Hj) as Hd.
  destruct (evaluate_feature Dihedrals xyz idihedrals deriv out f _
              Hcall Hrow)
    as (val & J & H & Hfeat & _ & HJ & _).
  unfold jacobian_row. rewrite (HJ j Hj).
  rewrite (dihedral_feature_jacobian xyz deriv row am ao ap an _ _ val J H
             Hm Ho Hp Hn Hd Hfeat).
  destruct (cross3_nonzero u w HB) as [Hu Hw].
  destruct (cross3_nonzero v w HA) as [Hv _].
  destruct (dihedral_terms u v w HB HA Hu Hv Hw) as (E1 & E2 & E3 & E4).
  fold u v w. rewrite E1, E2, E3, E4.
  pose proof (atom_of_lt _ _ _ Hm) as Lm.
  pose proof (atom_of_lt _ _ _ Ho) as Lo.
  pose proof (atom_of_lt _ _ _ Hp) as Lp.
  pose proof (atom_of_lt _ _ _ Hn) as Ln.
  pose proof (length_zero_jslab (shape0 xyz) deriv Hd) as L.
  rewrite !jget_upd, !length_upd, L.
  rewrite (proj2 (Nat.ltb_lt _ _) Lm), (proj2 (Nat.ltb_lt _ _) Lo),
    (proj2 (Nat.ltb_lt _ _) Lp), (proj2 (Nat.ltb_lt _ _) Ln).
  rewrite !andb_true_r, jget_zero_jslab. reflexivity.
Qed.

Lemma dot3_cross3_l (a b : vec3 R) : dot3 (cross3 a b) a = 0.
Proof. destruct a, b. unfold_kernel. ring. Qed.

Lemma dot3_cross3_r (a b : vec3 R) : dot3 (cross3 a b) b = 0.
Proof. destruct a, b. unfold_kernel. ring. Qed.

(** X22: for a dihedral [(m, o, p, n)] of four different atoms, no
    three of them in a row, in a call of order 1 or 2: with
    [u = x[m] - x[o]], [v = x[n] - x[p]] and [w = x[p] - x[o]], the
    Jacobian row at [m] is [|w| (u x w) / |u x w|^2] and the row at [n]
    is [- |w| (v x w) / |v x w|^2].  So the row of an end atom is at
    right angles to the plane of that atom and of the two middle atoms:
    moving an end atom within that plane leaves the dihedral unchanged
    to first order. *)
Theorem dihedral_jacobian_rows (xyz : ndarray2 R) (idihedrals : ndarray2 Z)
        (deriv : Z) (out : output R) (j : list (jslab R)) (f : nat)
        (row : list Z) (am ao ap an : nat) :
  dihedral_angles xyz idihedrals deriv = Ok out ->
  jacobian_of out = Some j ->
  nth_error (rows idihedrals) f = Some row ->
  atom_of (shape0 xyz) (nth 0 row 0%Z) = Ok am ->
  atom_of (shape0 xyz) (nth 1 row 0%Z) = Ok ao ->
  atom_of (shape0 xyz) (nth 2 row 0%Z) = Ok ap ->
  atom_of (shape0 xyz) (nth 3 row 0%Z) = Ok an ->
  am <> ao -> am <> ap -> am <> an -> ao <> ap -> ao <> an -> ap <> an ->
  let u := bond_u xyz am ao in
  let v := bond_u xyz an ap in
  let w := bond_u xyz ap ao in
  dot3 (cross3 u w) (cross3 u w) <> 0 ->
  dot3 (cross3 v w) (cross3 v w) <> 0 ->
  jacobian_row j f am
  = smulv (norm3 w / dot3 (cross3 u w) (cross3 u w)) (cross3 u w) /\
  jacobian_row j f an
  = smulv (- (norm3 w / dot3 (cross3 v w) (cross3 v w))) (cross3 v w) /\
  dot3 (jacobian_row j f am) u = 0 /\ dot3 (jacobian_row j f am) w = 0 /\
  dot3 (jacobian_row j f an) v = 0 /\ dot3 (jacobian_row j f an) w = 0.
Proof.
  intros Hcall Hj Hrow Hm Ho Hp Hn Hmo Hmp Hmn Hop Hon Hpn u v w HB HA.
  pose proof (dihedral_rows xyz idihedrals deriv out j f row am ao ap an
                Hcall Hj Hrow Hm Ho Hp Hn HB HA) as Hrows.
  cbv zeta in Hrows. fold u v w in Hrows.
  assert (Em : jacobian_row j f am
               = smulv (norm3 w / dot3 (cross3 u w) (cross3 u w))
                       (cross3 u w)).
  { rewrite (Hrows am). nat_eqb. reflexivity. }
  assert (En : jacobian_row j f an
               = smulv (- (norm3 w / dot3 (cross3 v w) (cross3 v w)))
                       (cross3 v w)).
  { rewrite (Hrows an). nat_eqb.
    generalize (norm3 w / dot3 (cross3 v w) (cross3 v w)). intros k.
    generalize (cross3 v w). intros A. vec_ring. }
  split; [exact Em|]. split; [exact En|].
  rewrite Em, En, !dot3_smulv_l, !dot3_cross3_l, !dot3_cross3_r.
  repeat split; ring.
Qed.

Lemma dihedral_jacobian_rows_witness :
  exists out j,
    dihedral_angles Frames.square4 Frames.dihedral_0123 1 = Ok out /\
    jacobian_of out = Some j /\
    dot3 (jacobian_row j 0 0) (bond_u Frames.square4 0 1) = 0 /\
    dot3 (jacobian_row j 0 0) (bond_u Frames.square4 2 1) = 0.
Proof.
  do 2 eexists. split; [reflexivity|]. split; [reflexivity|].
  destruct (dihedral_jacobian_rows Frames.square4 Frames.dihedral_0123 1
              _ _ 0%nat [0; 1; 2; 3]%Z 0%nat 1%nat 2%nat 3%nat
              eq_refl eq_refl eq_refl eq_refl eq_refl eq_refl eq_refl
              ltac:(discriminate) ltac:(discriminate) ltac:(discriminate)
              ltac:(discriminate) ltac:(discriminate) ltac:(discriminate))
    as (_ & _ & Hu & Hw & _).
  - real_eval. lra.
  - real_eval. lra.
  - split; [exact Hu|exact Hw].
Defined.

(* ================================================================= *)
(** ** The gradient of a dihedral *)

(** *** Paths in space *)

Lemma vderiv_line (u a : vec3 R) : vderiv (fun t => vadd u (smulv t a)) a.
Proof.
  intros i.
  apply (derivable_pt_lim_ext (fun t => vget u i + t * vget a i)).
  - intros t. destruct u, a, i; reflexivity.
  - apply linear_derivative.
Qed.

Lemma deriv_dot (P Q : R -> vec3 R) (P' Q' : vec3 R) :
  vderiv P P' -> vderiv Q Q' ->
  derivable_pt_lim (fun t => dot3 (P t) (Q t)) 0
    (dot3 P' (Q 0) + dot3 (P 0) Q').
Proof.
  intros DP DQ.
  pose proof (fun i => derivable_pt_lim_mult _ _ _ _ _ (DP i) (DQ i)) as M.
  pose proof (derivable_pt_lim_plus _ _ _ _ _
                (derivable_pt_lim_plus _ _ _ _ _ (M X0) (M X1)) (M X2)) as D.
  eapply derivable_pt_lim_value;
    [|refine (derivable_pt_lim_ext _ _ _ _ _ D)].
  - destruct P', Q', (P 0), (Q 0). unfold_kernel. simpl. ring.
  - intros t. unfold plus_fct, mult_fct. destruct (P t), (Q t).
    reflexivity.
Qed.

Lemma vderiv_cross (P Q : R -> vec3 R) (P' Q' : vec3 R) :
  vderiv P P' -> vderiv Q Q' ->
  vderiv (fun t => cross3 (P t) (Q t))
         (vadd (cross3 P' (Q 0)) (cross3 (P 0) Q')).
Proof.
  intros DP DQ.
  pose proof (fun i k => derivable_pt_lim_mult _ _ _ _ _ (DP i) (DQ k)) as M.
  intros [].
  - eapply derivable_pt_lim_value;
      [|refine (derivable_pt_lim_ext _ _ _ _ _
                  (derivable_pt_lim_minus _ _ _ _ _ (M X1 X2) (M X2 X1)))].
    + destruct P', Q', (P 0), (Q 0). unfold_kernel. simpl. ring.
    + intros t. unfold minus_fct, mult_fct. destruct (P t), (Q t).
      reflexivity.
  - eapply derivable_pt_lim_value;
      [|refine (derivable_pt_lim_ext _ _ _ _ _
                  (derivable_pt_lim_minus _ _ _ _ _ (M X2 X0) (M X0 X2)))].
    + destruct P', Q', (P 0), (Q 0). unfold_kernel. simpl. ring.
    + intros t. unfold minus_fct, mult_fct. destruct (P t), (Q t).
      reflexivity.
  - eapply derivable_pt_lim_value;
      [|refine (derivable_pt_lim_ext _ _ _ _ _
                  (derivable_pt_lim_minus _ _ _ _ _ (M X0 X1) (M X1 X0)))].
    + destruct P', Q', (P 0), (Q 0). unfold_kernel. simpl. ring.
    + intros t. unfold minus_fct, mult_fct. destruct (P t), (Q t).
      reflexivity.
Qed.

(** *** The derivative of [atan2] *)

(** A function with a derivative at 0 keeps its sign near 0. *)
Lemma positive_near (f : R -> R) (l : R) :
  derivable_pt_lim f 0 l -> 0 < f 0 ->
  exists d, 0 < d /\ forall t, Rabs t < d -> 0 < f t.
Proof.
  intros D Hpos.
  assert (C : continuity_pt f 0).
  { apply derivable_continuous_pt. exists l. exact D. }
  destruct (C (f 0 / 2)) as (d & Hd & Hnear); [lra|].
  exists d. split; [exact Hd|]. intros t Ht.
  destruct (Req_dec_T t 0) as [->|Hne]; [exact Hpos|].
  specialize (Hnear t). simpl in Hnear. unfold R_dist, D_x, no_cond in Hnear.
  rewrite Rminus_0_r in Hnear.
  assert (Habs : Rabs (f t - f 0) < f 0 / 2).
  { apply Hnear. split; [split; [exact I|auto]|exact Ht]. }
  apply Rabs_def2 in Habs. lra.
Qed.

Lemma negative_near (f : R -> R) (l : R) :
  derivable_pt_lim f 0 l -> f 0 < 0 ->
  exists d, 0 < d /\ forall t, Rabs t < d -> f t < 0.
Proof.
  intros D Hneg.
  destruct (positive_near (- f)%F (- l)
              (derivable_pt_lim_opp _ _ _ D)) as (d & Hd & Hnear).
  { unfold opp_fct. lra. }
  exists d. split; [exact Hd|]. intros t Ht.
  specialize (Hnear t Ht). unfold opp_fct in Hnear. lra.
Qed.

(** [atan2] on the three half planes that avoid the cut. *)
Lemma atan2_right (y x : R) : 0 < x -> atan2 y x = atan (y / x).
Proof. intros Hx. unfold atan2. now destruct (Rlt_dec 0 x). Qed.

Lemma atan_ratio_pos (z : R) : 0 < z -> atan z = PI / 2 - atan (/ z).
Proof. intros Hz. rewrite atan_inv by exact Hz. lra. Qed.

Lemma atan2_upper (y x : R) : 0 < y -> atan2 y x = PI / 2 - atan (x / y).
Proof.
  intros Hy. unfold atan2.
  destruct (Rlt_dec 0 x) as [Hx|Hx].
  - rewrite (atan_ratio_pos (y / x)) by (apply Rdiv_lt_0_compat; lra).
    do 2 f_equal. field. lra.
  - destruct (Rlt_dec x 0) as [Hx'|Hx'].
    + destruct (Rle_dec 0 y) as [_|C]; [|lra].
      replace (y / x) with (- (- y / x)) by (field; lra).
      rewrite atan_opp.
      assert (Hz : 0 < - y / x).
      { replace (- y / x) with (y / - x) by (field; lra).
        apply Rdiv_lt_0_compat; lra. }
      rewrite (atan_ratio_pos _ Hz).
      replace (/ (- y / x)) with (- (x / y)) by (field; lra).
      rewrite atan_opp. lra.
    + assert (x = 0) by lra. subst x.
      destruct (Rlt_dec 0 y) as [_|C]; [|lra].
      replace (0 / y) with 0 by (field; lra). rewrite atan_0. lra.
Qed.

Lemma atan2_lower (y x : R) : y < 0 -> atan2 y x = - (PI / 2) - atan (x / y).
Proof.
  intros Hy. unfold atan2.
  destruct (Rlt_dec 0 x) as [Hx|Hx].
  - replace (y / x) with (- (- y / x)) by (field; lra).
    rewrite atan_opp.
    assert (Hz : 0 < - y / x) by (apply Rdiv_lt_0_compat; lra).
    rewrite (atan_ratio_pos _ Hz).
    replace (/ (- y / x)) with (- (x / y)) by (field; lra).
    rewrite atan_opp. lra.
  - destruct (Rlt_dec x 0) as [Hx'|Hx'].
    + destruct (Rle_dec 0 y) as [C|_]; [lra|].
      assert (Hz : 0 < y / x).
      { replace (y / x) with (- y / - x) by (field; lra).
        apply Rdiv_lt_0_compat; lra. }
      rewrite (atan_ratio_pos _ Hz).
      replace (/ (y / x)) with (x / y) by (field; lra). lra.
    + assert (x = 0) by lra. subst x.
      destruct (Rlt_dec 0 y) as [C|_]; [lra|].
      destruct (Rlt_dec y 0) as [_|C]; [|lra].
      replace (0 / y) with 0 by (field; lra). rewrite atan_0. lra.
Qed.

(** The derivative of a quotient under [atan]. *)
Lemma atan_ratio_path (f g : R -> R) (f' g' : R) :
  derivable_pt_lim f 0 f' -> derivable_pt_lim g 0 g' -> g 0 <> 0 ->
  derivable_pt_lim (fun t => atan (f t / g t)) 0
    ((f' * g 0 - g' * f 0) / (f 0 * f 0 + g 0 * g 0)).
Proof.
  intros Df Dg Hg.
  pose proof (derivable_pt_lim_div f g 0 _ _ Df Dg Hg) as Dq.
  pose proof (derivable_pt_lim_comp _ atan 0 _ _ Dq
                (derivable_pt_lim_atan _)) as D.
  eapply derivable_pt_lim_value;
    [|refine (derivable_pt_lim_ext _ _ _ _ _ D)].
  - unfold div_fct, Rsqr.
    assert (Hgg : 0 < g 0 * g 0).
    { destruct (Rtotal_order (g 0) 0) as [?|[?|?]]; [nra|contradiction|nra]. }
    assert (Hff : 0 <= f 0 * f 0) by nra.
    field. repeat split; first [exact Hg | nra].
  - intros t. reflexivity.
Qed.

(** Away from the cut and from the origin, [atan2] along a path has
    this derivative. *)
Lemma atan2_path (y x : R -> R) (y' x' : R) :
  derivable_pt_lim y 0 y' -> derivable_pt_lim x 0 x' ->
  0 < x 0 \/ y 0 <> 0 ->
  derivable_pt_lim (fun t => atan2 (y t) (x t)) 0
    ((x 0 * y' - y 0 * x') / (x 0 * x 0 + y 0 * y 0)).
Proof.
  intros Dy Dx Hreg.
  destruct (Rlt_dec 0 (x 0)) as [Hx|Hx].
  - destruct (positive_near x x' Dx Hx) as (d & Hd & Hnear).
    apply (derivable_pt_lim_near (fun t => atan (y t / x t)) _ _ d Hd).
    { intros t Ht. symmetry. apply atan2_right. now apply Hnear. }
    eapply derivable_pt_lim_value;
      [|apply (atan_ratio_path y x y' x' Dy Dx); lra].
    field. nra.
  - destruct Hreg as [C|Hy]; [contradiction|].
    destruct (Rlt_dec 0 (y 0)) as [Hy'|Hy'].
    + destruct (positive_near y y' Dy Hy') as (d & Hd & Hnear).
      apply (derivable_pt_lim_near
               (fun t => PI / 2 - atan (x t / y t)) _ _ d Hd).
      { intros t Ht. symmetry. apply atan2_upper. now apply Hnear. }
      pose proof (derivable_pt_lim_minus _ _ _ _ _
                    (derivable_pt_lim_const (PI / 2) 0)
                    (atan_ratio_path x y x' y' Dx Dy Hy)) as D.
      eapply derivable_pt_lim_value;
        [|refine (derivable_pt_lim_ext _ _ _ _ _ D)].
      * field. nra.
      * intros t. reflexivity.
    + assert (Hneg : y 0 < 0) by lra.
      destruct (negative_near y y' Dy Hneg) as (d & Hd & Hnear).
      apply (derivable_pt_lim_near
               (fun t => - (PI / 2) - atan (x t / y t)) _ _ d Hd).
      { intros t Ht. symmetry. apply atan2_lower. now apply Hnear. }
      pose proof (derivable_pt_lim_minus _ _ _ _ _
                    (derivable_pt_lim_const (- (PI / 2)) 0)
                    (atan_ratio_path x y x' y' Dx Dy Hy)) as D.
      eapply derivable_pt_lim_value;
        [|refine (derivable_pt_lim_ext _ _ _ _ _ D)].
      * field. nra.
      * intros t. reflexivity.
Qed.

(* ================================================================= *)
(** ** The Jacobian of dihedrals against the gradient *)

(** *** The dihedral along a path *)

Lemma value_alone_dihedral (xyz : ndarray2 R) row am ao ap an :
  shape1 xyz = 3%nat ->
  atom_of (shape0 xyz) (nth 0 row 0%Z) = Ok am ->
  atom_of (shape0 xyz) (nth 1 row 0%Z) = Ok ao ->
  atom_of (shape0 xyz) (nth 2 row 0%Z) = Ok ap ->
  atom_of (shape0 xyz) (nth 3 row 0%Z) = Ok an ->
  value_alone Dihedrals xyz row
  = atan2 (dot3 (bond_u xyz am ao)
                (cross3 (bond_u xyz an ap) (bond_u xyz ap ao))
           * norm3 (bond_u xyz ap ao))
          (dot3 (cross3 (bond_u xyz an ap) (bond_u xyz ap ao))
                (cross3 (bond_u xyz am ao) (bond_u xyz ap ao))).
Proof.
  intros Sx Hm Ho Hp Hn. unfold value_alone.
  rewrite evaluate_run by (auto; reflexivity).
  simpl rows. rewrite single_row_loop. unfold step.
  simpl feature_of. rewrite dihedral_feature_order0, Hm, Ho, Hn, Hp.
  reflexivity.
Qed.

(** The two arguments of [atan2] lie on a circle of squared radius
    [|v x w|^2 |u x w|^2]. *)
Lemma dihedral_radius (u v w : vec3 R) :
  dot3 (cross3 v w) (cross3 u w) * dot3 (cross3 v w) (cross3 u w)
  + dot3 u (cross3 v w) * dot3 u (cross3 v w) * dot3 w w
  = dot3 (cross3 v w) (cross3 v w) * dot3 (cross3 u w) (cross3 u w).
Proof. destruct u, v, w. unfold_kernel. simpl. ring. Qed.

Lemma dihedral_slope (u v w a b c : vec3 R) :
  dot3 w w
  * (dot3 (cross3 v w) (cross3 u w)
     * (dot3 a (cross3 v w) + dot3 u (vadd (cross3 b w) (cross3 v c)))
     - dot3 u (cross3 v w)
       * (dot3 (vadd (cross3 b w) (cross3 v c)) (cross3 u w)
          + dot3 (cross3 v w) (vadd (cross3 a w) (cross3 u c))))
  + dot3 (cross3 v w) (cross3 u w) * dot3 u (cross3 v w) * dot3 w c
  = dot3 w w * dot3 (cross3 v w) (cross3 v w) * dot3 (cross3 u w) a
    - dot3 w w * dot3 (cross3 u w) (cross3 u w) * dot3 (cross3 v w) b
    + dot3 v w * dot3 (cross3 u w) (cross3 u w) * dot3 (cross3 v w) c
    - dot3 u w * dot3 (cross3 v w) (cross3 v w) * dot3 (cross3 u w) c.
Proof. destruct u, v, w, a, b, c. unfold_kernel. simpl. ring. Qed.

(** The derivative of the dihedral when its three arms move on
    straight paths, off the cut of [atan2]. *)
Lemma dihedral_path (u v w a b c : vec3 R) :
  dot3 (cross3 u w) (cross3 u w) <> 0 ->
  dot3 (cross3 v w) (cross3 v w) <> 0 ->
  0 < dot3 (cross3 v w) (cross3 u w)
  \/ dot3 u (cross3 v w) * norm3 w <> 0 ->
  derivable_pt_lim
    (fun t =>
       atan2 (dot3 (vadd u (smulv t a))
                   (cross3 (vadd v (smulv t b)) (vadd w (smulv t c)))
              * norm3 (vadd w (smulv t c)))
             (dot3 (cross3 (vadd v (smulv t b)) (vadd w (smulv t c)))
                   (cross3 (vadd u (smulv t a)) (vadd w (smulv t c)))))
    0
    (norm3 w / dot3 (cross3 u w) (cross3 u w) * dot3 (cross3 u w) a
     - norm3 w / dot3 (cross3 v w) (cross3 v w) * dot3 (cross3 v w) b
     + dot3 v w / (norm3 w * dot3 (cross3 v w) (cross3 v w))
       * dot3 (cross3 v w) c
     - dot3 u w / (norm3 w * dot3 (cross3 u w) (cross3 u w))
       * dot3 (cross3 u w) c).
Proof.
  intros HB HA Hreg.
  destruct (cross3_nonzero u w HB) as [_ Hw].
  pose proof (vderiv_line u a) as DU.
  pose proof (vderiv_line v b) as DV.
  pose proof (vderiv_line w c) as DW.
  pose proof (vderiv_cross _ _ _ _ DV DW) as DA.
  pose proof (vderiv_cross _ _ _ _ DU DW) as DB.
  pose proof (deriv_dot _ _ _ _ DU DA) as DT.
  pose proof (deriv_dot _ _ _ _ DA DB) as Dx.
  pose proof (norm3_path w c Hw) as Dr.
  pose proof (derivable_pt_lim_mult _ _ _ _ _ DT Dr) as Dy.
  cbv beta in DT, Dx, Dy.
  pose proof (atan2_path _ _ _ _ Dy Dx) as D.
  unfold mult_fct in D. cbv beta in D.
  rewrite !vadd_smulv_0 in D. specialize (D Hreg).
  eapply derivable_pt_lim_value; [|exact D].
  clear D Dy Dr Dx DT DB DA DW DV DU Hreg.
  pose proof (dihedral_radius u v w) as Erad.
  pose proof (dihedral_slope u v w a b c) as Eslope.
  rewrite <- (norm3_sqr w) in Erad, Eslope.
  revert Erad Eslope Hw HB HA.
  generalize (norm3 w). intros r.
  generalize (dot3 (cross3 v w) (cross3 u w)). intros x0.
  generalize (dot3 u (cross3 v w)). intros T.
  generalize (dot3 a (cross3 v w) + dot3 u (vadd (cross3 b w) (cross3 v c))).
  intros T'.
  generalize (dot3 (vadd (cross3 b w) (cross3 v c)) (cross3 u w)
              + dot3 (cross3 v w) (vadd (cross3 a w) (cross3 u c))).
  intros x'.
  generalize (dot3 (cross3 v w) (cross3 v w)). intros aa.
  generalize (dot3 (cross3 u w) (cross3 u w)). intros bb.
  generalize (dot3 (cross3 u w) a) (dot3 (cross3 v w) b)
             (dot3 (cross3 v w) c) (dot3 (cross3 u w) c)
             (dot3 w c) (dot3 v w) (dot3 u w).
  intros Ba Ab Ac Bc wc vw uw Erad Eslope Hr Hbb Haa.
  replace (x0 * x0 + T * r * (T * r)) with (aa * bb) by (rewrite <- Erad; ring).
  apply (Rmult_eq_reg_r (r * aa * bb)).
  2:{ repeat apply Rmult_integral_contrapositive_currified; assumption. }
  transitivity (r * r * (x0 * T' - T * x') + x0 * T * wc).
  - field. repeat split; assumption.
  - rewrite Eslope. field. repeat split; assumption.
Qed.

Ltac kernel_zero xyz :=
  repeat match goal with
  | |- context [xyz_row xyz ?a] => generalize (xyz_row xyz a); intros []
  end;
  unfold_kernel; simpl; ring.

(** Atoms whose arms span the two planes of a dihedral are distinct,
    but for the two ends. *)
Lemma dihedral_atoms_apart (xyz : ndarray2 R) (am ao ap an : nat) :
  dot3 (cross3 (bond_u xyz am ao) (bond_u xyz ap ao))
       (cross3 (bond_u xyz am ao) (bond_u xyz ap ao)) <> 0 ->
  dot3 (cross3 (bond_u xyz an ap) (bond_u xyz ap ao))
       (cross3 (bond_u xyz an ap) (bond_u xyz ap ao)) <> 0 ->
  am <> ao /\ am <> ap /\ ao <> ap /\ ao <> an /\ ap <> an.
Proof.
  intros HB HA. unfold bond_u in *.
  repeat split; intros E; subst;
    first [ solve [apply HB; kernel_zero xyz]
          | solve [apply HA; kernel_zero xyz] ].
Qed.

(** [atan2] takes the value [PI] only on the cut. *)
Lemma atan2_off_cut (y x : R) :
  x * x + y * y <> 0 -> atan2 y x <> PI -> 0 < x \/ y <> 0.
Proof.
  intros Hne Hval.
  destruct (Rlt_dec 0 x) as [Hx|Hx]; [now left|right].
  intros ->. apply Hval. unfold atan2.
  destruct (Rlt_dec 0 x) as [C|_]; [contradiction|].
  destruct (Rlt_dec x 0) as [Hneg|Hx'].
  - destruct (Rle_dec 0 0) as [_|C]; [|lra].
    replace (0 / x) with 0 by (field; lra). rewrite atan_0. ring.
  - exfalso. apply Hne. assert (x = 0) by lra. subst x. ring.
Qed.

(** The partial derivatives of a dihedral against the rows of its
    Jacobian: what the row of atom [a] lacks is twice [term4] along the
    pull of [a] on the middle bond. *)
Lemma dihedral_nudge_path (xyz : ndarray2 R) (idihedrals : ndarray2 Z)
      deriv out j f row am ao ap an :
  dihedral_angles xyz idihedrals deriv = Ok out ->
  jacobian_of out = Some j ->
  nth_error (rows idihedrals) f = Some row ->
  atom_of (shape0 xyz) (nth 0 row 0%Z) = Ok am ->
  atom_of (shape0 xyz) (nth 1 row 0%Z) = Ok ao ->
  atom_of (shape0 xyz) (nth 2 row 0%Z) = Ok ap ->
  atom_of (shape0 xyz) (nth 3 row 0%Z) = Ok an ->
  am <> an ->
  let u := bond_u xyz am ao in
  let v := bond_u xyz an ap in
  let w := bond_u xyz ap ao in
  dot3 (cross3 u w) (cross3 u w) <> 0 ->
  dot3 (cross3 v w) (cross3 v w) <> 0 ->
  nth f (values_of out) 0 <> PI ->
  forall a i,
    derivable_pt_lim (fun t => value_alone Dihedrals (nudge a i t xyz) row) 0
      (vget (jacobian_row j f a) i
       + 2 * (dot3 v w / (norm3 w * dot3 (cross3 v w) (cross3 v w)))
         * dot3 (cross3 v w) (pull a ap ao i)).
Proof.
  intros Hcall Hj Hrow Hm Ho Hp Hn Hmn u v w HB HA Hval a i.
  pose proof (dihedral_rows xyz idihedrals deriv out j f row am ao ap an
                Hcall Hj Hrow Hm Ho Hp Hn HB HA) as Hrows.
  cbv zeta in Hrows. fold u v w in Hrows.
  destruct (dihedral_atoms_apart xyz am ao ap an HB HA)
    as (Hmo & Hmp & Hop & Hon & Hpn).
  pose proof (proj1 (proj1 (evaluate_inv Dihedrals _ _ _ _ Hcall))) as Sx.
  pose proof (atom_of_lt _ _ _ Hm) as Lm.
  pose proof (atom_of_lt _ _ _ Ho) as Lo.
  pose proof (atom_of_lt _ _ _ Hp) as Lp.
  pose proof (atom_of_lt _ _ _ Hn) as Ln.
  assert (Hreg : 0 < dot3 (cross3 v w) (cross3 u w)
                 \/ dot3 u (cross3 v w) * norm3 w <> 0).
  { apply atan2_off_cut.
    - replace (dot3 u (cross3 v w) * norm3 w * (dot3 u (cross3 v w) * norm3 w))
        with (dot3 u (cross3 v w) * dot3 u (cross3 v w)
              * (norm3 w * norm3 w)) by ring.
      rewrite norm3_sqr, dihedral_radius.
      now apply Rmult_integral_contrapositive_currified.
    - destruct (evaluate_feature Dihedrals xyz idihedrals deriv out f _
                  Hcall Hrow) as (val & J & H & Hfeat & Hv & _).
      simpl of_int in Hv. rewrite Hv in Hval.
      apply dihedral_feature_shape in Hfeat
        as (am' & ao' & ap' & an' & Hm' & Ho' & Hp' & Hn' & E & _).
      assert (am' = am) by congruence. assert (ao' = ao) by congruence.
      assert (ap' = ap) by congruence. assert (an' = an) by congruence.
      subst. exact Hval. }
  apply (derivable_pt_lim_ext
           (fun t =>
              atan2 (dot3 (vadd u (smulv t (pull a am ao i)))
                          (cross3 (vadd v (smulv t (pull a an ap i)))
                                  (vadd w (smulv t (pull a ap ao i))))
                     * norm3 (vadd w (smulv t (pull a ap ao i))))
                    (dot3 (cross3 (vadd v (smulv t (pull a an ap i)))
                                  (vadd w (smulv t (pull a ap ao i))))
                          (cross3 (vadd u (smulv t (pull a am ao i)))
                                  (vadd w (smulv t (pull a ap ao i))))))).
  { intros t. symmetry.
    rewrite (value_alone_dihedral (nudge a i t xyz) row am ao ap an);
      rewrite ?shape0_nudge, ?bond_u_nudge; auto. }
  eapply derivable_pt_lim_value; [|apply dihedral_path; assumption].
  rewrite (Hrows a). clear Hrows. rewrite !dot3_pull.
  generalize (norm3 w / dot3 (cross3 u w) (cross3 u w)).
  generalize (norm3 w / dot3 (cross3 v w) (cross3 v w)).
  generalize (dot3 u w / (norm3 w * dot3 (cross3 u w) (cross3 u w))).
  generalize (dot3 v w / (norm3 w * dot3 (cross3 v w) (cross3 v w))).
  generalize (cross3 u w) (cross3 v w).
  intros B A k4 k3 k2 k1.
  repeat match goal with
  | |- context [(?x =? ?y)%nat] =>
      destruct (Nat.eqb_spec x y); try subst; try congruence
  end;
  destruct A, B, i; unfold_kernel; simpl; ring.
Qed.

(** Off the horizontal axis, [atan2] is not [PI]. *)
Lemma atan2_cut_only (y x : R) : y <> 0 -> atan2 y x <> PI.
Proof.
  intros Hy. pose proof PI_RGT_0 as Hpi. unfold atan2.
  destruct (Rlt_dec 0 x) as [Hx|Hx].
  - pose proof (atan_bound (y / x)). lra.
  - destruct (Rlt_dec x 0) as [Hx'|Hx'].
    + destruct (Rle_dec 0 y) as [Hy'|Hy'].
      * assert (Hq : y / x < 0).
        { replace (y / x) with (- (y / - x)) by (field; lra).
          assert (0 < y / - x) by (apply Rdiv_lt_0_compat; lra). lra. }
        apply atan_increasing in Hq. rewrite atan_0 in Hq. lra.
      * pose proof (atan_bound (y / x)). lra.
    + destruct (Rlt_dec 0 y); [lra|].
      destruct (Rlt_dec y 0); lra.
Qed.

(** X23: for a tuple [(m, o, p, n)] of [idihedrals] whose two end atoms
    differ and whose planes are spanned ([u x w] and [v x w] not zero),
    and whose returned angle is off the cut of [atan2] (not [PI]), the
    rows of the Jacobian at the end atoms [m] and [n], and at every atom
    that is neither [o] nor [p], hold the partial derivatives of the
    angle that a call of order 0 returns for the tuple. *)
Theorem dihedral_end_rows_are_gradient (xyz : ndarray2 R)
        (idihedrals : ndarray2 Z) (deriv : Z) (out : output R)
        (j : list (jslab R)) (f : nat) (row : list Z) (am ao ap an : nat) :
  dihedral_angles xyz idihedrals deriv = Ok out ->
  jacobian_of out = Some j ->
  nth_error (rows idihedrals) f = Some row ->
  atom_of (shape0 xyz) (nth 0 row 0%Z) = Ok am ->
  atom_of (shape0 xyz) (nth 1 row 0%Z) = Ok ao ->
  atom_of (shape0 xyz) (nth 2 row 0%Z) = Ok ap ->
  atom_of (shape0 xyz) (nth 3 row 0%Z) = Ok an ->
  am <> an ->
  let u := bond_u xyz am ao in
  let v := bond_u xyz an ap in
  let w := bond_u xyz ap ao in
  dot3 (cross3 u w) (cross3 u w) <> 0 ->
  dot3 (cross3 v w) (cross3 v w) <> 0 ->
  nth f (values_of out) 0 <> PI ->
  forall a i, a <> ao -> a <> ap ->
    derivable_pt_lim (fun t => value_alone Dihedrals (nudge a i t xyz) row) 0
      (vget (jacobian_row j f a) i).
Proof.
  intros Hcall Hj Hrow Hm Ho Hp Hn Hmn u v w HB HA Hval a i Hao Hap.
  eapply derivable_pt_lim_value;
    [|exact (dihedral_nudge_path xyz idihedrals deriv out j f row am ao ap an
               Hcall Hj Hrow Hm Ho Hp Hn Hmn HB HA Hval a i)].
  rewrite dot3_pull. nat_eqb. ring.
Qed.

Lemma dihedral_end_rows_are_gradient_witness :
  exists out j,
    dihedral_angles Chains.leaning4 Frames.dihedral_0123 1 = Ok out /\
    jacobian_of out = Some j /\
    derivable_pt_lim
      (fun t => value_alone Dihedrals (nudge 3 X1 t Chains.leaning4)
                  [0; 1; 2; 3]%Z)
      0 (vget (jacobian_row j 0 3) X1).
Proof.
  do 2 eexists. split; [reflexivity|]. split; [reflexivity|].
  apply (dihedral_end_rows_are_gradient Chains.leaning4 Frames.dihedral_0123
           1 _ _ 0%nat [0; 1; 2; 3]%Z 0%nat 1%nat 2%nat 3%nat
           eq_refl eq_refl eq_refl eq_refl eq_refl eq_refl eq_refl
           ltac:(discriminate)).
  - real_eval. lra.
  - real_eval. lra.
  - apply atan2_cut_only. real_eval. sqrt_literals. lra.
  - discriminate.
  - discriminate.
Defined.

(** X24: under the same conditions, the rows of the Jacobian at the two
    middle atoms are not the partial derivatives in general.  With
    [e = 2 (v . w) / (|w| |v x w|^2) (v x w)], that is, minus twice the
    [term4] of the code, the derivative along [xyz[p, i]] is
    [jacobian[f, p, i] + e[i]] and the one along [xyz[o, i]] is
    [jacobian[f, o, i] - e[i]]; the entry is the derivative exactly when
    [(v . w) (v x w)[i] = 0]. *)
Theorem dihedral_middle_rows_miss_gradient (xyz : ndarray2 R)
        (idihedrals : ndarray2 Z) (deriv : Z) (out : output R)
        (j : list (jslab R)) (f : nat) (row : list Z) (am ao ap an : nat) :
  dihedral_angles xyz idihedrals deriv = Ok out ->
  jacobian_of out = Some j ->
  nth_error (rows idihedrals) f = Some row ->
  atom_of (shape0 xyz) (nth 0 row 0%Z) = Ok am ->
  atom_of (shape0 xyz) (nth 1 row 0%Z) = Ok ao ->
  atom_of (shape0 xyz) (nth 2 row 0%Z) = Ok ap ->
  atom_of (shape0 xyz) (nth 3 row 0%Z) = Ok an ->
  am <> an ->
  let u := bond_u xyz am ao in
  let v := bond_u xyz an ap in
  let w := bond_u xyz ap ao in
  dot3 (cross3 u w) (cross3 u w) <> 0 ->
  dot3 (cross3 v w) (cross3 v w) <> 0 ->
  nth f (values_of out) 0 <> PI ->
  let e := smulv (2 * dot3 v w / (norm3 w * dot3 (cross3 v w) (cross3 v w)))
                 (cross3 v w) in
  forall i,
    derivable_pt_lim (fun t => value_alone Dihedrals (nudge ap i t xyz) row) 0
      (vget (jacobian_row j f ap) i + vget e i) /\
    derivable_pt_lim (fun t => value_alone Dihedrals (nudge ao i t xyz) row) 0
      (vget (jacobian_row j f ao) i - vget e i) /\
    (derivable_pt_lim
       (fun t => value_alone Dihedrals (nudge ap i t xyz) row) 0
       (vget (jacobian_row j f ap) i)
     <-> dot3 v w * vget (cross3 v w) i = 0) /\
    (derivable_pt_lim
       (fun t => value_alone Dihedrals (nudge ao i t xyz) row) 0
       (vget (jacobian_row j f ao) i)
     <-> dot3 v w * vget (cross3 v w) i = 0).
Proof.
  intros Hcall Hj Hrow Hm Ho Hp Hn Hmn u v w HB HA Hval e i.
  pose proof (dihedral_nudge_path xyz idihedrals deriv out j f row am ao ap an
                Hcall Hj Hrow Hm Ho Hp Hn Hmn HB HA Hval) as D.
  cbv zeta in D. fold u v w in D.
  destruct (dihedral_atoms_apart xyz am ao ap an HB HA)
    as (_ & _ & Hop & _ & _).
  destruct (cross3_nonzero v w HA) as [_ Hw].
  assert (Ee : vget e i
               = 2 * (dot3 v w / (norm3 w * dot3 (cross3 v w) (cross3 v w)))
                 * vget (cross3 v w) i).
  { unfold e.
    replace (2 * dot3 v w / (norm3 w * dot3 (cross3 v w) (cross3 v w)))
      with (2 * (dot3 v w / (norm3 w * dot3 (cross3 v w) (cross3 v w))))
      by (field; split; assumption).
    generalize (dot3 v w / (norm3 w * dot3 (cross3 v w) (cross3 v w))).
    intros k. destruct (cross3 v w), i; unfold_kernel; simpl; ring. }
  assert (Dp : derivable_pt_lim
                 (fun t => value_alone Dihedrals (nudge ap i t xyz) row) 0
                 (vget (jacobian_row j f ap) i + vget e i)).
  { eapply derivable_pt_lim_value; [|exact (D ap i)].
    rewrite dot3_pull, Ee. nat_eqb. ring. }
  assert (Do : derivable_pt_lim
                 (fun t => value_alone Dihedrals (nudge ao i t xyz) row) 0
                 (vget (jacobian_row j f ao) i - vget e i)).
  { eapply derivable_pt_lim_value; [|exact (D ao i)].
    rewrite dot3_pull, Ee. nat_eqb. ring. }
  assert (Hz : vget e i = 0 <-> dot3 v w * vget (cross3 v w) i = 0).
  { rewrite Ee. split; intros E0.
    - apply (Rmult_eq_reg_l
               (2 / (norm3 w * dot3 (cross3 v w) (cross3 v w)))).
      + rewrite Rmult_0_r, <- E0. field. split; assumption.
      + apply Rmult_integral_contrapositive_currified; [lra|].
        apply Rinv_neq_0_compat.
        now apply Rmult_integral_contrapositive_currified.
    - replace (2 * (dot3 v w / (norm3 w * dot3 (cross3 v w) (cross3 v w)))
               * vget (cross3 v w) i)
        with (2 / (norm3 w * dot3 (cross3 v w) (cross3 v w))
              * (dot3 v w * vget (cross3 v w) i))
        by (field; split; assumption).
      rewrite E0. ring. }
  split; [exact Dp|]. split; [exact Do|]. split.
  - rewrite <- Hz. split; intros E0.
    + pose proof (uniqueness_limite _ _ _ _ Dp E0). lra.
    + eapply derivable_pt_lim_value; [|exact Dp]. rewrite E0. ring.
  - rewrite <- Hz. split; intros E0.
    + pose proof (uniqueness_limite _ _ _ _ Do E0). lra.
    + eapply derivable_pt_lim_value; [|exact Do]. rewrite E0. ring.
Qed.

Lemma dihedral_middle_rows_miss_gradient_witness :
  exists out j,
    dihedral_angles Chains.leaning4 Frames.dihedral_0123 1 = Ok out /\
    jacobian_of out = Some j /\
    derivable_pt_lim
      (fun t => value_alone Dihedrals (nudge 2 X0 t Chains.leaning4)
                  [0; 1; 2; 3]%Z)
      0 (vget (jacobian_row j 0 2) X0 + 8 / 3) /\
    ~ derivable_pt_lim
        (fun t => value_alone Dihedrals (nudge 2 X0 t Chains.leaning4)
                    [0; 1; 2; 3]%Z)
        0 (vget (jacobian_row j 0 2) X0).
Proof.
  do 2 eexists. split; [reflexivity|]. split; [reflexivity|].
  destruct (dihedral_middle_rows_miss_gradient Chains.leaning4
              Frames.dihedral_0123
              1 _ _ 0%nat [0; 1; 2; 3]%Z 0%nat 1%nat 2%nat 3%nat
              eq_refl eq_refl eq_refl eq_refl eq_refl eq_refl eq_refl
              ltac:(discriminate)) with (i := X0)
    as (Dp & _ & Hiff & _).
  - real_eval. lra.
  - real_eval. lra.
  - apply atan2_cut_only. real_eval. sqrt_literals. lra.
  - split.
    + eapply derivable_pt_lim_value; [|exact Dp].
      f_equal. real_eval. sqrt_literals. field.
    + intros C. apply Hiff in C. revert C. real_eval. lra.
Defined.
